(** * Delivery-guarantee core of the stream processor: a shallow embedding

    The development follows the Go sources:
    - [Branch]      : internal/impl/pure/processor_branch.go
                      (alignBranchResult, createResult, overlayResult,
                      ProcessMessage);
    - [AsyncWriter] : the async sink driver (injectSpans, loop, connectLoop,
                      writerLoop);
    - [AutoRetry]   : the auto-retry nack buffer, whose implementation file is
                      not part of the sources at hand and is modelled from the
                      specification and the test suites;
    - [AsyncWriterLifecycle] : loop, Consume and Connected of the driver,
                      and the counters it keeps;
    - [BTLS]        : the tls package (Config.Get, ClientCertConfig.Load);
    - [Websocket]   : internal/impl/io/output_websocket.go;
    - [Tracing], [SpanReader] : the tracing package and
                      internal/component/input/span/reader.go.

    Metrics, logging and tracing calls are kept only where a statement
    refers to them. *)

From stdpp Require Import base option list relations gmap strings sorting.
From Stdlib Require Import Lia.

Open Scope string_scope.
Open Scope list_scope.
Open Scope stdpp_scope.
Open Scope nat_scope.

(** ** Errors

    Go errors are compared by identity against the sentinels of the
    [component] package; formatted errors keep their arguments. *)
Inductive error : Type :=
| ErrNotConnected                       (* component.ErrNotConnected *)
| ErrTypeClosed                         (* component.ErrTypeClosed *)
| ErrTimeout                            (* component.ErrTimeout *)
| ErrAlreadyStarted                     (* component.ErrAlreadyStarted *)
| ErrNew (msg : string)                 (* errors.New(msg) *)
| ErrWrap (pre : string) (e : error)    (* fmt.Errorf(pre ++ ": %w", e) *)
| ErrAlign (rLen pLen : nat)            (* alignBranchResult's count error *)
| ErrDiverged (act exp : nat).          (* overlayResult's count error *)

#[global] Instance error_eq_dec : EqDecision error.
Proof. solve_decision. Defined.

(** ** Parts and batches *)

(** Modelled from the spec: the message package (Part, Batch) is not among
    the sources.  A part carries a byte payload and an error slot; the
    [tags] are the Sort-Group tokens (group, original index) attached to it,
    newest first.  Parts have value semantics: a copy equals its original. *)
Record part : Type := mkPart {
  data    : string;
  errslot : option error;
  tags    : list (nat * nat)
}.

#[global] Instance part_eq_dec : EqDecision part.
Proof. solve_decision. Defined.

Abbreviation batch := (list part).

Definition NewPart (s : string) : part := mkPart s None [].
Definition QuickBatch (l : list string) : batch := NewPart <$> l.
Definition GetAllBytes (b : batch) : list string := data <$> b.

(** p.ErrorSet(err) *)
Definition ErrorSet (e : option error) (p : part) : part :=
  mkPart (data p) e (tags p).

(** p.Set(nil): the payload is cleared. *)
Definition SetNil (p : part) : part := mkPart "" (errslot p) (tags p).

(** ** The branch processor *)
Module Branch.

(** Outcome of a mapping executor's MapOnto: an error, a deleted part
    (nil, nil) or a new part. *)
Inductive mapResult : Type :=
| MapFail (e : error)
| MapDeleted
| MapOk (p : part).

Record branchMapError : Type := newBranchMapError {
  index : nat;
  err   : error
}.

(** The inner loop of alignBranchResult:
    [for sIndex < len(skippedOrFailed) && skippedOrFailed[sIndex] == i+sIndex].
    Each iteration increments [sIndex], so [length skippedOrFailed]
    iterations are enough (lemma [skipLoop_spec]). *)
Fixpoint skipLoop (fuel : nat) (skippedOrFailed : list nat) (i sIndex : nat) : nat :=
  match fuel with
  | 0 => sIndex
  | S fuel' =>
      match skippedOrFailed !! sIndex with
      | Some s =>
          if decide (s = i + sIndex)
          then skipLoop fuel' skippedOrFailed i (S sIndex)
          else sIndex
      | None => sIndex
      end
  end.

(** The outer loop, [for i = 0; i < len(resMsgParts); i++], run over the
    parts still to be placed.  A write outside [resultParts] panics in Go:
    it is [None] here. *)
Fixpoint alignLoop (resMsgParts : list part) (i sIndex : nat)
    (skippedOrFailed : list nat) (resultParts : list (option part))
    : option (list (option part)) :=
  match resMsgParts with
  | [] => Some resultParts
  | p :: rest =>
      let sIndex' := skipLoop (length skippedOrFailed) skippedOrFailed i sIndex in
      if decide (i + sIndex' < length resultParts)
      then alignLoop rest (S i) sIndex' skippedOrFailed
             (<[i + sIndex' := Some p]> resultParts)
      else None
  end.

(** Result of alignBranchResult: a panic, the count error, or the aligned
    parts. *)
Inductive alignResult : Type :=
| AlignPanic
| AlignErr (e : error)
| AlignOk (resultParts : list (option part)).

(** sort.Ints *)
Definition sortInts (l : list nat) : list nat := merge_sort (≤) l.

Definition alignBranchResult (length_ : nat) (skipped failed : list nat)
    (result : list batch) : alignResult :=
  let resMsgParts := concat result in
  let skippedOrFailed := sortInts (skipped ++ failed) in
  let rLen := length resMsgParts + length skippedOrFailed in
  let pLen := length_ in
  if decide (rLen ≠ pLen) then AlignErr (ErrAlign rLen pLen)
  else if decide (length skippedOrFailed = 0) then AlignOk (Some <$> resMsgParts)
  else
    match alignLoop resMsgParts 0 0 skippedOrFailed (replicate length_ None) with
    | Some resultParts => AlignOk resultParts
    | None => AlignPanic
    end.

(** The first loop of createResult: the request payloads, with the
    indices that were skipped (nil or deleted parts) and those whose
    request mapping failed. *)
Record requests : Type := mkRequests {
  newParts : list part;
  skipped  : list nat;
  failed   : list nat;
  mapErrs  : list branchMapError
}.

(** Invariant of the request loop before part [i]: every recorded index is
    below [i], no index is recorded twice, and the mapping errors are those
    of the failed indices. *)
Definition reqInv (i : nat) (acc : requests) : Prop :=
  index <$> mapErrs acc = failed acc
  ∧ (∀ x, x ∈ skipped acc ++ failed acc → x < i)
  ∧ NoDup (skipped acc ++ failed acc).

Section processor.

(** The collaborators of a branch: the optional mappings and the child
    processors, [processor.ExecuteAll(b.children, msg)]. *)
Variable requestMap : option (part → nat → batch → mapResult).
Variable resultMap  : option (part → nat → list (option part) → mapResult).
Variable children   : batch → list batch * option error.

Fixpoint requestLoop (i : nat) (parts : list (option part))
    (referenceMsg : batch) (acc : requests) : requests :=
  match parts with
  | [] => acc
  | None :: rest =>
      requestLoop (S i) rest referenceMsg
        (mkRequests (newParts acc) (skipped acc ++ [i]) (failed acc) (mapErrs acc))
  | Some p :: rest =>
      requestLoop (S i) rest referenceMsg
        match requestMap with
        | Some rm =>
            match rm (SetNil p) i referenceMsg with
            | MapFail e =>
                mkRequests (newParts acc) (skipped acc) (failed acc ++ [i])
                  (mapErrs acc ++
                     [newBranchMapError i (ErrWrap "request mapping failed" e)])
            | MapDeleted =>
                mkRequests (newParts acc) (skipped acc ++ [i]) (failed acc) (mapErrs acc)
            | MapOk newPart =>
                mkRequests (newParts acc ++ [newPart]) (skipped acc) (failed acc)
                  (mapErrs acc)
            end
        | None =>
            mkRequests (newParts acc ++ [p]) (skipped acc) (failed acc) (mapErrs acc)
        end
  end.

(** The error recorded for part [i] when its request mapping fails. *)
Definition requestFailure (i : nat) (p : option part) (referenceMsg : batch)
    : option error :=
  match p, requestMap with
  | Some q, Some rm =>
      match rm (SetNil q) i referenceMsg with
      | MapFail e => Some (ErrWrap "request mapping failed" e)
      | _ => None
      end
  | _, _ => None
  end.

Definition createRequests (parts : list (option part)) (referenceMsg : batch)
    : requests :=
  requestLoop 0 parts referenceMsg (mkRequests [] [] [] []).

(** "Execute child processors": not run on an empty request batch. *)
Definition executeChildren (parts : batch) : error + list batch :=
  match parts with
  | [] => inr []
  | _ =>
      let '(procResults, res) := children parts in
      let err1 := (λ r, ErrWrap "child processors failed" r) <$> res in
      let err2 :=
        if decide (length procResults = 0)
        then Some (ErrNew "child processors resulted in zero messages")
        else err1 in
      match err2 with
      | Some e => inl e
      | None => inr procResults
      end
  end.

(** The last loop of createResult: parts that carry an error are
    replaced by nil and reported. *)
Fixpoint failedLoop (i : nat) (alignedResult : list (option part))
    : list (option part) * list branchMapError :=
  match alignedResult with
  | [] => ([], [])
  | p :: rest =>
      let '(rest', errs) := failedLoop (S i) rest in
      match p with
      | Some q =>
          match errslot q with
          | Some fail =>
              (None :: rest',
               newBranchMapError i (ErrWrap "processors failed" fail) :: errs)
          | None => (p :: rest', errs)
          end
      | None => (None :: rest', errs)
      end
  end.

(** createResult returns (nil, mapErrs, err) or (alignedResult, mapErrs,
    nil); [None] is the out-of-range panic of alignBranchResult. *)
Definition createResult (parts : list (option part)) (referenceMsg : batch)
    : option (list branchMapError * (error + list (option part))) :=
  let originalLen := length parts in
  let rq := createRequests parts referenceMsg in
  match executeChildren (newParts rq) with
  | inl e => Some (mapErrs rq, inl e)
  | inr procResults =>
      match alignBranchResult originalLen (skipped rq) (failed rq) procResults with
      | AlignPanic => None
      | AlignErr e => Some (mapErrs rq, inl e)
      | AlignOk alignedResult =>
          let '(aligned', errs) := failedLoop 0 alignedResult in
          Some (mapErrs rq ++ errs, inr aligned')
      end
  end.

(** [result.Get(e.index).ErrorSet(e.err)] for each mapping error, in
    order. *)
Definition setMapErrs (mapErrs : list branchMapError) (result : batch) : batch :=
  foldl (λ r e, alter (ErrorSet (Some (err e))) (index e) r) result mapErrs.

Fixpoint overlayLoop (i : nat) (rm : part → nat → list (option part) → mapResult)
    (payload : batch) (results resultMsg : list (option part))
    : batch * list branchMapError :=
  match payload, results with
  | p :: payload', Some _ :: results' =>
      let '(parts, failed) := overlayLoop (S i) rm payload' results' resultMsg in
      match rm p i resultMsg with
      | MapFail e =>
          (p :: parts, newBranchMapError i (ErrWrap "result mapping failed" e) :: failed)
      | MapDeleted => (p :: parts, failed)
      | MapOk newPart => (newPart :: parts, failed)
      end
  | p :: payload', None :: results' =>
      let '(parts, failed) := overlayLoop (S i) rm payload' results' resultMsg in
      (p :: parts, failed)
  | _, _ => (payload, [])
  end.

(** overlayResult: the new payload, the result-mapping failures and the
    count error. *)
Definition overlayResult (payload : batch) (results : list (option part))
    : batch * list branchMapError * option error :=
  let exp := length payload in
  let act := length results in
  if decide (exp ≠ act) then (payload, [], Some (ErrDiverged act exp))
  else
    match resultMap with
    | Some rm =>
        let '(parts, failed) := overlayLoop 0 rm payload results results in
        (parts, failed, None)
    | None => (payload, [], None)
    end.

(** ProcessMessage always returns one batch and a nil error; [None] is
    the panic. *)
Definition ProcessMessage (msg : batch) : option (list batch) :=
  let parts := (λ p, Some (ErrorSet None p)) <$> msg in
  match createResult parts msg with
  | None => None
  | Some (mapErrs, inl e) =>
      let result := ErrorSet (Some e) <$> msg in
      Some [setMapErrs mapErrs result]
  | Some (mapErrs, inr resultParts) =>
      let result := setMapErrs mapErrs msg in
      match overlayResult result resultParts with
      | (result', _, Some e) => Some [ErrorSet (Some e) <$> result']
      | (result', mapErrs', None) => Some [setMapErrs mapErrs' result']
      end
  end.

End processor.

(** Collaborators used for the concrete runs: a request mapping that fails
    on the first part and keeps the others, and a child processor that
    doubles its batch. *)
Definition failFirst : part → nat → batch → mapResult :=
  λ _ i referenceMsg,
    if decide (i = 0) then MapFail (ErrNew "boom")
    else match referenceMsg !! i with
         | Some q => MapOk q
         | None => MapDeleted
         end.

Definition duplicate : batch → list batch * option error :=
  λ b, ([b ++ b], None).

(** A batch of two parts, its requests under [failFirst] and what
    [duplicate] returns for them. *)
Definition twoParts : batch := QuickBatch ["a"; "b"].

Definition twoRequests : requests :=
  createRequests (Some failFirst) ((λ p, Some (ErrorSet None p)) <$> twoParts)
    twoParts.

Definition doubled : list batch := [[NewPart "b"; NewPart "b"]].

End Branch.

(** ** The async sink driver *)
Module AsyncWriter.

(** A tracing span, seen through the text map that [Span.TextMap] injects
    it into; [TextMap] never returns an error. *)
Definition span : Type := string.

Definition TextMap (s : span) : string * option error := (s, None).

(** What the driver does besides returning: sink calls with their results,
    acknowledgements, counters and log lines, in order. *)
Inductive event : Type :=
| EvWrite (msg : list (option part)) (res : option error)
| EvConnect (res : option error)
| EvAck (ts : nat) (res : option error)
| EvIncr (counter : string)
| EvTiming (timer : string)
| EvLog (level : string) (e : option error)
| EvFinish (spans : nat).

(** One answer of the sink to ConnectWithContext, with what the shutdown
    signaller shows while the driver handles a failure:
    [closing] is ShouldCloseAtLeisure(), [ctxDone] tells that the select
    on the backoff timer is won by [initConnCtx.Done()]. *)
Record connectResp : Type := mkConnectResp {
  cerr    : option error;
  closing : bool;
  ctxDone : bool
}.

(** The configuration of an AsyncWriter. *)
Record config : Type := mkConfig {
  typeStr          : string;
  maxInflight      : nat;
  noCancel         : bool;
  injectTracingMap : option (part → nat → batch → Branch.mapResult)
}.

(** The state a worker sees: the connected flag, the answers the sink
    will give to the next writes and connects, what the flag reads when
    the worker next holds the reconnect mutex ([peers]: [true] when a peer
    has restored the connection in the meantime), and the events so
    far. *)
Record state : Type := mkState {
  isConnected  : bool;
  sinkWrites   : list (option error);
  sinkConnects : list connectResp;
  peers        : list bool;
  trace        : list event
}.

(** A call either returns or waits on the sink for ever (its answers are
    used up). *)
Inductive outcome (A : Type) : Type :=
| Blocked
| Done (a : A).
Arguments Blocked {A}.
Arguments Done {A} a.

Definition emit (evs : list event) (st : state) : state :=
  mkState (isConnected st) (sinkWrites st) (sinkConnects st) (peers st)
    (trace st ++ evs).

Definition storeConnected (b : bool) (st : state) : state :=
  mkState b (sinkWrites st) (sinkConnects st) (peers st) (trace st).

(** latencyMeasuringWrite: the context only matters for cancellation and
    the latency for the timer; the result is the sink's. *)
Definition latencyMeasuringWrite (msg : list (option part)) (st : state)
    : outcome (state * option error) :=
  match sinkWrites st with
  | [] => Blocked
  | res :: rest =>
      Done (mkState (isConnected st) rest (sinkConnects st) (peers st)
              (trace st ++ [EvWrite msg res]), res)
  end.

Section writer.

Variable w : config.
(** tracing.CreateChildSpan for the writer's tracer. *)
Variable tracer : part → span.

Definition CreateChildSpans (msg : batch) : list span := tracer <$> msg.

(** The loop of injectSpans, from index [i] on. *)
Fixpoint injectLoop (im : part → nat → batch → Branch.mapResult) (i : nat)
    (msg : batch) (spans : list span) : list (option part) * list event :=
  match msg, spans with
  | p :: msg', s :: spans' =>
      let '(parts, logs) := injectLoop im (S i) msg' spans' in
      match TextMap s with
      | (_, Some e) => (Some p :: parts, EvLog "warn" (Some e) :: logs)
      | (spanMapGeneric, None) =>
          let spanMsg := [NewPart spanMapGeneric] in
          match im p i spanMsg with
          | Branch.MapFail e => (Some p :: parts, EvLog "warn" (Some e) :: logs)
          | Branch.MapDeleted => (None :: parts, logs)
          | Branch.MapOk q => (Some q :: parts, logs)
          end
      end
  | _, _ => ([], [])
  end.

Definition injectSpans (msg : batch) (spans : list span)
    : list (option part) * list event :=
  match injectTracingMap w with
  | None => (Some <$> msg, [])
  | Some im =>
      if decide (length spans < length msg) then (Some <$> msg, [])
      else injectLoop im 0 msg spans
  end.

(** The loop of initConnection over the sink's answers. *)
Fixpoint initConnectionLoop (connects : list connectResp) (evs : list event)
    : outcome (bool * list connectResp * list event) :=
  match connects with
  | [] => Blocked
  | r :: rest =>
      match cerr r with
      | Some e =>
          if closing r || bool_decide (e = ErrTypeClosed)
          then Done (false, rest, evs ++ [EvConnect (Some e)])
          else
            let evs' := evs ++ [EvConnect (Some e); EvLog "error" (Some e);
                                EvIncr "output_connection_failed"] in
            if ctxDone r then Done (false, rest, evs')
            else initConnectionLoop rest evs'
      | None => Done (true, rest, evs ++ [EvConnect None])
      end
  end.

Definition initConnection (st : state) : outcome (state * bool) :=
  match initConnectionLoop (sinkConnects st) [] with
  | Blocked => Blocked
  | Done (ok, rest, evs) =>
      Done (mkState (isConnected st) (sinkWrites st) rest (peers st)
              (trace st ++ evs), ok)
  end.

(** "Continue to try to reconnect while still active": the [for] loop of
    connectLoop.  Every iteration that goes round uses up one answer of
    the sink to a write, so [S (length (sinkWrites st))] iterations are
    enough (lemma [reconnectFor_fuel]). *)
Fixpoint reconnectFor (fuel : nat) (msg : list (option part)) (st : state)
    : outcome (state * option error) :=
  match fuel with
  | 0 => Blocked
  | S fuel' =>
      match initConnection st with
      | Blocked => Blocked
      | Done (st1, false) => Done (st1, Some ErrTypeClosed)
      | Done (st1, true) =>
          match latencyMeasuringWrite msg st1 with
          | Blocked => Blocked
          | Done (st2, res) =>
              if decide (res ≠ Some ErrNotConnected)
              then Done (emit [EvIncr "output_connection_up"]
                           (storeConnected true st2), res)
              else reconnectFor fuel' msg (emit [EvIncr "output_error"] st2)
          end
      end
  end.

(** The flag as the worker reads it once it holds the mutex: its own
    store of 0, unless a peer has stored 1 since. *)
Definition loadConnected (st : state) : bool * state :=
  match peers st with
  | [] => (isConnected st, st)
  | b :: rest =>
      (b, mkState b (sinkWrites st) (sinkConnects st) rest (trace st))
  end.

(** The body of connectLoop once the mutex is held and the flag has been
    read as [connected]. *)
Definition connectBody (connected : bool) (msg : list (option part)) (st1 : state)
    : outcome (state * option error) :=
  let reconnect (st2 : state) :=
    let st3 := emit [EvIncr "output_connection_lost"] st2 in
    reconnectFor (S (length (sinkWrites st3))) msg st3 in
  if connected then
    match latencyMeasuringWrite msg st1 with
    | Blocked => Blocked
    | Done (st2, res) =>
        if decide (res ≠ Some ErrNotConnected) then Done (st2, res)
        else reconnect (emit [EvIncr "output_error"] st2)
    end
  else reconnect st1.

(** connectLoop: the store of 0, then, between Lock and the deferred
    Unlock, the load of the flag and the body. *)
Definition connectLoop (msg : list (option part)) (st : state)
    : outcome (state * option error) :=
  let st0 := storeConnected false st in
  let '(connected, st1) := loadConnected st0 in
  connectBody connected msg st1.

(** The write of writerLoop with its reconnection:
    [latency, err := w.latencyMeasuringWrite(ts.Payload)] and the
    [if err == component.ErrNotConnected] that follows. *)
Definition writeWithReconnect (msg : list (option part)) (st : state)
    : outcome (state * option error) :=
  match latencyMeasuringWrite msg st with
  | Blocked => Blocked
  | Done (st1, res) =>
      match res with
      | Some ErrNotConnected => connectLoop msg st1
      | Some _ => Done (emit [EvIncr "output_error"] st1, res)
      | None => Done (st1, res)
      end
  end.

Record transaction : Type := mkTransaction {
  tsid    : nat;
  Payload : batch
}.

Inductive control : Type := Continue | Exit.

(** The rest of the loop body, from "Close immediately if our writer is
    closed" to the acknowledgement. *)
Definition completeTransaction (ts : transaction) (spans : list span)
    (res : option error) (st : state) : state * control :=
  match res with
  | Some ErrTypeClosed => (st, Exit)
  | Some e =>
      let log := if decide (typeStr w ≠ "reject")
                 then EvLog "error" (Some e) else EvLog "debug" (Some e) in
      (emit [log; EvFinish (length spans); EvAck (tsid ts) res] st, Continue)
  | None =>
      (emit [EvIncr "output_batch_sent"; EvIncr "output_sent";
             EvTiming "output_latency_ns"; EvLog "trace" None;
             EvFinish (length spans); EvAck (tsid ts) res] st, Continue)
  end.

(** One iteration of writerLoop on a received transaction. *)
Definition processTransaction (ts : transaction) (st : state)
    : outcome (state * control) :=
  let spans := CreateChildSpans (Payload ts) in
  let '(payload, logs) := injectSpans (Payload ts) spans in
  match writeWithReconnect payload (emit (EvLog "trace" None :: logs) st) with
  | Blocked => Blocked
  | Done (st1, res) => Done (completeTransaction ts spans res st1)
  end.

(** What the select of writerLoop yields: a transaction, or the
    at-leisure shutdown signal; the end of the list is the closed
    channel. *)
Inductive chanEvent : Type :=
| Recv (ts : transaction)
| CloseAtLeisure.

Fixpoint writerLoop (chan : list chanEvent) (st : state) : outcome state :=
  match chan with
  | [] => Done st
  | CloseAtLeisure :: _ => Done st
  | Recv ts :: rest =>
      match processTransaction ts st with
      | Blocked => Blocked
      | Done (st1, Exit) => Done st1
      | Done (st1, Continue) => writerLoop rest st1
      end
  end.

End writer.

(** The acknowledgements and the writes among some events. *)
Definition acks (evs : list event) : list (nat * option error) :=
  omap (λ ev, match ev with EvAck ts res => Some (ts, res) | _ => None end) evs.

Definition writes (evs : list event) : list (list (option part) * option error) :=
  omap (λ ev, match ev with EvWrite msg res => Some (msg, res) | _ => None end) evs.

Definition connects (evs : list event) : list (option error) :=
  omap (λ ev, match ev with EvConnect res => Some res | _ => None end) evs.

(** What a completed write phase leaves in the trace: no acknowledgement,
    writes that all returned ErrNotConnected except the last, whose
    result is returned; or, when a (re)connection was given up, only
    ErrNotConnected writes and ErrTypeClosed. *)
Definition writePhase (msg : list (option part)) (res : option error)
    (evs : list event) : Prop :=
  acks evs = []
  ∧ ∃ k, (writes evs = replicate k (msg, Some ErrNotConnected) ++ [(msg, res)]
          ∧ res ≠ Some ErrNotConnected)
         ∨ (writes evs = replicate k (msg, Some ErrNotConnected)
            ∧ res = Some ErrTypeClosed).

(** A configuration, a transaction and sink scripts for the concrete runs. *)
Definition demoConfig : config :=
  mkConfig "websocket" 2 false (Some Branch.failFirst).
Definition demoTracer : part → span := λ p, data p.
Definition demoTransaction : transaction :=
  mkTransaction 7 (QuickBatch ["foo"; "bar"]).
Definition demoState (ws : list (option error)) (cs : list connectResp)
    (ps : list bool) : state :=
  mkState true ws cs ps [].

(** *** The reconnect protocol under interleaving

    The workers of one driver share the connected flag and the reconnect
    mutex.  A worker is followed through connectLoop statement by
    statement; the sink's answers are the premises of the steps. *)
Inductive pc : Type :=
| InWriterLoop                (* outside connectLoop *)
| AtStore                     (* atomic.StoreInt32(&w.isConnected, 0) is next *)
| AtLock                      (* connectMut.Lock() is next *)
| AtLoad                      (* holds the mutex; atomic.LoadInt32 is next *)
| AtRetry                     (* holds; the re-attempted write is next *)
| AtInit                      (* holds; initConnection() is next *)
| AtWrite                     (* holds; the write after a reconnect is next *)
| AtReturn (res : option error). (* holds; returns, the deferred Unlock is next *)

Record pool : Type := mkPool {
  flag       : bool;          (* w.isConnected *)
  connectMut : option nat;    (* the worker holding the mutex *)
  workers    : list pc
}.

(** The worker is between Lock and Unlock: it executes the reconnection
    sequence. *)
Definition reconnecting (p : pc) : bool :=
  match p with
  | InWriterLoop | AtStore | AtLock => false
  | _ => true
  end.

Definition move (i : nat) (p : pc) (s : pool) : pool :=
  mkPool (flag s) (connectMut s) (<[i := p]> (workers s)).

Inductive step (i : nat) : pool → pool → Prop :=
| step_enter s :                          (* a write returned ErrNotConnected *)
    workers s !! i = Some InWriterLoop →
    step i s (move i AtStore s)
| step_store s :
    workers s !! i = Some AtStore →
    step i s (mkPool false (connectMut s) (<[i := AtLock]> (workers s)))
| step_lock s :                           (* Lock returns once the mutex is free *)
    workers s !! i = Some AtLock →
    connectMut s = None →
    step i s (mkPool (flag s) (Some i) (<[i := AtLoad]> (workers s)))
| step_load_connected s :
    workers s !! i = Some AtLoad →
    flag s = true →
    step i s (move i AtRetry s)
| step_load_lost s :
    workers s !! i = Some AtLoad →
    flag s = false →
    step i s (move i AtInit s)
| step_retry_return s res :
    workers s !! i = Some AtRetry →
    res ≠ Some ErrNotConnected →
    step i s (move i (AtReturn res) s)
| step_retry_lost s :
    workers s !! i = Some AtRetry →
    step i s (move i AtInit s)
| step_init_connected s :                 (* initConnection() returned true *)
    workers s !! i = Some AtInit →
    step i s (move i AtWrite s)
| step_init_closed s :                    (* initConnection() returned false *)
    workers s !! i = Some AtInit →
    step i s (move i (AtReturn (Some ErrTypeClosed)) s)
| step_write_return s res :
    workers s !! i = Some AtWrite →
    res ≠ Some ErrNotConnected →
    step i s (mkPool true (connectMut s) (<[i := AtReturn res]> (workers s)))
| step_write_lost s :
    workers s !! i = Some AtWrite →
    step i s (move i AtInit s)
| step_unlock s res :
    workers s !! i = Some (AtReturn res) →
    step i s (mkPool (flag s) None (<[i := InWriterLoop]> (workers s))).

(** The pool when the workers are started: connected, mutex free. *)
Definition startPool (n : nat) : pool :=
  mkPool true None (replicate n InWriterLoop).

Inductive reachable (n : nat) : pool → Prop :=
| reach_start : reachable n (startPool n)
| reach_step s s' i : reachable n s → step i s s' → reachable n s'.

(** Two workers after both have lost the connection: the first holds the
    mutex, the second waits for it. *)
Definition demoPool : pool := mkPool false (Some 0) [AtLoad; AtLock].

(** The mutex is held by every worker inside the reconnection
    sequence. *)
Definition mutexInv (s : pool) : Prop :=
  ∀ i p, workers s !! i = Some p → reconnecting p = true → connectMut s = Some i.

(** What holds of worker [i] as long as no peer takes a step, once it has
    been in the writer loop: from its store of 0 to its write after the
    reconnection the flag reads 0, and it is never at the re-attempted
    write. *)
Definition aloneInv (i : nat) (s : pool) : Prop :=
  match workers s !! i with
  | Some (AtLock | AtLoad | AtInit | AtWrite) => flag s = false
  | Some AtRetry => False
  | _ => True
  end.

End AsyncWriter.

(** ** The auto-retry nack buffer *)
Module AutoRetry.

(** *** Sort-Group *)

(** Modelled from the spec: message.NewSortGroup is not among the sources.
    [tag(parts)] gives every part a token of a new group, here the pair of
    the group's number and the part's index; a copy keeps its tokens. *)
Definition NewSortGroup (g : nat) (b : batch) : batch :=
  imap (λ i p, mkPart (data p) (errslot p) ((g, i) :: tags p)) b.

Fixpoint lookupTag (g : nat) (ts : list (nat * nat)) : option nat :=
  match ts with
  | [] => None
  | (g', i) :: rest => if decide (g' = g) then Some i else lookupTag g rest
  end.

(** Modelled from the spec: SortGroup.GetIndex is not among the sources.
    The original index of a part in the group, or absence if the part
    bears no token of the group. *)
Definition GetIndex (g : nat) (p : part) : option nat := lookupTag g (tags p).

(** *** Batch-Error *)

(** Modelled from the spec: the batch package (batch.Error) is not among
    the sources.  An error that wraps a batch and carries a sparse mapping
    of part index to cause. *)
Record batchError : Type := mkBatchError {
  source   : batch;
  overall  : error;
  failedAt : gmap nat error
}.

Definition NewError (b : batch) (e : error) : batchError :=
  mkBatchError b e ∅.

(** Modelled from the spec: batch.Error.Failed is not among the sources.
    markFailed; indices are bounded by the batch length. *)
Definition Failed (i : nat) (e : error) (be : batchError) : batchError :=
  if decide (i < length (source be))
  then mkBatchError (source be) (overall be) (<[i := e]> (failedAt be))
  else be.

(** Modelled from the spec: the walk of batch.Error is not among the
    sources.  It visits the failed indices of the wrapped batch, in
    ascending order. *)
Definition failedIndices (be : batchError) : list nat :=
  filter (λ i, is_Some (failedAt be !! i)) (seq 0 (length (source be))).

(** Modelled from the spec: the terminating cause given to an ack callback,
    when it is not nil: a Batch-Error, or any other cause. *)
Inductive cause : Type :=
| Whole (e : error)
| Partial (be : batchError).

(** Modelled from the spec: nil is a positive ack, and so is a Batch-Error
    with an empty index set ("Empty index set: treat as success"). *)
Definition positive (c : option cause) : bool :=
  match c with
  | None => true
  | Some (Whole _) => false
  | Some (Partial be) => bool_decide (failedIndices be = [])
  end.

(** *** The buffer *)

(** Modelled from the spec: the implementation of the buffer
    (NewAsyncPreserver, AutoRetryNacks) is not among the sources; only its
    tests are.

    An entry is a copy of a read message with the upstream ack callback
    (seen through what it returns) and a sequence number.  [waiting] is
    the outcome record of the served copies: [Some g] while the copy
    tagged with group [g] has no outcome yet, [None] once the last served
    copy was nacked, which makes the entry eligible for re-serving.  A
    positive ack removes the entry. *)
Record entry : Type := mkEntry {
  seqno   : nat;
  msg     : batch;
  ackFn   : option error;
  waiting : option nat
}.

(** Modelled from the spec: the reader capability.  What a Read of the
    wrapped reader yields: an error, or a batch with what its ack callback
    will return. *)
Inductive readItem : Type :=
| ReadErr (e : error)
| ReadMsg (b : batch) (ackReturns : option error).

Record buffer : Type := mkBuffer {
  pending      : list entry;               (* in insertion order *)
  nextSeq      : nat;
  nextGroup    : nat;
  upstream     : list readItem;            (* what the wrapped reader will yield *)
  upstreamAcks : list (nat * option cause) (* upstream ack calls: entry, cause *)
}.

Definition NewBuffer (r : list readItem) : buffer := mkBuffer [] 0 0 r [].

(** Modelled from the spec: the ack callback returned with a served copy,
    which "consults the shared entry"; it names the entry and the copy. *)
Record handle : Type := mkHandle {
  hseq   : nat;
  hgroup : nat
}.

Inductive readResult : Type :=
| ReadBlocked                           (* the wrapped reader has nothing yet *)
| ReadFailed (e : error)
| ReadOk (b : batch) (ack : handle).

(** Modelled from the spec: step 1 of the Read algorithm.  The first entry
    of [pending] that awaits re-serving, marked as served again with group
    [g]. *)
Fixpoint serveNacked (g : nat) (pending : list entry)
    : option (entry * list entry) :=
  match pending with
  | [] => None
  | e :: rest =>
      match waiting e with
      | None => Some (e, mkEntry (seqno e) (msg e) (ackFn e) (Some g) :: rest)
      | Some _ =>
          match serveNacked g rest with
          | Some (e', rest') => Some (e', e :: rest')
          | None => None
          end
      end
  end.

(** Modelled from the spec: the Read of the buffer is not among the
    sources.  An entry awaiting re-serving is served before any new
    upstream read; otherwise the wrapped reader is read, a new entry is
    appended to [pending] and a copy is served; an error of the wrapped
    reader is returned as it is.  The tests (TestAsyncPreserverBuffer) show
    that an entry whose served copy has no outcome yet is not served
    again.  Delays and cancellation are not part of the model. *)
Definition Read (st : buffer) : readResult * buffer :=
  let g := nextGroup st in
  match serveNacked g (pending st) with
  | Some (e, pending') =>
      (ReadOk (NewSortGroup g (msg e)) (mkHandle (seqno e) g),
       mkBuffer pending' (nextSeq st) (S g) (upstream st) (upstreamAcks st))
  | None =>
      match upstream st with
      | [] => (ReadBlocked, st)
      | ReadErr e :: rest =>
          (ReadFailed e,
           mkBuffer (pending st) (nextSeq st) g rest (upstreamAcks st))
      | ReadMsg b ret :: rest =>
          let s := nextSeq st in
          (ReadOk (NewSortGroup g b) (mkHandle s g),
           mkBuffer (pending st ++ [mkEntry s b ret (Some g)]) (S s) (S g) rest
             (upstreamAcks st))
      end
  end.

(** Modelled from the spec: "only the failed indices are preserved for
    re-serving".  The parts of the retained copy [m] that a Batch-Error
    marks as failed: each failed part of the wrapped batch is traced back
    to its original index through the token of group [g]. *)
Definition failedParts (g : nat) (m : batch) (be : batchError) : option batch :=
  mapM (λ i, p ← source be !! i; j ← GetIndex g p; m !! j) (failedIndices be).

(** Modelled from the spec: the copy retained after a nack.  A Batch-Error
    with every index marked is a failure of the whole batch; when a failed
    part cannot be traced back, the whole batch is kept as well. *)
Definition retainedAfter (g : nat) (m : batch) (c : cause) : batch :=
  match c with
  | Whole _ => m
  | Partial be =>
      if decide (length (failedIndices be) = length (source be)) then m
      else default m (failedParts g m be)
  end.

Definition liveCopy (h : handle) (e : entry) : bool :=
  bool_decide (seqno e = hseq h ∧ waiting e = Some (hgroup h)).

(** Modelled from the spec: the ack callback of a served copy is not among
    the sources.  A positive ack invokes the upstream ack with nil, returns
    what it returns and removes the entry; a nack keeps the entry, collapsed
    to what failed, for the next Read and returns nil.  The outcome of a
    copy is recorded once: a call for an entry that is gone, or for a copy
    whose outcome is known, changes nothing and returns nil. *)
Definition Ack (h : handle) (c : option cause) (st : buffer)
    : option error * buffer :=
  match list_find (λ e, liveCopy h e = true) (pending st) with
  | None => (None, st)
  | Some (_, e) =>
      match (if positive c then None else c) with
      | None =>
          (ackFn e,
           mkBuffer (filter (λ e', seqno e' ≠ seqno e) (pending st))
             (nextSeq st) (nextGroup st) (upstream st)
             (upstreamAcks st ++ [(seqno e, None)]))
      | Some c' =>
          (None,
           mkBuffer
             ((λ e', if decide (seqno e' = seqno e)
                     then mkEntry (seqno e) (retainedAfter (hgroup h) (msg e) c')
                            (ackFn e) None
                     else e') <$> pending st)
             (nextSeq st) (nextGroup st) (upstream st) (upstreamAcks st))
      end
  end.

(** Calls made on the buffer, and their effect on it. *)
Inductive op : Type :=
| OpRead
| OpAck (h : handle) (c : option cause).

Definition apply (o : op) (st : buffer) : buffer :=
  match o with
  | OpRead => (Read st).2
  | OpAck h c => (Ack h c st).2
  end.

Definition run (ops : list op) (st : buffer) : buffer :=
  foldl (λ s o, apply o s) st ops.

(** The entries awaiting re-serving, in the order of [pending]. *)
Definition nacked (st : buffer) : list entry :=
  filter (λ e, waiting e = None) (pending st).

(** A part without the token of its last tagging. *)
Definition untag (p : part) : part := mkPart (data p) (errslot p) (tail (tags p)).

(** Invariant of the buffer. *)
Definition wf (st : buffer) : Prop :=
  StronglySorted lt (seqno <$> pending st)
  ∧ Forall (λ e, seqno e < nextSeq st) (pending st)
  ∧ Forall (λ a, a.1 < nextSeq st ∧ a.2 = None) (upstreamAcks st)
  ∧ NoDup ((upstreamAcks st).*1)
  ∧ (∀ a e, a ∈ upstreamAcks st → e ∈ pending st → a.1 ≠ seqno e).

(** The entry with sequence number [s] retains only parts of [r]. *)
Definition within (s : nat) (r : batch) (st : buffer) : Prop :=
  s < nextSeq st ∧ ∀ e', e' ∈ pending st → seqno e' = s → msg e' ⊆ r.

(** The copies served along a run, oldest first. *)
Fixpoint served (ops : list op) (st : buffer) : list handle :=
  match ops with
  | [] => []
  | OpRead :: ops' =>
      match (Read st).1 with
      | ReadOk _ h => [h]
      | _ => []
      end ++ served ops' (Read st).2
  | OpAck h c :: ops' => served ops' (Ack h c st).2
  end.

(** Some call of the copy's ack callback carried a positive cause. *)
Definition positivelyAcked (ops : list op) (h : handle) : Prop :=
  ∃ c, OpAck h c ∈ ops ∧ positive c = true.

Definition scenarioReader : list readItem :=
  [ReadMsg (QuickBatch ["msg 1"]) None; ReadMsg (QuickBatch ["msg 2"]) None;
   ReadMsg (QuickBatch ["msg 3"]) None].


(** A read, a nack, the re-serve and its positive ack. *)
Definition scenarioRetry : list op :=
  [OpRead; OpAck (mkHandle 0 0) (Some (Whole (ErrNew "failed")));
   OpRead; OpAck (mkHandle 0 1) None].

(** "Partial batch" and "Reorder-resilient partial batch". *)
Definition fiveParts : batch := QuickBatch ["foo"; "bar"; "baz"; "buz"; "bev"].

Definition fiveReader : list readItem :=
  [ReadMsg fiveParts (Some (ErrNew "ack propagated"))].

Definition servedFive : batch := NewSortGroup 0 fiveParts.

Definition orderedError : batchError :=
  Failed 3 (ErrNew "third")
    (Failed 1 (ErrNew "second") (NewError servedFive (ErrNew "first"))).

Definition resorting : list nat := [1; 3; 0; 4; 2].

Definition resorted : batch := omap (λ i, servedFive !! i) resorting.

Definition unorderedError : batchError :=
  Failed 2 (ErrNew "third")
    (Failed 1 (ErrNew "second") (NewError resorted (ErrNew "first"))).

(** Modelled from the spec: the entry whose served copy [h] has no outcome
    yet, as the ack callback of that copy finds it. *)
Definition copyOf (h : handle) (st : buffer) : option entry :=
  snd <$> list_find (λ e, liveCopy h e = true) (pending st).

(** What Read returns when it re-serves [e] as the copy of group [g]. *)
Definition reserve (g : nat) (e : entry) : readResult :=
  ReadOk (NewSortGroup g (msg e)) (mkHandle (seqno e) g).

(** [n] Reads in a row: what they return, and the buffer after them. *)
Fixpoint reads (n : nat) (st : buffer) : list readResult * buffer :=
  match n with
  | 0 => ([], st)
  | S n' =>
      let '(r, st1) := Read st in
      let '(rs, st2) := reads n' st1 in
      (r :: rs, st2)
  end.

(** The entries awaiting re-serving that were inserted before, and after,
    the entry numbered [s]. *)
Definition ahead (s : nat) (st : buffer) : list entry :=
  filter (λ e, seqno e < s) (nacked st).

Definition behind (s : nat) (st : buffer) : list entry :=
  filter (λ e, s < seqno e) (nacked st).

(** Two reads, the second of a batch of five parts, both nacked: the
    first as a whole, the second with a Batch-Error over the served batch
    that marks the indices 1 and 3. *)
Definition twoReader : list readItem :=
  [ReadMsg (QuickBatch ["msg 1"]) None; ReadMsg fiveParts None].

Definition laterFive : batch := NewSortGroup 1 fiveParts.

Definition laterError : batchError :=
  Failed 3 (ErrNew "third")
    (Failed 1 (ErrNew "second") (NewError laterFive (ErrNew "first"))).

Definition scenarioBothNacked : list op :=
  [OpRead; OpRead;
   OpAck (mkHandle 0 0) (Some (Whole (ErrNew "failed")));
   OpAck (mkHandle 1 1) (Some (Partial laterError))].

End AutoRetry.

(* ------------------------------------------------------------------ *)

(** ** Further collaborators for runs of the branch processor *)
Module BranchRuns.
Import Branch.

(** A child processor that is out of service: it hands the batch back
    with an error. *)
Definition failing : batch → list batch * option error :=
  λ b, ([b], Some (ErrNew "down")).

(** A child processor that returns its batch as it is. *)
Definition passThrough : batch → list batch * option error :=
  λ b, ([b], None).

(** A result mapping that appends the payload of the result to the
    payload of the original part. *)
Definition appendResult : part → nat → list (option part) → mapResult :=
  λ p i results,
    match results !! i with
    | Some (Some r) => MapOk (mkPart (data p ++ data r) (errslot p) (tags p))
    | _ => MapDeleted
    end.

(** A request mapping that deletes every part. *)
Definition deleteAll : part → nat → batch → mapResult :=
  λ _ _ _, MapDeleted.

End BranchRuns.

(** ** The life cycle of the async sink driver and its counters *)
Module AsyncWriterLifecycle.
Import AsyncWriter.

(** The counters incremented among some events, and how often one of them
    was. *)
Definition incrs (evs : list event) : list string :=
  omap (λ ev, match ev with EvIncr c => Some c | _ => None end) evs.

Definition count (counter : string) (evs : list event) : nat :=
  length (filter (λ c, c = counter) (incrs evs)).

(** The writes among some events that returned ErrNotConnected. *)
Definition lostWrites (evs : list event) : nat :=
  length (filter (λ wr, wr.2 = Some ErrNotConnected) (writes evs)).

(** Whether initConnection counts a failed connect in
    output_connection_failed: it does unless the driver is closing or the
    sink returned ErrTypeClosed. *)
Definition countedFailure (r : connectResp) : bool :=
  match cerr r with
  | Some e => negb (closing r || bool_decide (e = ErrTypeClosed))
  | None => false
  end.

Section lifecycle.

Variable w : config.
Variable tracer : part → span.

(** loop, for a driver with at most one worker (the websocket output is
    built with maxInflight 1): the initial connection, the worker, and the
    deferred function, of which the store of 0 to the connected flag is
    kept.  With more workers the writerLoop goroutines interleave: [None],
    not covered here. *)
Definition loop (chan : list chanEvent) (st : state) : option (outcome state) :=
  match initConnection st with
  | Blocked => Some Blocked
  | Done (st1, false) => Some (Done (storeConnected false st1))
  | Done (st1, true) =>
      let st2 := storeConnected true (emit [EvIncr "output_connection_up"] st1) in
      match maxInflight w with
      | 0 => Some (Done (storeConnected false st2))
      | 1 =>
          match writerLoop w tracer chan st2 with
          | Blocked => Some Blocked
          | Done st3 => Some (Done (storeConnected false st3))
          end
      | _ => None
      end
  end.

End lifecycle.

(** The AsyncWriter as its callers see it: the transactions channel, nil
    until Consume has been called, and the state shared with loop. *)
Record asyncWriter : Type := mkAsyncWriter {
  transactions : option (list chanEvent);
  shared       : state
}.

(** NewAsyncWriter *)
Definition NewAsyncWriter (sinkWrites : list (option error))
    (sinkConnects : list connectResp) : asyncWriter :=
  mkAsyncWriter None (mkState false sinkWrites sinkConnects [] []).

(** Consume: the second component tells whether [go w.loop()] was
    started. *)
Definition Consume (ts : list chanEvent) (a : asyncWriter)
    : asyncWriter * bool * option error :=
  match transactions a with
  | Some _ => (a, false, Some ErrAlreadyStarted)
  | None => (mkAsyncWriter (Some ts) (shared a), true, None)
  end.

(** Connected *)
Definition Connected (a : asyncWriter) : bool := isConnected (shared a).

(** A second transaction and a configuration with a single worker for the
    concrete runs. *)
Definition demoTransaction2 : transaction :=
  mkTransaction 8 (QuickBatch ["baz"]).

Definition singleConfig : config := mkConfig "websocket" 1 false None.

End AsyncWriterLifecycle.

(** ** TLS configuration (package tls, imported as btls) *)
Module BTLS.

(** crypto/tls: the fields of tls.Config that Get sets. *)
Module tls.

Record Certificate : Type := mkCertificate {
  certPEM : string;
  keyPEM  : string
}.

Record Config : Type := mkConfig {
  MinVersion         : nat;
  RootCAs            : option (list string);  (* the pool: the PEM data appended to it *)
  Certificates       : list Certificate;
  Renegotiation      : bool;                  (* RenegotiateFreelyAsClient *)
  InsecureSkipVerify : bool
}.

Definition VersionTLS12 : nat := 771.

End tls.

Record ClientCertConfig : Type := mkClientCertConfig {
  CertFile : string;
  KeyFile  : string;
  Cert     : string;
  Key      : string;
  Password : string
}.

Record Config : Type := mkConfig {
  Enabled             : bool;
  RootCAs             : string;
  RootCAsFile         : string;
  InsecureSkipVerify  : bool;
  ClientCertificates  : list ClientCertConfig;
  EnableRenegotiation : bool
}.

Definition NewConfig : Config := mkConfig false "" "" false [] false.

(** The closure initConf of Get: allocates the configuration on first
    use. *)
Definition initConf (tlsConf : option tls.Config) : tls.Config :=
  match tlsConf with
  | Some t => t
  | None => tls.mkConfig tls.VersionTLS12 None [] false false
  end.

(** The file system and the standard library: os.ReadFile, pem.Decode,
    x509.IsEncryptedPEMBlock, x509.DecryptPEMBlock (an error is [None]),
    pem.EncodeToMemory of a block with the type of the first argument and
    the bytes of the second, tls.X509KeyPair. *)
Record library : Type := mkLibrary {
  block               : Type;
  ReadFile            : string → error + string;
  pemDecode           : string → block;
  IsEncryptedPEMBlock : block → bool;
  DecryptPEMBlock     : block → string → option string;
  EncodeToMemory      : block → string → string;
  X509KeyPair         : string → string → error + tls.Certificate
}.

Section files.

Variable lib : library.

Definition decryptKey (key : block lib) (password : string) : error + string :=
  match DecryptPEMBlock lib key password with
  | None => inl (ErrNew "wrong password provided for key")
  | Some decryptedKey => inr (EncodeToMemory lib key decryptedKey)
  end.

Definition loadKeyPair (cert key password : string) : error + tls.Certificate :=
  let keyPem := pemDecode lib key in
  if IsEncryptedPEMBlock lib keyPem then
    if decide (password = "")
    then inl (ErrNew "missing password for encrypted private key")
    else
      match decryptKey keyPem password with
      | inl e => inl e
      | inr decryptedKey => X509KeyPair lib cert decryptedKey
      end
  else X509KeyPair lib cert key.

Definition Load (c : ClientCertConfig) : error + tls.Certificate :=
  if decide (CertFile c ≠ "" ∨ KeyFile c ≠ "") then
    if decide (CertFile c = "")
    then inl (ErrNew "missing cert_file field in client certificate config")
    else if decide (KeyFile c = "")
    then inl (ErrNew "missing key_file field in client certificate config")
    else
      match ReadFile lib (CertFile c) with
      | inl e => inl e
      | inr cert =>
          match ReadFile lib (KeyFile c) with
          | inl e => inl e
          | inr key => loadKeyPair cert key (Password c)
          end
      end
  else if decide (Cert c = "")
  then inl (ErrNew "missing cert field in client certificate config")
  else if decide (Key c = "")
  then inl (ErrNew "missing key field in client certificate config")
  else loadKeyPair (Cert c) (Key c) (Password c).

(** [for _, conf := range c.ClientCertificates] *)
Fixpoint loadCertificates (confs : list ClientCertConfig)
    (tlsConf : option tls.Config) : error + option tls.Config :=
  match confs with
  | [] => inr tlsConf
  | conf :: rest =>
      match Load conf with
      | inl e => inl e
      | inr cert =>
          let t := initConf tlsConf in
          loadCertificates rest
            (Some (tls.mkConfig (tls.MinVersion t) (tls.RootCAs t)
                     (tls.Certificates t ++ [cert]) (tls.Renegotiation t)
                     (tls.InsecureSkipVerify t)))
      end
  end.

(** Get: a nil configuration is [inr None]. *)
Definition Get (c : Config) : error + option tls.Config :=
  if (0 <? String.length (RootCAs c)) && (0 <? String.length (RootCAsFile c))
  then inl (ErrNew "only one field between root_cas and root_cas_file can be specified")
  else
    let fromFile :=
      if 0 <? String.length (RootCAsFile c) then
        match ReadFile lib (RootCAsFile c) with
        | inl e => inl e
        | inr caCert =>
            let t := initConf None in
            inr (Some (tls.mkConfig (tls.MinVersion t) (Some [caCert])
                         (tls.Certificates t) (tls.Renegotiation t)
                         (tls.InsecureSkipVerify t)))
        end
      else inr None in
    match fromFile with
    | inl e => inl e
    | inr t1 =>
        let t2 :=
          if 0 <? String.length (RootCAs c) then
            let t := initConf t1 in
            Some (tls.mkConfig (tls.MinVersion t) (Some [RootCAs c])
                    (tls.Certificates t) (tls.Renegotiation t)
                    (tls.InsecureSkipVerify t))
          else t1 in
        match loadCertificates (ClientCertificates c) t2 with
        | inl e => inl e
        | inr t3 =>
            let t4 :=
              if EnableRenegotiation c then
                let t := initConf t3 in
                Some (tls.mkConfig (tls.MinVersion t) (tls.RootCAs t)
                        (tls.Certificates t) true (tls.InsecureSkipVerify t))
              else t3 in
            let t5 :=
              if InsecureSkipVerify c then
                let t := initConf t4 in
                Some (tls.mkConfig (tls.MinVersion t) (tls.RootCAs t)
                        (tls.Certificates t) (tls.Renegotiation t) true)
              else t4 in
            inr t5
        end
    end.

End files.

(** A file system with one certificate and one key, and a key pair check
    that accepts everything, for the concrete runs. *)
Definition demoReadFile : string → error + string :=
  λ path, if decide (path = "ca.pem") then inr "CA"
          else if decide (path = "cert.pem") then inr "CERT"
          else if decide (path = "key.pem") then inr "KEY"
          else inl (ErrNew "no such file").

Definition demoKeyPair : string → string → error + tls.Certificate :=
  λ cert key, inr (tls.mkCertificate cert key).

Definition demoLibrary : library :=
  mkLibrary string demoReadFile (λ key, key) (λ _, false) (λ _ _, None)
    (λ _ bytes, bytes) demoKeyPair.

Definition demoTLS : Config :=
  mkConfig true "" "ca.pem" true
    [mkClientCertConfig "cert.pem" "key.pem" "" "" "";
     mkClientCertConfig "" "" "INLINE-CERT" "INLINE-KEY" ""]
    false.

End BTLS.

(** ** The websocket output (internal/impl/io/output_websocket.go) *)
Module Websocket.
Import AsyncWriter.

(** websocket.ErrCloseSent, a sentinel of the websocket library. *)
Definition ErrCloseSent : error := ErrNew "websocket: close sent".

(** The fields of output.WebsocketConfig that the writer reads. *)
Record WebsocketConfig : Type := mkWebsocketConfig {
  URL : string;
  TLS : BTLS.Config
}.

(** A connection is named by the number of the dial that opened it. *)
Definition conn : Type := nat.

(** What a connection was dialled with: websocket.DefaultDialer, or a
    Dialer with a TLS client configuration. *)
Inductive dialer : Type :=
| DefaultDialer
| TLSDialer (TLSClientConfig : option BTLS.tls.Config).

(** The network as the writer meets it: the answers the server side will
    give to the next dials and to the next WriteMessage calls, and what
    has been dialled, sent and closed so far. *)
Record network : Type := mkNetwork {
  dialAnswers  : list (option error);
  writeAnswers : list (option error);
  dialled      : list dialer;
  sent         : list (conn * string);
  closed       : list conn
}.

Record websocketWriter : Type := mkWebsocketWriter {
  conf    : WebsocketConfig;
  client  : option conn;
  tlsConf : option BTLS.tls.Config
}.

(** Dialer.Dial *)
Definition Dial (d : dialer) (net : network) : outcome (network * (error + conn)) :=
  match dialAnswers net with
  | [] => Blocked
  | ans :: rest =>
      let net' := mkNetwork rest (writeAnswers net) (dialled net ++ [d]) (sent net)
                    (closed net) in
      match ans with
      | Some e => Done (net', inl e)
      | None => Done (net', inr (length (dialled net)))
      end
  end.

(** Conn.WriteMessage(websocket.BinaryMessage, bytes) *)
Definition WriteMessage (c : conn) (bytes : string) (net : network)
    : outcome (network * option error) :=
  match writeAnswers net with
  | [] => Blocked
  | ans :: rest =>
      match ans with
      | Some e =>
          Done (mkNetwork (dialAnswers net) rest (dialled net) (sent net) (closed net),
                Some e)
      | None =>
          Done (mkNetwork (dialAnswers net) rest (dialled net) (sent net ++ [(c, bytes)])
                  (closed net), None)
      end
  end.

(** [msg.Iter] with the closure of WriteWithContext: the parts are
    written in order, and the iteration ends at the first error. *)
Fixpoint writeParts (c : conn) (msg : batch) (net : network)
    : outcome (network * option error) :=
  match msg with
  | [] => Done (net, None)
  | p :: rest =>
      match WriteMessage c (data p) net with
      | Blocked => Blocked
      | Done (net', Some e) => Done (net', Some e)
      | Done (net', None) => writeParts c rest net'
      end
  end.

(** The goroutine that ConnectWithContext starts on a new connection: it
    reads ([c.NextReader()]) until a read returns an error, then closes the
    connection and ends.  [reads] are the results of the reads to come;
    when they are used up the goroutine waits in NextReader. *)
Fixpoint readLoop (c : conn) (reads : list (option error)) (net : network)
    : outcome network :=
  match reads with
  | [] => Blocked
  | None :: rest => readLoop c rest net
  | Some _ :: _ =>
      Done (mkNetwork (dialAnswers net) (writeAnswers net) (dialled net) (sent net)
              (closed net ++ [c]))
  end.

Section writer.

(** BTLS's library, url.Parse (only its error matters) and the signing of
    the request by the auth configuration. *)
Variable lib : BTLS.library.
Variable urlParse : string → option error.
Variable Sign : string → option error.

Definition newWebsocketWriter (conf : WebsocketConfig) : error + websocketWriter :=
  if BTLS.Enabled (TLS conf) then
    match BTLS.Get lib (TLS conf) with
    | inl e => inl e
    | inr t => inr (mkWebsocketWriter conf None t)
    end
  else inr (mkWebsocketWriter conf None None).

(** ConnectWithContext returns, with the writer, the network and the
    error, the connection on which it has started the reading goroutine
    ([go func(c *websocket.Conn)], run by [readLoop]), if it started
    one. *)
Definition ConnectWithContext (w : websocketWriter) (net : network)
    : outcome (websocketWriter * network * option conn * option error) :=
  match client w with
  | Some _ => Done (w, net, None, None)
  | None =>
      match urlParse (URL (conf w)) with
      | Some e => Done (w, net, None, Some e)
      | None =>
          match Sign (URL (conf w)) with
          | Some e => Done (w, net, None, Some e)
          | None =>
              let d := if BTLS.Enabled (TLS (conf w))
                       then TLSDialer (tlsConf w) else DefaultDialer in
              match Dial d net with
              | Blocked => Blocked
              | Done (net', inl e) => Done (w, net', None, Some e)
              | Done (net', inr c) =>
                  Done (mkWebsocketWriter (conf w) (Some c) (tlsConf w), net',
                        Some c, None)
              end
          end
      end
  end.

Definition WriteWithContext (msg : batch) (w : websocketWriter) (net : network)
    : outcome (websocketWriter * network * option error) :=
  match client w with
  | None => Done (w, net, Some ErrNotConnected)
  | Some c =>
      match writeParts c msg net with
      | Blocked => Blocked
      | Done (net', Some e) =>
          Done (mkWebsocketWriter (conf w) None (tlsConf w), net',
                Some (if decide (e = ErrCloseSent) then ErrNotConnected else e))
      | Done (net', None) => Done (w, net', None)
      end
  end.

(** CloseAsync: the body of the goroutine it starts. *)
Definition CloseAsync (w : websocketWriter) (net : network)
    : websocketWriter * network :=
  match client w with
  | Some c =>
      (mkWebsocketWriter (conf w) None (tlsConf w),
       mkNetwork (dialAnswers net) (writeAnswers net) (dialled net) (sent net)
         (closed net ++ [c]))
  | None => (w, net)
  end.

Definition WaitForClose (w : websocketWriter) : option error := None.

End writer.

(** A writer connected over connection 0 and a network that accepts one
    message and then reports the close, for the concrete runs. *)
Definition demoWriter : websocketWriter :=
  mkWebsocketWriter (mkWebsocketConfig "ws://localhost" BTLS.NewConfig) (Some 0) None.

Definition demoNetwork : network :=
  mkNetwork [None] [None; Some ErrCloseSent; None] [DefaultDialer] [] [].

End Websocket.

(** ** Tracing (package tracing) and the span-extracting reader
       (internal/component/input/span/reader.go) *)
Module Tracing.

(** The tracer provider and the global propagator, as far as the package
    uses them.  A context is what a part carries with it; the span of a
    context is [trace.SpanFromContext].
    - [Start ctx op] is the context returned by
      [prov.Tracer(name).Start(ctx, op)], which carries the new span;
    - [IsRecording ctx] is [trace.SpanFromContext(ctx).IsRecording()];
    - [Extract c] is [otel.GetTextMapPropagator().Extract] from the
      background context and the carrier [c]. *)
Record provider : Type := mkProvider {
  context     : Type;
  Background  : context;
  Start       : context → string → context;
  IsRecording : context → bool;
  Extract     : gmap string string → context
}.

Section tracing.

Variable prov : provider.

(** A part together with the context attached to it
    (message.GetContext, message.WithContext). *)
Record tpart : Type := mkTpart {
  body : part;
  pctx : context prov
}.

Definition WithContext (ctx : context prov) (p : tpart) : tpart :=
  mkTpart (body p) ctx.

(** A Span wraps a context and the span found in it. *)
Definition Span : Type := context prov.

Definition GetSpan (p : tpart) : option Span :=
  if IsRecording prov (pctx p) then Some (pctx p) else None.

Definition CreateChildSpan (operationName : string) (p : tpart) : Span :=
  match GetSpan p with
  | None => Start prov (Background prov) operationName
  | Some span => Start prov span operationName
  end.

Definition CreateChildSpans (operationName : string) (msg : list tpart) : list Span :=
  CreateChildSpan operationName <$> msg.

Fixpoint PartsWithChildSpans (operationName : string) (parts : list (option tpart))
    : list (option tpart) * list Span :=
  match parts with
  | [] => ([], [])
  | None :: rest =>
      let '(newParts, spans) := PartsWithChildSpans operationName rest in
      (None :: newParts, spans)
  | Some p :: rest =>
      let '(newParts, spans) := PartsWithChildSpans operationName rest in
      let otSpan := CreateChildSpan operationName p in
      (Some (WithContext otSpan p) :: newParts, otSpan :: spans)
  end.

(** WithChildSpans: a nil entry of [newParts] would stay nil in the new
    batch; there is none, the parts of a batch being non-nil
    (lemma [PartsWithChildSpans_Some]). *)
Definition WithChildSpans (operationName : string) (msg : list tpart)
    : list tpart * list Span :=
  let '(newParts, spans) := PartsWithChildSpans operationName (Some <$> msg) in
  (omap id newParts, spans).

Definition InitSpan (operationName : string) (p : tpart) : tpart :=
  match GetSpan p with
  | Some _ => p
  | None => WithContext (Start prov (Background prov) operationName) p
  end.

Definition InitSpans (operationName : string) (msg : list tpart) : list tpart :=
  InitSpan operationName <$> msg.




End tracing.

Arguments body {prov} t.
Arguments pctx {prov} t.
Arguments mkTpart {prov} body pctx.

(** The loop of Span.LogKV, [for i := 0; i < len(kv)-1; i += 2]: on
    integers [i < len(kv)-1] is [i+1 < len(kv)].  Each iteration adds 2
    to [i], so [length kv] iterations are enough. *)
Fixpoint logKVLoop (fuel i : nat) (kv : list string) (attrs : list (string * string))
    : list (string * string) :=
  match fuel with
  | 0 => attrs
  | S fuel' =>
      if decide (i + 1 < length kv) then
        match kv !! i, kv !! (i + 1) with
        | Some k, Some v => logKVLoop fuel' (i + 2) kv (attrs ++ [(k, v)])
        | _, _ => attrs
        end
      else attrs
  end.

(** LogKV: the event added to the span, with its attributes. *)
Definition LogKV (name : string) (kv : list string)
    : string * list (string * string) :=
  (name, logKVLoop (length kv) 0 kv []).

(** A provider whose contexts are the operation names of the spans
    started, innermost first, and which records every span it starts. *)
Definition demoProvider : provider :=
  mkProvider (list string) [] (λ ctx op, op :: ctx)
    (λ ctx, bool_decide (ctx ≠ [])) (λ c, default [] ((λ s, [s]) <$> c !! "traceparent")).

(** Two parts, the second of which already carries a span. *)
Definition demoParts : list (tpart demoProvider) :=
  [@mkTpart demoProvider (NewPart "a") []; @mkTpart demoProvider (NewPart "b") ["up"]].

End Tracing.

Module SpanReader.
Import Tracing.


Section reader.

Variable prov : provider.



End reader.

End SpanReader.

(** * Properties *)
(* ------------------------------------------------------------------ *)

Module BranchFacts.
Import Branch.

Lemma skipLoop_spec sof i : ∀ fuel s,
  length sof ≤ fuel + s →
  let s' := skipLoop fuel sof i s in
  s ≤ s' ∧ (s ≤ length sof → s' ≤ length sof) ∧
  (∀ k, s ≤ k < s' → sof !! k = Some (i + k)) ∧
  (∀ x, sof !! s' = Some x → x ≠ i + s').
Proof.
  induction fuel as [|fuel IH]; intros s Hfuel; simpl.
  - repeat split; [lia | lia | intros k Hk; lia |].
    intros x Hx. apply lookup_lt_Some in Hx. lia.
  - destruct (sof !! s) as [x|] eqn:Hs.
    + destruct (decide (x = i + s)) as [->|Hne].
      * specialize (IH (S s) ltac:(lia)). simpl in IH.
        destruct IH as (H1 & H2 & H3 & H4).
        apply lookup_lt_Some in Hs as Hlt.
        repeat split; [lia | intros _; apply H2; lia | | exact H4].
        intros k Hk. destruct (decide (k = s)) as [->|]; [exact Hs|].
        apply H3. lia.
      * repeat split; [lia | lia | intros k Hk; lia |].
        intros y Hy. congruence.
    + repeat split; [lia | lia | intros k Hk; lia |]. intros y Hy. congruence.
Qed.

Lemma sorted_gap (l : list nat) :
  StronglySorted le l → NoDup l →
  ∀ j k a b, l !! j = Some a → l !! k = Some b → j ≤ k → a + (k - j) ≤ b.
Proof.
  induction 1 as [|x l Hs IH Hall]; intros Hnd j k a b Hj Hk Hjk.
  - rewrite lookup_nil in Hj. discriminate.
  - apply NoDup_cons in Hnd as [Hx Hnd].
    destruct j as [|j], k as [|k]; simpl in *; simplify_eq; try lia.
    + rewrite Forall_forall in Hall.
      destruct k as [|k].
      * assert (b ∈ l) by (eapply list_elem_of_lookup_2; eauto).
        pose proof (Hall b H). assert (a ≠ b) by (intros ->; done). lia.
      * destruct (l !! 0) as [c|] eqn:Hc.
        -- pose proof (IH Hnd 0 (S k) c b Hc Hk ltac:(lia)).
           assert (c ∈ l) by (eapply list_elem_of_lookup_2; eauto).
           pose proof (Hall c H0). assert (a ≠ c) by (intros ->; done). lia.
        -- apply lookup_ge_None in Hc. apply lookup_lt_Some in Hk. lia.
    + pose proof (IH Hnd j k a b Hj Hk ltac:(lia)). lia.
Qed.

Lemma omap_replicate_None {A} n : omap id (replicate n (@None A)) = [].
Proof. induction n; simpl; auto. Qed.

Lemma alignLoop_spec sof :
  StronglySorted le sof → NoDup sof →
  ∀ rest i s done m,
    length done = i + s → s ≤ length sof →
    (∀ k x, sof !! k = Some x → s ≤ k → i + k ≤ x) →
    (∀ x, x ∈ sof → x < i + s + m) →
    m = length rest + (length sof - s) →
    ∃ R', alignLoop rest i s sof (done ++ replicate m None) = Some (done ++ R')
        ∧ length R' = m ∧ omap id R' = rest
        ∧ (∀ k x, sof !! k = Some x → s ≤ k → (done ++ R') !! x = Some None).
Proof.
  intros Hsorted Hnd.
  induction rest as [|p rest IH]; intros i s done m Hlen Hs Habove Hbound Hm; simpl.
  - exists (replicate m None). split; [done|].
    split; [by rewrite length_replicate|]. split; [apply omap_replicate_None|].
    intros k x Hk Hsk. pose proof (Habove k x Hk Hsk).
    assert (x < i + s + m) by (apply Hbound; eapply list_elem_of_lookup_2; eauto).
    rewrite lookup_app_r by lia. apply lookup_replicate_2. lia.
  - pose proof (skipLoop_spec sof i (length sof) s ltac:(lia)) as Hskip.
    simpl in Hskip. set (s' := skipLoop (length sof) sof i s) in *.
    destruct Hskip as (Hge & Hle & Hmid & Hexit). specialize (Hle Hs).
    rewrite length_app, length_replicate.
    destruct (decide (i + s' < length done + m)) as [_|Hno]; [|simpl in Hm; lia].
    assert (Hsplit : <[i + s' := Some p]> (done ++ replicate m None)
              = (done ++ replicate (s' - s) None ++ [Some p])
                  ++ replicate (length rest + (length sof - s')) None).
    { rewrite insert_app_r_alt by lia.
      replace (i + s' - length done) with (s' - s) by lia.
      rewrite <- !app_assoc. f_equal.
      replace m with ((s' - s) + S (length rest + (length sof - s')))
        by (simpl in Hm; lia).
      rewrite replicate_add. rewrite insert_app_r_alt by (rewrite length_replicate; lia).
      rewrite length_replicate. replace (s' - s - (s' - s)) with 0 by lia.
      simpl. reflexivity. }
    rewrite Hsplit.
    destruct (IH (S i) s' (done ++ replicate (s' - s) None ++ [Some p])
                (length rest + (length sof - s'))) as (R'' & Hrun & HlenR & Homap & Hnil).
    + rewrite !length_app, length_replicate. simpl. lia.
    + exact Hle.
    + intros k x Hk Hsk.
      destruct (sof !! s') as [y|] eqn:Hy.
      * pose proof (Hexit y eq_refl) as Hney.
        pose proof (Habove s' y Hy Hge).
        pose proof (sorted_gap sof Hsorted Hnd s' k y x Hy Hk Hsk). lia.
      * apply lookup_ge_None in Hy. apply lookup_lt_Some in Hk. lia.
    + intros x Hx. specialize (Hbound x Hx). simpl in Hm. lia.
    + reflexivity.
    + exists (replicate (s' - s) None ++ [Some p] ++ R'').
      rewrite <- !app_assoc in Hnil.
      split; [rewrite Hrun; by rewrite <- !app_assoc|].
      split; [rewrite !length_app, length_replicate; simpl in *; lia|].
      split.
      { rewrite omap_app, omap_replicate_None. simpl. f_equal. exact Homap. }
      intros k x Hk Hsk.
      destruct (decide (k < s')) as [Hlt|Hnlt].
      * rewrite (Hmid k ltac:(lia)) in Hk. simplify_eq.
        rewrite lookup_app_r by lia.
        rewrite lookup_app_l by (rewrite length_replicate; lia).
        apply lookup_replicate_2. lia.
      * apply (Hnil k x Hk). lia.
Qed.

Lemma omap_fmap_Some {A} (l : list A) : omap id (Some <$> l) = l.
Proof. induction l as [|p l IH]; simpl; [done|]. f_equal. exact IH. Qed.

Lemma sortInts_perm l : sortInts l ≡ₚ l.
Proof. apply merge_sort_Permutation. Qed.

Lemma sortInts_sorted l : StronglySorted le (sortInts l).
Proof. apply StronglySorted_merge_sort; apply _. Qed.

Lemma alignBranchResult_mismatch n skipped failed result :
  length (concat result) + (length skipped + length failed) ≠ n →
  alignBranchResult n skipped failed result
  = AlignErr (ErrAlign (length (concat result) + (length skipped + length failed)) n).
Proof.
  intros Hne. unfold alignBranchResult.
  assert (Hl : length (sortInts (skipped ++ failed)) = length skipped + length failed).
  { rewrite (Permutation_length (sortInts_perm _)). apply length_app. }
  rewrite Hl. destruct (decide _) as [_|Heq]; [done|]. exfalso. apply Heq, Hne.
Qed.

Lemma alignBranchResult_aligned n skipped failed result :
  NoDup (skipped ++ failed) →
  (∀ x, x ∈ skipped ++ failed → x < n) →
  length (concat result) + (length skipped + length failed) = n →
  ∃ aligned,
    alignBranchResult n skipped failed result = AlignOk aligned
    ∧ length aligned = n
    ∧ omap id aligned = concat result
    ∧ (∀ x, x ∈ skipped ++ failed → aligned !! x = Some None).
Proof.
  intros Hnd Hbound Hlen. unfold alignBranchResult.
  pose proof (sortInts_perm (skipped ++ failed)) as Hperm.
  assert (Hl : length (sortInts (skipped ++ failed)) = length skipped + length failed).
  { rewrite (Permutation_length Hperm). apply length_app. }
  rewrite Hl. destruct (decide _) as [Hne|_]; [lia|].
  destruct (decide (length skipped + length failed = 0)) as [Hz|Hnz].
  - exists (Some <$> concat result). split; [done|].
    split; [rewrite length_fmap; lia|].
    split.
    { apply omap_fmap_Some. }
    intros x Hx. destruct skipped, failed; simpl in *; try lia.
    by apply elem_of_nil in Hx.
  - destruct (alignLoop_spec (sortInts (skipped ++ failed))
                (sortInts_sorted _) ltac:(by rewrite Hperm)
                (concat result) 0 0 [] n) as (R & Hrun & HlenR & Homap & Hnil).
    + done.
    + lia.
    + intros k x Hk _.
      destruct (sortInts (skipped ++ failed) !! 0) as [y|] eqn:Hy.
      * pose proof (sorted_gap _ (sortInts_sorted _) ltac:(by rewrite Hperm)
                      0 k y x Hy Hk ltac:(lia)). lia.
      * apply lookup_ge_None in Hy. apply lookup_lt_Some in Hk. lia.
    + intros x Hx. simpl. apply Hbound. by rewrite <- Hperm.
    + rewrite Hl. lia.
    + simpl in *. rewrite Hrun. exists R. split; [done|]. split; [done|].
      split; [done|]. intros x Hx. rewrite <- Hperm in Hx.
      apply list_elem_of_lookup in Hx as [k Hk]. by apply (Hnil k x Hk); lia.
Qed.

Lemma reqInv_skip i acc :
  reqInv i acc →
  reqInv (S i) (mkRequests (newParts acc) (skipped acc ++ [i]) (failed acc) (mapErrs acc)).
Proof.
  intros (Hidx & Hlt & Hnd). repeat split; simpl; [done| |].
  - intros x Hx. rewrite !elem_of_app in Hx. rewrite list_elem_of_singleton in Hx.
    destruct Hx as [[Hx| ->]|Hx]; [|lia|];
      (assert (x < i) by (apply Hlt; rewrite elem_of_app; auto); lia).
  - assert (Hp : (skipped acc ++ [i]) ++ failed acc ≡ₚ i :: (skipped acc ++ failed acc)).
    { rewrite <- app_assoc. simpl. by rewrite <- Permutation_middle. }
    rewrite Hp. apply NoDup_cons. split; [|done].
    intros Hin. apply Hlt in Hin. lia.
Qed.

Lemma reqInv_fail i acc e :
  reqInv i acc →
  reqInv (S i) (mkRequests (newParts acc) (skipped acc) (failed acc ++ [i])
                  (mapErrs acc ++ [newBranchMapError i e])).
Proof.
  intros (Hidx & Hlt & Hnd). repeat split; simpl.
  - rewrite fmap_app. simpl. by rewrite Hidx.
  - intros x Hx. rewrite !elem_of_app in Hx. rewrite list_elem_of_singleton in Hx.
    destruct Hx as [Hx|[Hx| ->]]; [| |lia];
      (assert (x < i) by (apply Hlt; rewrite elem_of_app; auto); lia).
  - rewrite app_assoc. rewrite <- Permutation_cons_append.
    apply NoDup_cons. split; [|done].
    intros Hin. apply Hlt in Hin. lia.
Qed.

Lemma reqInv_keep i acc np :
  reqInv i acc →
  reqInv (S i) (mkRequests np (skipped acc) (failed acc) (mapErrs acc)).
Proof.
  intros (Hidx & Hlt & Hnd). repeat split; simpl; [done| |done].
  intros x Hx. apply Hlt in Hx. lia.
Qed.

Lemma requestLoop_spec rm ref : ∀ parts i acc,
  reqInv i acc →
  let rq := requestLoop rm i parts ref acc in
  reqInv (i + length parts) rq
  ∧ length (newParts rq) + (length (skipped rq) + length (failed rq))
    = length (newParts acc) + (length (skipped acc) + length (failed acc)) + length parts
  ∧ (∀ e, e ∈ mapErrs rq →
       e ∈ mapErrs acc
       ∨ ∃ j p, parts !! j = Some p ∧ index e = i + j
                ∧ requestFailure rm (i + j) p ref = Some (err e))
  ∧ (∀ j p er, parts !! j = Some p → requestFailure rm (i + j) p ref = Some er →
       newBranchMapError (i + j) er ∈ mapErrs rq)
  ∧ (∀ e, e ∈ mapErrs acc → e ∈ mapErrs rq).
Proof.
  induction parts as [|p parts IH]; intros i acc Hinv; simpl.
  - rewrite Nat.add_0_r. split; [done|]. split; [lia|]. split; [auto|].
    split; [|auto]. intros j p er Hj. rewrite lookup_nil in Hj. discriminate.
  - set (acc' := match p with
                 | None => mkRequests (newParts acc) (skipped acc ++ [i]) (failed acc) (mapErrs acc)
                 | Some q =>
                     match rm with
                     | Some f =>
                         match f (SetNil q) i ref with
                         | MapFail e =>
                             mkRequests (newParts acc) (skipped acc) (failed acc ++ [i])
                               (mapErrs acc ++ [newBranchMapError i (ErrWrap "request mapping failed" e)])
                         | MapDeleted =>
                             mkRequests (newParts acc) (skipped acc ++ [i]) (failed acc) (mapErrs acc)
                         | MapOk newPart =>
                             mkRequests (newParts acc ++ [newPart]) (skipped acc) (failed acc) (mapErrs acc)
                         end
                     | None => mkRequests (newParts acc ++ [q]) (skipped acc) (failed acc) (mapErrs acc)
                     end
                 end).
    assert (Hstep : requestLoop rm i (p :: parts) ref acc = requestLoop rm (S i) parts ref acc').
    { destruct p; reflexivity. }
    simpl in Hstep. rewrite Hstep. clear Hstep.
    assert (Hacc' : reqInv (S i) acc'
              ∧ length (newParts acc') + (length (skipped acc') + length (failed acc'))
                = S (length (newParts acc) + (length (skipped acc) + length (failed acc)))
              ∧ (∀ e, e ∈ mapErrs acc' →
                   e ∈ mapErrs acc ∨ (index e = i ∧ requestFailure rm i p ref = Some (err e)))
              ∧ (∀ er, requestFailure rm i p ref = Some er →
                   newBranchMapError i er ∈ mapErrs acc')
              ∧ (∀ e, e ∈ mapErrs acc → e ∈ mapErrs acc')).
    { subst acc'. unfold requestFailure.
      destruct p as [q|]; [destruct rm as [f|]; [destruct (f (SetNil q) i ref) as [e| |np]|]|].
      - split; [by apply reqInv_fail|]. simpl. rewrite !length_app. simpl.
        split; [lia|]. split; [|split].
        + intros e' He'. rewrite elem_of_app, list_elem_of_singleton in He'.
          destruct He' as [?| ->]; auto.
        + intros er [= <-]. rewrite elem_of_app, list_elem_of_singleton. auto.
        + intros e' He'. rewrite elem_of_app. auto.
      - split; [by apply reqInv_skip|]. simpl. rewrite !length_app. simpl.
        split; [lia|]. repeat split; auto. intros er [=].
      - split; [by apply reqInv_keep|]. simpl. rewrite !length_app. simpl.
        split; [lia|]. repeat split; auto. intros er [=].
      - split; [by apply reqInv_keep|]. simpl. rewrite !length_app. simpl.
        split; [lia|]. repeat split; auto. intros er [=].
      - split; [by apply reqInv_skip|]. simpl. rewrite !length_app. simpl.
        split; [lia|]. repeat split; auto. intros er [=]. }
    destruct Hacc' as (Hinv' & Hlen' & Hsub' & Hcov' & Hmono').
    destruct (IH (S i) acc' Hinv') as (H1 & H2 & H3 & H4 & H5).
    replace (i + S (length parts)) with (S i + length parts) by lia.
    split; [exact H1|]. split; [lia|]. split; [|split].
    + intros e He. destruct (H3 e He) as [Hin|(j & q & Hj & Hi & Hf)].
      * destruct (Hsub' e Hin) as [?|[Hi Hf]]; [by left|].
        right. exists 0, p. rewrite Nat.add_0_r. by simpl.
      * right. exists (S j), q. simpl. split; [done|].
        replace (i + S j) with (S i + j) by lia. done.
    + intros j q er Hj Hf. destruct j as [|j]; simpl in Hj.
      * simplify_eq. rewrite Nat.add_0_r in *. apply H5, Hcov'. done.
      * replace (i + S j) with (S i + j) in * by lia. by eapply H4.
    + intros e He. apply H5, Hmono', He.
Qed.

Lemma setMapErrs_length errs : ∀ r, length (setMapErrs errs r) = length r.
Proof.
  unfold setMapErrs. induction errs as [|e errs IH]; intros r; simpl; [done|].
  rewrite IH. apply length_alter.
Qed.

Lemma setMapErrs_lookup_other errs i : ∀ r,
  (∀ e, e ∈ errs → index e ≠ i) → setMapErrs errs r !! i = r !! i.
Proof.
  unfold setMapErrs. induction errs as [|e errs IH]; intros r Hne; simpl; [done|].
  rewrite IH.
  - apply list_lookup_alter_ne. apply Hne. left.
  - intros e' He'. apply Hne. by right.
Qed.

Lemma setMapErrs_lookup_hit errs i er : ∀ r,
  NoDup (index <$> errs) → newBranchMapError i er ∈ errs →
  setMapErrs errs r !! i = ErrorSet (Some er) <$> r !! i.
Proof.
  induction errs as [|e errs IH]; intros r Hnd Hin.
  - by apply elem_of_nil in Hin.
  - simpl in Hnd. apply NoDup_cons in Hnd as [Hnotin Hnd].
    apply elem_of_cons in Hin as [Heq|Hin].
    + subst e. simpl in Hnotin.
      change (setMapErrs (newBranchMapError i er :: errs) r)
        with (setMapErrs errs (alter (ErrorSet (Some er)) i r)).
      rewrite setMapErrs_lookup_other.
      * apply list_lookup_alter_eq.
      * intros e' He' Heq. apply Hnotin. rewrite <- Heq.
        by apply list_elem_of_fmap_2.
    + change (setMapErrs (e :: errs) r)
        with (setMapErrs errs (alter (ErrorSet (Some (err e))) (index e) r)).
      rewrite IH by done.
      rewrite list_lookup_alter_ne; [done|].
      intros Heq. apply Hnotin. rewrite Heq.
      by apply (list_elem_of_fmap_2 index) in Hin.
Qed.

Lemma createRequests_spec rm (parts : list (option part)) ref :
  let rq := createRequests rm parts ref in
  NoDup (skipped rq ++ failed rq)
  ∧ (∀ x, x ∈ skipped rq ++ failed rq → x < length parts)
  ∧ length (newParts rq) + (length (skipped rq) + length (failed rq)) = length parts
  ∧ index <$> mapErrs rq = failed rq
  ∧ (∀ e, e ∈ mapErrs rq →
       ∃ p, parts !! index e = Some p ∧ requestFailure rm (index e) p ref = Some (err e))
  ∧ (∀ i p er, parts !! i = Some p → requestFailure rm i p ref = Some er →
       newBranchMapError i er ∈ mapErrs rq).
Proof.
  unfold createRequests.
  destruct (requestLoop_spec rm ref parts 0 (mkRequests [] [] [] []))
    as ((Hidx & Hlt & Hnd) & Hlen & Hsub & Hcov & _).
  { repeat split; simpl; [|apply NoDup_nil_2]. intros x Hx. by apply elem_of_nil in Hx. }
  simpl in *. repeat split; auto.
  intros e He. destruct (Hsub e He) as [Hin|(j & p & Hj & -> & Hf)].
  - by apply elem_of_nil in Hin.
  - eauto.
Qed.


(** C10 (amended).  When the child processors have returned, and the
    number of parts they returned plus the skipped and the request-map-failed
    indices differs from the length of the batch, the branch returns the
    original batch with the alignment error in the error slot of every part
    except those whose request mapping failed, which carry their request
    mapping error.  Otherwise alignBranchResult returns a list of the
    original length that is nil at every skipped or failed index and holds
    the returned parts, in order, at the other positions. *)
Theorem branch_alignment requestMap resultMap children (msg : batch) procResults :
  let rq := createRequests requestMap ((λ p, Some (ErrorSet None p)) <$> msg) msg in
  let rLen := length (concat procResults) + (length (skipped rq) + length (failed rq)) in
  executeChildren children (newParts rq) = inr procResults →
  (rLen ≠ length msg →
     ∃ result,
       ProcessMessage requestMap resultMap children msg = Some [result]
       ∧ length result = length msg
       ∧ ∀ i p, msg !! i = Some p →
           (i ∈ failed rq ↔
              is_Some (requestFailure requestMap i (Some (ErrorSet None p)) msg))
           ∧ result !! i =
               Some (ErrorSet
                       (Some (default (ErrAlign rLen (length msg))
                                (requestFailure requestMap i (Some (ErrorSet None p)) msg)))
                       p))
  ∧ (rLen = length msg →
     ∃ aligned,
       alignBranchResult (length msg) (skipped rq) (failed rq) procResults
         = AlignOk aligned
       ∧ length aligned = length msg
       ∧ omap id aligned = concat procResults
       ∧ ∀ i, i ∈ skipped rq ++ failed rq → aligned !! i = Some None).
Proof.
  intros rq rLen Hchildren.
  pose proof (createRequests_spec requestMap ((λ p, Some (ErrorSet None p)) <$> msg) msg)
    as (Hnd & Hbound & Hlen & Hidx & Hsub & Hcov).
  fold rq in Hnd, Hbound, Hlen, Hidx, Hsub, Hcov.
  rewrite length_fmap in Hbound, Hlen.
  split.
  - intros Hne.
    exists (setMapErrs (mapErrs rq)
              (ErrorSet (Some (ErrAlign rLen (length msg))) <$> msg)).
    split.
    { unfold ProcessMessage, createResult. fold rq. rewrite Hchildren.
      rewrite length_fmap. by rewrite alignBranchResult_mismatch. }
    split; [by rewrite setMapErrs_length, length_fmap|].
    intros i p Hp.
    assert (Hparts : ((λ p, Some (ErrorSet None p)) <$> msg) !! i
                     = Some (Some (ErrorSet None p))).
    { by rewrite list_lookup_fmap, Hp. }
    assert (Hndidx : NoDup (index <$> mapErrs rq)).
    { rewrite Hidx. by apply NoDup_app in Hnd as (_ & _ & ?). }
    destruct (requestFailure requestMap i (Some (ErrorSet None p)) msg) as [er|] eqn:Hf.
    + pose proof (Hcov i _ er Hparts Hf) as Hin. split.
      * split; [eauto|]. intros _. rewrite <- Hidx.
        by apply (list_elem_of_fmap_2 index) in Hin.
      * rewrite (setMapErrs_lookup_hit _ i er) by done.
        by rewrite list_lookup_fmap, Hp.
    + assert (Hnone : ∀ e, e ∈ mapErrs rq → index e ≠ i).
      { intros e He Hi. destruct (Hsub e He) as (q & Hq & Hfq).
        rewrite Hi in Hq, Hfq. rewrite Hparts in Hq. simplify_eq. }
      split.
      * split; [|by intros [? ?]]. intros Hin. rewrite <- Hidx in Hin.
        apply list_elem_of_fmap in Hin as (e & -> & He). by destruct (Hnone e He).
      * rewrite setMapErrs_lookup_other by done.
        by rewrite list_lookup_fmap, Hp.
  - intros Heq. destruct (alignBranchResult_aligned (length msg) (skipped rq)
      (failed rq) procResults Hnd Hbound Heq) as (aligned & ? & ? & ? & ?).
    by exists aligned.
Qed.

Lemma branch_alignment_witness :
  ∃ result,
    ProcessMessage (Some failFirst) None duplicate twoParts = Some [result]
    ∧ length result = length twoParts
    ∧ result !! 1 = Some (ErrorSet (Some (ErrAlign 3 2)) (NewPart "b")).
Proof.
  destruct (branch_alignment (Some failFirst) None duplicate twoParts doubled eq_refl)
    as [Hmis _].
  destruct (Hmis ltac:(vm_compute; lia)) as (result & Hrun & Hlen & Hat).
  exists result. split; [exact Hrun|]. split; [exact Hlen|].
  exact (proj2 (Hat 1 (NewPart "b") eq_refl)).
Defined.

(** C10 as stated fails: with a request mapping that fails on the first of
    two parts and a child processor that returns two parts for the one
    request, the counts differ (3 against 2), yet the first part carries
    its request mapping error and not the alignment error. *)
Lemma branch_alignment_every_part_counterexample :
  executeChildren duplicate (newParts twoRequests) = inr doubled
  ∧ length (concat doubled)
    + (length (skipped twoRequests) + length (failed twoRequests)) = 3
  ∧ length twoParts = 2
  ∧ ∃ result,
      ProcessMessage (Some failFirst) None duplicate twoParts = Some [result]
      ∧ ¬ (∀ p, p ∈ result → errslot p = Some (ErrAlign 3 2)).
Proof.
  split; [reflexivity|]. split; [reflexivity|]. split; [reflexivity|].
  eexists. split; [reflexivity|].
  intros Hall. specialize (Hall _ (list_elem_of_here _ _)). discriminate Hall.
Qed.
End BranchFacts.

Module AsyncWriterFacts.
Import Branch AsyncWriter.


Lemma acks_app evs1 evs2 : acks (evs1 ++ evs2) = acks evs1 ++ acks evs2.
Proof. apply omap_app. Qed.

Lemma writes_app evs1 evs2 : writes (evs1 ++ evs2) = writes evs1 ++ writes evs2.
Proof. apply omap_app. Qed.

Lemma connects_app evs1 evs2 : connects (evs1 ++ evs2) = connects evs1 ++ connects evs2.
Proof. apply omap_app. Qed.

Lemma latencyMeasuringWrite_Done msg st st1 res :
  latencyMeasuringWrite msg st = Done (st1, res) →
  trace st1 = trace st ++ [EvWrite msg res]
  ∧ sinkWrites st = res :: sinkWrites st1
  ∧ sinkConnects st1 = sinkConnects st
  ∧ isConnected st1 = isConnected st.
Proof.
  unfold latencyMeasuringWrite. destruct (sinkWrites st) as [|r rest]; [done|].
  intros [= <- <-]. done.
Qed.

Lemma initConnectionLoop_Done cs : ∀ evs ok rest evs',
  initConnectionLoop cs evs = Done (ok, rest, evs') →
  ∃ new, evs' = evs ++ new ∧ acks new = [] ∧ writes new = []
         ∧ (connects new = [] → False).
Proof.
  induction cs as [|r cs IH]; intros evs ok rest evs'; simpl; [done|].
  destruct (cerr r) as [e|].
  - destruct (closing r || bool_decide (e = ErrTypeClosed)).
    + intros [= <- <- <-]. by eexists.
    + destruct (ctxDone r).
      * intros [= <- <- <-]. by eexists.
      * intros H. apply IH in H as (new & -> & Ha & Hw & Hc).
        eexists. rewrite <- app_assoc. split; [done|].
        rewrite acks_app, writes_app, connects_app, Ha, Hw. done.
  - intros [= <- <- <-]. by eexists.
Qed.

Lemma initConnection_Done st st1 ok :
  initConnection st = Done (st1, ok) →
  ∃ new, trace st1 = trace st ++ new ∧ acks new = [] ∧ writes new = []
         ∧ (connects new = [] → False)
         ∧ sinkWrites st1 = sinkWrites st.
Proof.
  unfold initConnection.
  destruct (initConnectionLoop (sinkConnects st) []) as [|[[ok' rest] evs]] eqn:H; [done|].
  intros [= <- <-]. apply initConnectionLoop_Done in H as (new & -> & ? & ? & ?).
  by exists new.
Qed.

Lemma writePhase_prepend msg res evs pre :
  acks pre = [] → writes pre = [(msg, Some ErrNotConnected)] ∨ writes pre = [] →
  writePhase msg res evs → writePhase msg res (pre ++ evs).
Proof.
  intros Ha Hw [Hacks [k Hk]]. split.
  - by rewrite acks_app, Ha, Hacks.
  - rewrite writes_app. destruct Hw as [-> | ->].
    + exists (S k). simpl. destruct Hk as [[-> ?]|[-> ?]]; auto.
    + exists k. done.
Qed.

Lemma reconnectFor_Done msg : ∀ fuel st st1 res,
  reconnectFor fuel msg st = Done (st1, res) →
  ∃ evs, trace st1 = trace st ++ evs ∧ writePhase msg res evs.
Proof.
  induction fuel as [|fuel IH]; intros st st1 res; simpl; [done|].
  destruct (initConnection st) as [|[sti ok]] eqn:Hinit; [done|].
  apply initConnection_Done in Hinit as (new & Htr & Ha & Hw & _ & _).
  destruct ok.
  - destruct (latencyMeasuringWrite msg sti) as [|[st2 r]] eqn:Hwrite; [done|].
    apply latencyMeasuringWrite_Done in Hwrite as (Htr2 & _).
    destruct (decide (r ≠ Some ErrNotConnected)) as [Hne|Heq].
    + intros [= <- <-]. simpl. rewrite Htr2, Htr, <- !app_assoc.
      eexists. split; [done|]. split.
      * by rewrite !acks_app, Ha.
      * exists 0. left. rewrite !writes_app, Hw. done.
    + assert (r = Some ErrNotConnected) as -> by (by destruct (decide (r = Some ErrNotConnected)); [|done]).
      intros H. apply IH in H as (evs & Htr3 & Hph). simpl in Htr3.
      rewrite Htr2, Htr, <- !app_assoc in Htr3.
      eexists. split; [exact Htr3|].
      apply writePhase_prepend; [done|by right|].
      apply (writePhase_prepend _ _ _ [_]); [done|by left|].
      apply (writePhase_prepend _ _ _ [_]); [done|by right|]. done.
  - intros [= <- <-]. exists new. split; [done|]. split; [done|].
    exists 0. right. done.
Qed.

Lemma reconnectFor_fuel msg : ∀ fuel st,
  length (sinkWrites st) < fuel →
  reconnectFor fuel msg st = reconnectFor (S (length (sinkWrites st))) msg st.
Proof.
  induction fuel as [|fuel IH]; intros st Hlt; [lia|].
  simpl. destruct (initConnection st) as [|[st1 ok]] eqn:Hinit; [done|].
  apply initConnection_Done in Hinit as (_ & _ & _ & _ & _ & Hw).
  destruct ok; [|done].
  destruct (latencyMeasuringWrite msg st1) as [|[st2 r]] eqn:Hwrite; [done|].
  apply latencyMeasuringWrite_Done in Hwrite as (_ & Hw2 & _).
  destruct (decide _); [done|].
  rewrite Hw, Hw2 in *. simpl in *.
  rewrite IH by (simpl; lia). reflexivity.
Qed.

Lemma dec_ne_NotConnected (r : option error) :
  ¬ r ≠ Some ErrNotConnected → r = Some ErrNotConnected.
Proof. intros H. by destruct (decide (r = Some ErrNotConnected)). Qed.

Lemma connectLoop_Done msg st st1 res :
  connectLoop msg st = Done (st1, res) →
  ∃ evs, trace st1 = trace st ++ evs ∧ writePhase msg res evs.
Proof.
  unfold connectLoop, connectBody.
  destruct (loadConnected (storeConnected false st)) as [connected st0] eqn:Hload.
  assert (Htr0 : trace st0 = trace st).
  { unfold loadConnected in Hload. simpl in Hload.
    destruct (peers st); simplify_eq; done. }
  destruct connected.
  - destruct (latencyMeasuringWrite msg st0) as [|[st2 r]] eqn:Hwrite; [done|].
    apply latencyMeasuringWrite_Done in Hwrite as (Htr2 & _).
    destruct (decide (r ≠ Some ErrNotConnected)) as [Hne|Heq].
    + intros [= <- <-]. rewrite Htr2, Htr0. eexists. split; [done|].
      split; [done|]. exists 0. left. done.
    + apply dec_ne_NotConnected in Heq as ->.
      intros H. apply reconnectFor_Done in H as (evs & Htr3 & Hph).
      simpl in Htr3. rewrite Htr2, Htr0, <- !app_assoc in Htr3.
      eexists. split; [exact Htr3|].
      apply (writePhase_prepend _ _ _ [_]); [done|by left|].
      apply (writePhase_prepend _ _ _ [_]); [done|by right|].
      apply (writePhase_prepend _ _ _ [_]); [done|by right|]. done.
  - intros H. apply reconnectFor_Done in H as (evs & Htr3 & Hph).
    simpl in Htr3. rewrite Htr0, <- !app_assoc in Htr3.
    eexists. split; [exact Htr3|].
    apply (writePhase_prepend _ _ _ [_]); [done|by right|]. done.
Qed.

Lemma writeWithReconnect_Done msg st st1 res :
  writeWithReconnect msg st = Done (st1, res) →
  ∃ evs, trace st1 = trace st ++ evs ∧ writePhase msg res evs.
Proof.
  unfold writeWithReconnect.
  destruct (latencyMeasuringWrite msg st) as [|[st0 r]] eqn:Hwrite; [done|].
  apply latencyMeasuringWrite_Done in Hwrite as (Htr & _).
  assert (Hother : r ≠ Some ErrNotConnected →
            Done (match r with
                  | Some _ => emit [EvIncr "output_error"] st0
                  | None => st0
                  end, r) = Done (st1, res) →
            ∃ evs, trace st1 = trace st ++ evs ∧ writePhase msg res evs).
  { intros Hne [= <- <-]. destruct r as [e|]; simpl; rewrite Htr.
    - rewrite <- app_assoc. eexists. split; [done|]. split; [done|].
      exists 0. left. done.
    - eexists. split; [done|]. split; [done|]. exists 0. left. done. }
  destruct r as [[]|]; try (apply Hother; discriminate).
  intros H. apply connectLoop_Done in H as (evs & Htr1 & Hph).
  rewrite Htr, <- app_assoc in Htr1. eexists. split; [exact Htr1|].
  apply (writePhase_prepend _ _ _ [_]); [done|by left|]. done.
Qed.

Lemma writePhase_TypeClosed msg res evs m :
  writePhase msg res evs → EvWrite m (Some ErrTypeClosed) ∈ evs →
  res = Some ErrTypeClosed.
Proof.
  intros [_ [k Hk]] Hin.
  assert (Hw : (m, Some ErrTypeClosed) ∈ writes evs).
  { unfold writes. apply list_elem_of_omap. eexists. split; [exact Hin|done]. }
  destruct Hk as [[Heq _]|[_ ->]]; [|done].
  rewrite Heq in Hw. apply elem_of_app in Hw as [Hw|Hw].
  - apply elem_of_replicate in Hw as [[=] _].
  - apply list_elem_of_singleton in Hw. by simplify_eq.
Qed.

Lemma injectLoop_logs im : ∀ msg spans i,
  acks (injectLoop im i msg spans).2 = []
  ∧ writes (injectLoop im i msg spans).2 = [].
Proof.
  induction msg as [|p msg IH]; intros spans i; simpl; [done|].
  destruct spans as [|s spans]; [done|]. specialize (IH spans (S i)).
  destruct (injectLoop im (S i) msg spans) as [parts lg]. simpl in *.
  destruct (im p i [NewPart s]); simpl; done.
Qed.

Lemma injectSpans_logs w msg spans :
  acks (injectSpans w msg spans).2 = [] ∧ writes (injectSpans w msg spans).2 = [].
Proof.
  unfold injectSpans. destruct (injectTracingMap w) as [im|]; [|done].
  destruct (decide _); [done|]. apply injectLoop_logs.
Qed.

(** C6.  When the write of a transaction, after any reconnections, ends
    with an error other than ErrNotConnected and ErrTypeClosed, every
    earlier write of the transaction returned ErrNotConnected, the worker
    acknowledges the transaction once, with that error, writes nothing
    more for it and goes on with the next transaction. *)
Theorem other_error_acked_once w tracer ts st st1 e :
  let spans := CreateChildSpans tracer (Payload ts) in
  let payload := (injectSpans w (Payload ts) spans).1 in
  let logs := (injectSpans w (Payload ts) spans).2 in
  writeWithReconnect payload (emit (EvLog "trace" None :: logs) st) = Done (st1, Some e) →
  e ≠ ErrNotConnected → e ≠ ErrTypeClosed →
  ∃ st2 during after k,
    processTransaction w tracer ts st = Done (st2, Continue)
    ∧ trace st1 = trace st ++ during
    ∧ trace st2 = trace st1 ++ after
    ∧ acks during = []
    ∧ writes during = replicate k (payload, Some ErrNotConnected) ++ [(payload, Some e)]
    ∧ acks after = [(tsid ts, Some e)]
    ∧ writes after = []
    ∧ ∀ rest, writerLoop w tracer (Recv ts :: rest) st = writerLoop w tracer rest st2.
Proof.
  intros spans payload logs Hrun Hnc Htc.
  pose proof (writeWithReconnect_Done _ _ _ _ Hrun) as (evs & Htr & Hacks & k & Hk).
  simpl in Htr. rewrite <- app_assoc in Htr.
  destruct Hk as [[Hw _]|[_ [=]]]; [|done].
  assert (Hproc : processTransaction w tracer ts st
                  = Done (completeTransaction w ts spans (Some e) st1)).
  { unfold processTransaction. fold spans.
    destruct (injectSpans w (Payload ts) spans) as [pl lg] eqn:Hinj.
    subst payload logs. simpl in *. by rewrite Hrun. }
  assert (Hcomplete : ∃ lg, completeTransaction w ts spans (Some e) st1
            = (emit [EvLog lg (Some e); EvFinish (length spans);
                     EvAck (tsid ts) (Some e)] st1, Continue)).
  { unfold completeTransaction. destruct e; try done;
      destruct (decide (typeStr w ≠ "reject")); by eexists. }
  destruct Hcomplete as [lg Hcomplete]. rewrite Hcomplete in Hproc.
  eexists _, _, _, k. split; [exact Hproc|]. split; [exact Htr|].
  split; [reflexivity|].
  pose proof (injectSpans_logs w (Payload ts) spans) as [Hla Hlw]. fold logs in Hla, Hlw.
  split.
  { rewrite acks_app, Hacks. simpl. by rewrite Hla. }
  split.
  { rewrite writes_app, Hw. simpl. by rewrite Hlw. }
  split; [done|]. split; [done|].
  intros rest. simpl. by rewrite Hproc.
Qed.

Lemma elem_of_writes m r evs : EvWrite m r ∈ evs → (m, r) ∈ writes evs.
Proof. intros H. unfold writes. apply list_elem_of_omap. eexists. split; [exact H|done]. Qed.

(** C7.  When a write of a transaction, the first one or one of the
    reconnect loop, returns ErrTypeClosed, the worker leaves its loop: the
    transaction is not acknowledged and the rest of the channel is not
    read. *)
Theorem type_closed_exits_without_ack w tracer ts st st1 res evs m :
  let spans := CreateChildSpans tracer (Payload ts) in
  let payload := (injectSpans w (Payload ts) spans).1 in
  let logs := (injectSpans w (Payload ts) spans).2 in
  writeWithReconnect payload (emit (EvLog "trace" None :: logs) st) = Done (st1, res) →
  trace st1 = trace st ++ evs →
  EvWrite m (Some ErrTypeClosed) ∈ evs →
  res = Some ErrTypeClosed
  ∧ processTransaction w tracer ts st = Done (st1, Exit)
  ∧ acks evs = []
  ∧ ∀ rest, writerLoop w tracer (Recv ts :: rest) st = Done st1.
Proof.
  intros spans payload logs Hrun Htr Hin.
  pose proof (writeWithReconnect_Done _ _ _ _ Hrun) as (evs' & Htr' & Hph).
  simpl in Htr'. rewrite <- app_assoc, Htr in Htr'. apply app_inv_head in Htr'.
  subst evs.
  pose proof (injectSpans_logs w (Payload ts) spans) as [Hla Hlw]. fold logs in Hla, Hlw.
  assert (Hin' : EvWrite m (Some ErrTypeClosed) ∈ evs').
  { apply elem_of_app in Hin as [Hin|Hin]; [|done].
    apply elem_of_writes in Hin. simpl in Hin. rewrite Hlw in Hin.
    by apply elem_of_nil in Hin. }
  pose proof (writePhase_TypeClosed _ _ _ _ Hph Hin') as ->.
  assert (Hproc : processTransaction w tracer ts st = Done (st1, Exit)).
  { unfold processTransaction. fold spans.
    destruct (injectSpans w (Payload ts) spans) as [pl lg] eqn:Hinj.
    subst payload logs. simpl in *. by rewrite Hrun. }
  split; [done|]. split; [done|]. split.
  - destruct Hph as [Ha _]. rewrite acks_app, Ha. simpl. by rewrite Hla.
  - intros rest. simpl. by rewrite Hproc.
Qed.

Lemma injectLoop_spec im : ∀ msg spans i,
  length msg ≤ length spans →
  length (injectLoop im i msg spans).1 = length msg
  ∧ ∀ j p s e, msg !! j = Some p → spans !! j = Some s →
      im p (i + j) [NewPart s] = MapFail e →
      (injectLoop im i msg spans).1 !! j = Some (Some p)
      ∧ EvLog "warn" (Some e) ∈ (injectLoop im i msg spans).2.
Proof.
  induction msg as [|p msg IH]; intros spans i Hlen; simpl.
  - split; [done|]. intros j q s e Hj. by rewrite lookup_nil in Hj.
  - destruct spans as [|s spans]; simpl in Hlen; [lia|].
    destruct (IH spans (S i) ltac:(lia)) as [IHlen IHat].
    destruct (injectLoop im (S i) msg spans) as [parts lg] eqn:Hloop. simpl in *.
    split.
    + destruct (im p i [NewPart s]); simpl; by rewrite IHlen.
    + intros j q s' e Hj Hs Hf. destruct j as [|j]; simpl in *.
      * simplify_eq. rewrite Nat.add_0_r in Hf. rewrite Hf. simpl.
        split; [done|]. apply elem_of_cons. by left.
      * replace (i + S j) with (S i + j) in Hf by lia.
        destruct (IHat j q s' e Hj Hs Hf) as [Hat Hlog].
        destruct (im p i [NewPart s]); simpl; split; try done.
        apply elem_of_cons. by right.
Qed.

(** C8.  With an injectTracingMap configured, a transaction whose write
    the sink answers (with anything but ErrNotConnected or ErrTypeClosed)
    is written once and acknowledged once with the sink's answer, whatever
    the tracing mapping does; the batch written has the length of the
    payload, and at every index where the mapping fails it carries the
    original part, the failure being logged. *)
Theorem span_injection_failure_keeps_original w tracer im ts st res rest :
  injectTracingMap w = Some im →
  sinkWrites st = res :: rest →
  res ≠ Some ErrNotConnected → res ≠ Some ErrTypeClosed →
  ∃ payload st' evs,
    processTransaction w tracer ts st = Done (st', Continue)
    ∧ trace st' = trace st ++ evs
    ∧ writes evs = [(payload, res)]
    ∧ acks evs = [(tsid ts, res)]
    ∧ length payload = length (Payload ts)
    ∧ ∀ i p e, Payload ts !! i = Some p →
        im p i [NewPart (tracer p)] = MapFail e →
        payload !! i = Some (Some p) ∧ EvLog "warn" (Some e) ∈ evs.
Proof.
  intros Him Hw Hnc Htc.
  set (spans := CreateChildSpans tracer (Payload ts)).
  pose proof (injectSpans_logs w (Payload ts) spans) as [Hla Hlw].
  assert (Hinj : injectSpans w (Payload ts) spans = injectLoop im 0 (Payload ts) spans).
  { unfold injectSpans. rewrite Him. destruct (decide _) as [Hlt|]; [|done].
    unfold spans, CreateChildSpans in Hlt. rewrite length_fmap in Hlt. lia. }
  destruct (injectLoop_spec im (Payload ts) spans 0) as [Hlen Hat].
  { unfold spans, CreateChildSpans. by rewrite length_fmap. }
  rewrite <- Hinj in Hlen, Hat.
  unfold processTransaction. fold spans.
  destruct (injectSpans w (Payload ts) spans) as [payload logs]. simpl in *.
  unfold writeWithReconnect, latencyMeasuringWrite. simpl. rewrite Hw.
  exists payload.
  destruct res as [e|].
  - unfold completeTransaction.
    destruct e; try done; destruct (decide (typeStr w ≠ "reject"));
      simpl; eexists _, _; (split; [reflexivity|]);
      simpl; rewrite <- !app_assoc; (split; [reflexivity|]);
      rewrite !writes_app, !acks_app; simpl; rewrite Hla, Hlw;
      (split; [done|]); (split; [done|]); (split; [done|]);
      intros i p e' Hp Hf;
      (destruct (Hat i p (tracer p) e' Hp) as [H1 H2];
        [by unfold spans, CreateChildSpans; rewrite list_lookup_fmap, Hp|done|]);
      (split; [done|]); apply elem_of_cons; right; apply elem_of_app; by left.
  - simpl. eexists _, _. split; [reflexivity|].
    simpl; rewrite <- !app_assoc. split; [reflexivity|].
    rewrite !writes_app, !acks_app; simpl; rewrite Hla, Hlw.
    split; [done|]. split; [done|]. split; [done|].
    intros i p e' Hp Hf.
    destruct (Hat i p (tracer p) e' Hp) as [H1 H2];
      [by unfold spans, CreateChildSpans; rewrite list_lookup_fmap, Hp|done|].
    split; [done|]. apply elem_of_cons. right. apply elem_of_app. by left.
Qed.

Lemma mutexInv_start n : mutexInv (startPool n).
Proof.
  intros i p Hi Hp. simpl in Hi. apply lookup_replicate in Hi as [-> _]. done.
Qed.

Lemma mutexInv_move i p s :
  mutexInv s →
  (reconnecting p = true → connectMut s = Some i) →
  mutexInv (move i p s).
Proof.
  intros Hinv Hp j q Hj Hq. simpl in *.
  destruct (decide (i = j)) as [->|Hne].
  - apply list_lookup_insert_Some in Hj as [(_ & <- & _)|[? _]]; [auto|done].
  - rewrite list_lookup_insert_ne in Hj by done. eauto.
Qed.

Lemma mutexInv_step i s s' : mutexInv s → step i s s' → mutexInv s'.
Proof.
  intros Hinv Hstep.
  destruct Hstep;
    try (apply mutexInv_move; [done|]; first [done | intros _; by eapply Hinv]).
  - intros j q Hj Hq. simpl in *.
    destruct (decide (i = j)) as [->|Hne]; [done|].
    rewrite list_lookup_insert_ne in Hj by done.
    rewrite (Hinv j q Hj Hq) in *. done.
  - intros j q Hj Hq. simpl in *.
    destruct (decide (i = j)) as [->|Hne].
    + apply list_lookup_insert_Some in Hj as [(_ & <- & _)|[? _]]; done.
    + rewrite list_lookup_insert_ne in Hj by done.
      pose proof (Hinv j q Hj Hq) as Hm.
      assert (connectMut s = Some i) as Hm' by (by eapply Hinv).
      congruence.
Qed.

Lemma reachable_mutexInv n s : reachable n s → mutexInv s.
Proof.
  induction 1 as [|s s' i _ IH Hstep]; [apply mutexInv_start|].
  by eapply mutexInv_step.
Qed.

(** The function [connectBody] and the interleaving model agree. *)
Lemma initConnection_flag st st1 ok :
  initConnection st = Done (st1, ok) → isConnected st1 = isConnected st.
Proof.
  unfold initConnection.
  destruct (initConnectionLoop (sinkConnects st) []) as [|[[ok' rest] evs]]; [done|].
  by intros [= <- <-].
Qed.

Lemma move_move i p q s :
  move i p (move i q s) = move i p s.
Proof. unfold move. simpl. by rewrite list_insert_insert_eq. Qed.

Lemma move_lookup i p q s :
  workers s !! i = Some q → workers (move i p s) !! i = Some p.
Proof.
  intros Hi. simpl. apply list_lookup_insert_eq. by eapply lookup_lt_Some.
Qed.

(** The [for] loop of connectLoop is a run of the worker from [AtInit]. *)
Lemma reconnectFor_steps i msg : ∀ fuel st st1 res s,
  reconnectFor fuel msg st = Done (st1, res) →
  workers s !! i = Some AtInit →
  flag s = isConnected st →
  rtc (step i) s
    (mkPool (isConnected st1) (connectMut s) (<[i := AtReturn res]> (workers s))).
Proof.
  induction fuel as [|fuel IH]; intros st st1 res s; simpl; [done|].
  destruct (initConnection st) as [|[sti ok]] eqn:Hinit; [done|].
  apply initConnection_flag in Hinit.
  destruct ok.
  - destruct (latencyMeasuringWrite msg sti) as [|[st2 r]] eqn:Hwrite; [done|].
    apply latencyMeasuringWrite_Done in Hwrite as (_ & _ & _ & Hflag).
    destruct (decide (r ≠ Some ErrNotConnected)) as [Hne|Heq].
    + intros [= <- <-] Hi Hf. simpl.
      eapply rtc_l; [by apply step_init_connected|].
      eapply rtc_l; [apply (step_write_return i _ r); [by eapply move_lookup|done]|].
      simpl. rewrite list_insert_insert_eq. done.
    + intros Hrun Hi Hf.
      eapply rtc_l; [by apply step_init_connected|].
      eapply rtc_l; [apply step_write_lost; by eapply move_lookup|].
      rewrite move_move.
      pose proof (IH _ _ _ (move i AtInit s) Hrun (move_lookup _ _ _ _ Hi)) as Hsteps.
      simpl in Hsteps. rewrite list_insert_insert_eq in Hsteps.
      apply Hsteps. congruence.
  - intros [= <- <-] Hi Hf.
    eapply rtc_l; [by apply step_init_closed|].
    unfold move. rewrite Hf, <- Hinit. done.
Qed.

(** The body of connectLoop is a run of the worker that holds the mutex,
    from the load of the flag to the return. *)
Lemma connectBody_steps i msg st st1 res s :
  connectBody (flag s) msg st = Done (st1, res) →
  workers s !! i = Some AtLoad →
  flag s = isConnected st →
  rtc (step i) s
    (mkPool (isConnected st1) (connectMut s) (<[i := AtReturn res]> (workers s))).
Proof.
  unfold connectBody. intros Hrun Hi Hf.
  destruct (flag s) eqn:Hflag.
  - destruct (latencyMeasuringWrite msg st) as [|[st2 r]] eqn:Hwrite; [done|].
    apply latencyMeasuringWrite_Done in Hwrite as (_ & _ & _ & Hflag2).
    eapply rtc_l; [by apply step_load_connected|].
    destruct (decide (r ≠ Some ErrNotConnected)) as [Hne|Heq].
    + injection Hrun as <- <-.
      eapply rtc_l; [apply (step_retry_return i _ r); [by eapply move_lookup|done]|].
      rewrite move_move. unfold move. rewrite Hflag, Hflag2, <- Hf. done.
    + eapply rtc_l; [apply step_retry_lost; by eapply move_lookup|].
      rewrite move_move.
      pose proof (reconnectFor_steps i msg _ _ _ _ (move i AtInit s) Hrun
                    (move_lookup _ _ _ _ Hi)) as Hsteps.
      simpl in Hsteps. rewrite list_insert_insert_eq in Hsteps.
      apply Hsteps. congruence.
  - eapply rtc_l; [by apply step_load_lost|].
    pose proof (reconnectFor_steps i msg _ _ _ _ (move i AtInit s) Hrun
                  (move_lookup _ _ _ _ Hi)) as Hsteps.
    simpl in Hsteps. rewrite list_insert_insert_eq in Hsteps.
    apply Hsteps. congruence.
Qed.

(** initConnection begins with a call to ConnectWithContext. *)
Lemma initConnectionLoop_connects_first : ∀ cs evs0 ok rest evs,
  initConnectionLoop cs evs0 = Done (ok, rest, evs) →
  ∃ r tl, evs = evs0 ++ EvConnect r :: tl.
Proof.
  induction cs as [|c cs IH]; intros evs0 ok rest evs Hrun; [done|].
  simpl in Hrun. destruct (cerr c) as [e|].
  - destruct (closing c || bool_decide (e = ErrTypeClosed)).
    + injection Hrun as <- <- <-. by eexists _, _.
    + destruct (ctxDone c).
      * injection Hrun as <- <- <-. by eexists _, _.
      * apply IH in Hrun as (r & tl & ->). rewrite <- app_assoc. by eexists _, _.
  - injection Hrun as <- <- <-. by eexists _, _.
Qed.

(** The [for] loop of connectLoop, when it returns, has begun with a call
    to ConnectWithContext: it writes nothing before. *)
Lemma reconnectFor_connects_first fuel msg st st1 res :
  reconnectFor fuel msg st = Done (st1, res) →
  ∃ r evs, trace st1 = trace st ++ EvConnect r :: evs.
Proof.
  destruct fuel as [|fuel]; simpl; [done|].
  unfold initConnection.
  destruct (initConnectionLoop (sinkConnects st) []) as [|[[ok rest] evs]] eqn:Hinit;
    [done|].
  apply initConnectionLoop_connects_first in Hinit as (r & tl & ->). simpl.
  destruct ok.
  - set (sti := mkState _ _ _ _ _).
    destruct (latencyMeasuringWrite msg sti) as [|[st2 r2]] eqn:Hwrite; [done|].
    apply latencyMeasuringWrite_Done in Hwrite as (Htr & _).
    destruct (decide (r2 ≠ Some ErrNotConnected)).
    + intros [= <- <-]. simpl. rewrite Htr. unfold sti. simpl.
      rewrite <- !app_assoc. simpl. by eexists _, _.
    + intros Hrun. apply reconnectFor_Done in Hrun as (evs & -> & _).
      simpl. rewrite Htr. unfold sti. simpl.
      rewrite <- !app_assoc. simpl. by eexists _, _.
  - intros [= <- <-]. simpl. by eexists _, _.
Qed.

Lemma connectBody_lost msg st :
  connectBody false msg st
  = reconnectFor (S (length (sinkWrites st))) msg
      (emit [EvIncr "output_connection_lost"] st).
Proof. reflexivity. Qed.

Lemma aloneInv_step i s s' : aloneInv i s → step i s s' → aloneInv i s'.
Proof.
  unfold aloneInv. intros Hinv Hstep.
  destruct Hstep as [s Hi|s Hi|s Hi Hm|s Hi Hf|s Hi Hf|s r Hi Hr|s Hi|s Hi|s Hi
                     |s r Hi Hr|s Hi|s r Hi];
    rewrite Hi in Hinv; simpl;
    rewrite list_lookup_insert_eq by (by eapply lookup_lt_Some); try done.
  congruence.
Qed.

Lemma alone_never_retries i s s' :
  workers s !! i = Some InWriterLoop → rtc (step i) s s' →
  workers s' !! i ≠ Some AtRetry.
Proof.
  intros Hi Hsteps.
  assert (aloneInv i s') as Hinv.
  { assert (aloneInv i s) as H0 by (unfold aloneInv; by rewrite Hi).
    clear Hi. induction Hsteps as [|s s1 s2 Hstep _ IH]; [done|].
    apply IH. by eapply aloneInv_step. }
  intros Hr. unfold aloneInv in Hinv. by rewrite Hr in Hinv.
Qed.

(** Only the write after a successful reconnection sets the flag. *)
Lemma flag_restored_by_write j s s' :
  step j s s' → flag s = false → flag s' = true →
  workers s !! j = Some AtWrite.
Proof. intros Hstep Hf Hf'. destruct Hstep; simpl in *; congruence. Qed.

(** C9 (amended).  In every state the pool of workers can reach, at most
    one worker is between Lock and Unlock of the reconnect mutex.  A
    worker stores 0 to the connected flag before it takes the mutex and,
    once it holds the mutex, branches on what the flag reads then: on 1 it
    re-attempts its write, on 0 it goes to initConnection.  The flag goes
    from 0 to 1 only by the write of the worker that holds the mutex
    after its reconnection, so a waiting worker reads 1 exactly when a
    peer restored the connection after the worker's own store.  A worker
    that no peer's step interrupts, also one that entered while the flag
    was 1, never re-attempts.  In connectLoop: when the flag reads 1 and
    the re-attempted write does not return ErrNotConnected, its result is
    returned without any call to ConnectWithContext; when no peer stored
    the flag in between, whatever it was at entry, connectLoop counts the
    connection lost and calls ConnectWithContext before any write. *)
Theorem reconnect_exclusive_and_race_resolved :
  (∀ n s i j p q,
     reachable n s →
     workers s !! i = Some p → workers s !! j = Some q →
     reconnecting p = true → reconnecting q = true → i = j)
  ∧ (∀ i s s',
       step i s s' → workers s !! i = Some AtStore →
       flag s' = false ∧ workers s' !! i = Some AtLock)
  ∧ (∀ i s s',
       step i s s' → workers s !! i = Some AtLoad →
       s' = move i (if flag s then AtRetry else AtInit) s)
  ∧ (∀ n i j s s' p,
       reachable n s → step j s s' → flag s = false → flag s' = true →
       workers s !! i = Some p → p = AtLock ∨ p = AtLoad →
       j ≠ i ∧ workers s !! j = Some AtWrite ∧ connectMut s = Some j)
  ∧ (∀ i s s',
       workers s !! i = Some InWriterLoop → rtc (step i) s s' →
       workers s' !! i ≠ Some AtRetry)
  ∧ (∀ msg st res rest others,
       peers st = true :: others →
       sinkWrites st = res :: rest →
       res ≠ Some ErrNotConnected →
       ∃ st1, connectLoop msg st = Done (st1, res)
              ∧ trace st1 = trace st ++ [EvWrite msg res]
              ∧ sinkConnects st1 = sinkConnects st)
  ∧ (∀ msg st st1 res,
       peers st = [] ∨ (∃ others, peers st = false :: others) →
       connectLoop msg st = Done (st1, res) →
       ∃ r evs, trace st1
                = trace st ++ EvIncr "output_connection_lost" :: EvConnect r :: evs).
Proof.
  split; [|split; [|split; [|split; [|split; [|split]]]]].
  - intros n s i j p q Hreach Hi Hj Hp Hq.
    apply reachable_mutexInv in Hreach.
    pose proof (Hreach i p Hi Hp). pose proof (Hreach j q Hj Hq). congruence.
  - intros i s s' Hstep Hi.
    inversion Hstep; subst; try congruence. simpl.
    split; [done|]. apply list_lookup_insert_eq. by eapply lookup_lt_Some.
  - intros i s s' Hstep Hi.
    inversion Hstep as [| | |? ? Hf|? ? Hf| | | | | | |]; subst; try congruence;
      by rewrite Hf.
  - intros n i j s s' p Hreach Hstep Hf Hf' Hi Hp.
    pose proof (flag_restored_by_write _ _ _ Hstep Hf Hf') as Hj.
    split; [|split; [done|]].
    + intros ->. rewrite Hi in Hj. destruct Hp; congruence.
    + apply reachable_mutexInv in Hreach. by apply (Hreach j AtWrite).
  - apply alone_never_retries.
  - intros msg st res rest others Hpeers Hw Hres.
    unfold connectLoop, connectBody, loadConnected, latencyMeasuringWrite. simpl.
    rewrite Hpeers. simpl. rewrite Hw.
    destruct (decide (res ≠ Some ErrNotConnected)); [|done].
    eexists. split; [reflexivity|]. done.
  - intros msg st st1 res Hpeers Hrun.
    destruct st as [c ws cs ps tr]. cbn [peers trace] in *.
    destruct Hpeers as [->|[others ->]].
    + change (connectBody false msg (mkState false ws cs [] tr) = Done (st1, res))
        in Hrun.
      rewrite connectBody_lost in Hrun.
      apply reconnectFor_connects_first in Hrun as (r & evs & ->). simpl.
      rewrite <- app_assoc. by eexists _, _.
    + change (connectBody false msg (mkState false ws cs others tr) = Done (st1, res))
        in Hrun.
      rewrite connectBody_lost in Hrun.
      apply reconnectFor_connects_first in Hrun as (r & evs & ->). simpl.
      rewrite <- app_assoc. by eexists _, _.
Qed.

Lemma other_error_acked_once_witness :
  ∃ st2,
    processTransaction demoConfig demoTracer demoTransaction
      (demoState [Some ErrNotConnected; Some (ErrNew "rejected")]
         [mkConnectResp None false false] [])
    = Done (st2, Continue)
    ∧ acks (trace st2) = [(7, Some (ErrNew "rejected"))].
Proof.
  destruct (other_error_acked_once demoConfig demoTracer demoTransaction
              (demoState [Some ErrNotConnected; Some (ErrNew "rejected")]
                 [mkConnectResp None false false] [])
              _ (ErrNew "rejected") eq_refl ltac:(discriminate) ltac:(discriminate))
    as (st2 & during & after & k & Hrun & Hd & Ha & Hda & _ & Haa & _).
  exists st2. split; [exact Hrun|].
  rewrite Ha, Hd, !acks_app, Hda, Haa. reflexivity.
Defined.

Lemma type_closed_exits_without_ack_witness :
  ∃ st1,
    writerLoop demoConfig demoTracer [Recv demoTransaction; Recv demoTransaction]
      (demoState [Some ErrNotConnected; Some ErrTypeClosed; None]
         [mkConnectResp None false false] [])
    = Done st1
    ∧ acks (trace st1) = [].
Proof.
  destruct (type_closed_exits_without_ack demoConfig demoTracer demoTransaction
              (demoState [Some ErrNotConnected; Some ErrTypeClosed; None]
                 [mkConnectResp None false false] [])
              _ _ _ _ eq_refl eq_refl
              ltac:(do 5 apply list_elem_of_further; apply list_elem_of_here))
    as (_ & _ & Hacks & Hloop).
  eexists. split; [apply Hloop|]. exact Hacks.
Defined.

Lemma span_injection_failure_keeps_original_witness :
  ∃ (payload : list (option part)) st',
    processTransaction demoConfig demoTracer demoTransaction (demoState [None] [] [])
    = Done (st', Continue)
    ∧ acks (trace st') = [(7, None)]
    ∧ payload !! 0 = Some (Some (NewPart "foo")).
Proof.
  destruct (span_injection_failure_keeps_original demoConfig demoTracer failFirst
              demoTransaction (demoState [None] [] []) None [] eq_refl eq_refl
              ltac:(discriminate) ltac:(discriminate))
    as (payload & st' & evs & Hrun & Htr & _ & Hacks & _ & Hat).
  exists payload, st'. split; [exact Hrun|]. split.
  - rewrite Htr. exact Hacks.
  - exact (proj1 (Hat 0 (NewPart "foo") (ErrNew "boom") eq_refl eq_refl)).
Defined.

Lemma reconnect_exclusive_and_race_resolved_witness :
  (∃ st1,
     connectLoop [Some (NewPart "foo")]
       (demoState [Some (ErrNew "rejected")] [] [true])
     = Done (st1, Some (ErrNew "rejected"))
     ∧ connects (trace st1) = [])
  ∧ reachable 2 demoPool
  ∧ ∀ j q, workers demoPool !! j = Some q → reconnecting q = true → j = 0.
Proof.
  assert (Hreach : reachable 2 demoPool).
  { eapply (reach_step 2 _ _ 0);
      [eapply (reach_step 2 _ _ 1);
        [eapply (reach_step 2 _ _ 0);
          [eapply (reach_step 2 _ _ 1);
            [eapply (reach_step 2 _ _ 0); [apply reach_start|]|]|]|]|].
    - by apply (step_enter 0 (startPool 2)).
    - by apply (step_enter 1 (mkPool true None [AtStore; InWriterLoop])).
    - by apply (step_store 0 (mkPool true None [AtStore; AtStore])).
    - by apply (step_store 1 (mkPool false None [AtLock; AtStore])).
    - by apply (step_lock 0 (mkPool false None [AtLock; AtLock])). }
  pose proof reconnect_exclusive_and_race_resolved
    as (Hmutex & _ & _ & _ & _ & Hrace & _).
  split; [|split; [exact Hreach|]].
  - destruct (Hrace [Some (NewPart "foo")]
                (demoState [Some (ErrNew "rejected")] [] [true])
                (Some (ErrNew "rejected")) [] [] eq_refl eq_refl ltac:(discriminate))
      as (st1 & Hrun & Htr & _).
    exists st1. split; [exact Hrun|]. rewrite Htr. reflexivity.
  - intros j q Hj Hq.
    exact (Hmutex 2 demoPool j 0 q AtLoad Hreach Hj eq_refl Hq eq_refl).
Defined.

(** C9 as stated fails for a worker that finds the connection lost after
    a peer has already restored it.  Worker 0 reconnects, writes (the
    flag is 1) and unlocks; worker 1 then enters, stores 0, takes the
    mutex, reads 0 and stands before initConnection without having
    re-attempted its write.  In connectLoop: entered with the flag at 1
    and no peer storing it afterwards, the first sink call is
    ConnectWithContext, the write comes after it. *)
Lemma reconnect_exclusive_and_race_resolved_counterexample :
  reachable 2 (mkPool true (Some 0) [AtReturn None; InWriterLoop])
  ∧ step 0 (mkPool true (Some 0) [AtReturn None; InWriterLoop])
           (mkPool true None [InWriterLoop; InWriterLoop])
  ∧ rtc (step 1) (mkPool true None [InWriterLoop; InWriterLoop])
                 (mkPool false (Some 1) [InWriterLoop; AtInit])
  ∧ isConnected (demoState [None] [mkConnectResp None false false] []) = true
  ∧ ∃ st1,
      connectLoop [Some (NewPart "foo")]
        (demoState [None] [mkConnectResp None false false] [])
      = Done (st1, None)
      ∧ trace st1 = [EvIncr "output_connection_lost"; EvConnect None;
                     EvWrite [Some (NewPart "foo")] None;
                     EvIncr "output_connection_up"].
Proof.
  split; [|split; [|split; [|split; [done|]]]].
  - eapply (reach_step 2 _ _ 0);
      [eapply (reach_step 2 _ _ 0);
        [eapply (reach_step 2 _ _ 0);
          [eapply (reach_step 2 _ _ 0);
            [eapply (reach_step 2 _ _ 0);
              [eapply (reach_step 2 _ _ 0); [apply reach_start|]|]|]|]|]|].
    + by apply (step_enter 0 (startPool 2)).
    + by apply (step_store 0 (mkPool true None [AtStore; InWriterLoop])).
    + by apply (step_lock 0 (mkPool false None [AtLock; InWriterLoop])).
    + by apply (step_load_lost 0 (mkPool false (Some 0) [AtLoad; InWriterLoop])).
    + by apply (step_init_connected 0 (mkPool false (Some 0) [AtInit; InWriterLoop])).
    + by apply (step_write_return 0 (mkPool false (Some 0) [AtWrite; InWriterLoop]) None).
  - by apply (step_unlock 0 (mkPool true (Some 0) [AtReturn None; InWriterLoop]) None).
  - eapply rtc_l; [by apply (step_enter 1 (mkPool true None [InWriterLoop; InWriterLoop]))|].
    eapply rtc_l; [by apply (step_store 1 (mkPool true None [InWriterLoop; AtStore]))|].
    eapply rtc_l; [by apply (step_lock 1 (mkPool false None [InWriterLoop; AtLock]))|].
    eapply rtc_l; [by apply (step_load_lost 1 (mkPool false (Some 1) [InWriterLoop; AtLoad]))|].
    done.
  - eexists. split; reflexivity.
Qed.
End AsyncWriterFacts.

Module AutoRetryFacts.
Import AutoRetry.


Lemma wf_new ups : wf (NewBuffer ups).
Proof.
  repeat split; simpl; try constructor.
  intros a e Ha. by apply elem_of_nil in Ha.
Qed.

Lemma serveNacked_spec g : ∀ l e l',
  serveNacked g l = Some (e, l') →
  ∃ l1 l2, l = l1 ++ e :: l2
           ∧ l' = l1 ++ mkEntry (seqno e) (msg e) (ackFn e) (Some g) :: l2
           ∧ waiting e = None
           ∧ Forall (λ e', waiting e' ≠ None) l1.
Proof.
  induction l as [|x l IH]; intros e l'; simpl; [done|].
  destruct (waiting x) as [gx|] eqn:Hx.
  - destruct (serveNacked g l) as [[e0 l0]|] eqn:Hs; [|done].
    intros [= <- <-]. destruct (IH _ _ eq_refl) as (l1 & l2 & -> & -> & Hw & Hall).
    exists (x :: l1), l2. repeat split; auto. constructor; [congruence|done].
  - intros [= <- <-]. exists [], l. repeat split; auto.
Qed.

Lemma serveNacked_filter g : ∀ l e rest,
  filter (λ e, waiting e = None) l = e :: rest →
  ∃ l', serveNacked g l = Some (e, l')
        ∧ filter (λ e, waiting e = None) l' = rest.
Proof.
  induction l as [|x l IH]; intros e rest; simpl; [done|].
  rewrite filter_cons. destruct (decide (waiting x = None)) as [Hx|Hx].
  - intros [= -> <-]. rewrite Hx. eexists. split; [done|].
    rewrite filter_cons. simpl. done.
  - intros Hf. destruct (waiting x) as [gx|] eqn:Hwx; [|done].
    destruct (IH _ _ Hf) as (l' & -> & Hl'). eexists. split; [done|].
    rewrite filter_cons. case_decide as Hn; [|by f_equal]. congruence.
Qed.

Lemma wf_Read st : wf st → wf (Read st).2.
Proof.
  intros (Hsorted & Hlt & Hacks & Hnd & Hdisj). unfold Read.
  destruct (serveNacked (nextGroup st) (pending st)) as [[e l']|] eqn:Hs.
  - apply serveNacked_spec in Hs as (l1 & l2 & Hl & -> & _ & _). simpl.
    rewrite Hl in Hsorted, Hlt, Hdisj.
    repeat split; simpl; auto.
    + by rewrite fmap_app, fmap_cons in *.
    + apply Forall_app in Hlt as [H1 H2]. apply Forall_cons in H2 as [H2 H3].
      apply Forall_app. split; [done|]. by constructor.
    + intros a e' Ha He'. apply elem_of_app in He' as [He'|He'].
      * apply Hdisj; [done|]. set_solver.
      * apply elem_of_cons in He' as [->|He']; simpl.
        -- apply (Hdisj a e); [done|]. set_solver.
        -- apply Hdisj; [done|]. set_solver.
  - destruct (upstream st) as [|[err|b ret] rest]; simpl.
    + repeat split; auto.
    + repeat split; auto.
    + repeat split; simpl; auto.
      * rewrite fmap_app. simpl. apply StronglySorted_app_2; [|done|repeat constructor].
        intros x1 x2 Hx1 Hx2. apply list_elem_of_singleton in Hx2 as ->.
        apply list_elem_of_fmap in Hx1 as (e & -> & He).
        by apply (proj1 (Forall_forall _ _) Hlt).
      * apply Forall_app. split.
        -- eapply Forall_impl; [exact Hlt|]. simpl. intros; lia.
        -- repeat constructor.
      * eapply Forall_impl; [exact Hacks|]. simpl. intros a [? ?]. split; [lia|done].
      * intros a e Ha He. apply elem_of_app in He as [He|He]; [by apply Hdisj|].
        apply list_elem_of_singleton in He as ->. simpl.
        pose proof (proj1 (Forall_forall _ _) Hacks a Ha) as [? _]. lia.
Qed.

Lemma StronglySorted_fmap_filter {A} (f : A → nat) (P : A → Prop)
    `{∀ x, Decision (P x)} (l : list A) :
  StronglySorted lt (f <$> l) → StronglySorted lt (f <$> filter P l).
Proof.
  induction l as [|x l IH]; simpl; [done|].
  intros Hs. apply StronglySorted_inv in Hs as [Hs Hall].
  rewrite filter_cons. destruct (decide (P x)); [|auto].
  simpl. constructor; [auto|].
  rewrite Forall_forall in *. intros y Hy. apply Hall.
  apply list_elem_of_fmap in Hy as (z & -> & Hz).
  apply list_elem_of_filter in Hz as [_ Hz]. by apply list_elem_of_fmap_2.
Qed.

Lemma liveCopy_true h e :
  liveCopy h e = true → seqno e = hseq h ∧ waiting e = Some (hgroup h).
Proof. unfold liveCopy. intros H. by apply bool_decide_eq_true in H. Qed.

(** The two ways an ack callback can end. *)
Lemma Ack_cases h c st :
  (∃ e, e ∈ pending st ∧ seqno e = hseq h ∧ waiting e = Some (hgroup h)
        ∧ positive c = true
        ∧ Ack h c st
          = (ackFn e,
             mkBuffer (filter (λ e', seqno e' ≠ seqno e) (pending st))
               (nextSeq st) (nextGroup st) (upstream st)
               (upstreamAcks st ++ [(seqno e, None)])))
  ∨ (∃ e c', e ∈ pending st ∧ seqno e = hseq h ∧ waiting e = Some (hgroup h)
        ∧ positive c = false ∧ c = Some c'
        ∧ Ack h c st
          = (None,
             mkBuffer
               ((λ e', if decide (seqno e' = seqno e)
                       then mkEntry (seqno e) (retainedAfter (hgroup h) (msg e) c')
                              (ackFn e) None
                       else e') <$> pending st)
               (nextSeq st) (nextGroup st) (upstream st) (upstreamAcks st)))
  ∨ ((∀ e, e ∈ pending st → ¬ (seqno e = hseq h ∧ waiting e = Some (hgroup h)))
     ∧ Ack h c st = (None, st)).
Proof.
  unfold Ack.
  destruct (list_find (λ e, liveCopy h e = true) (pending st)) as [[i e]|] eqn:Hfind.
  - apply list_find_Some in Hfind as (Hi & Hlive & _).
    apply liveCopy_true in Hlive as [Hseq Hw].
    assert (e ∈ pending st) by (by eapply list_elem_of_lookup_2).
    destruct (positive c) eqn:Hpos.
    + left. exists e. done.
    + right. left. destruct c as [c'|]; [|done]. exists e, c'. done.
  - right. right. split; [|done].
    apply list_find_None in Hfind. rewrite Forall_forall in Hfind.
    intros e He Hlive. apply (Hfind e He). unfold liveCopy.
    by apply bool_decide_eq_true.
Qed.

Lemma fmap_seqno_update (e0 : entry) (m : batch) (l : list entry) :
  seqno <$> ((λ e', if decide (seqno e' = seqno e0)
                    then mkEntry (seqno e0) m (ackFn e0) None else e') <$> l)
  = seqno <$> l.
Proof.
  rewrite <- list_fmap_compose. apply list_fmap_ext. intros i x _. simpl.
  destruct (decide _); simpl; congruence.
Qed.

Lemma wf_Ack h c st : wf st → wf (Ack h c st).2.
Proof.
  intros (Hsorted & Hlt & Hacks & Hnd & Hdisj).
  destruct (Ack_cases h c st) as [(e & He & _ & _ & _ & ->)
    |[(e & c' & He & _ & _ & _ & _ & ->)|[_ ->]]]; simpl.
  - pose proof (proj1 (Forall_forall _ _) Hlt e He) as Hlte.
    repeat split; simpl.
    + by apply StronglySorted_fmap_filter.
    + rewrite Forall_forall in *. intros x Hx.
      apply list_elem_of_filter in Hx as [_ Hx]. auto.
    + apply Forall_app. split; [done|]. repeat constructor. done.
    + rewrite fmap_app. simpl. apply NoDup_app. split; [done|].
      split; [|apply NoDup_singleton].
      intros x Hx Hx'. apply list_elem_of_singleton in Hx' as ->.
      apply list_elem_of_fmap in Hx as (a & Ha & Hin).
      by apply (Hdisj a e Hin He).
    + intros a e' Ha He'. apply list_elem_of_filter in He' as [Hne He'].
      apply elem_of_app in Ha as [Ha|Ha]; [by apply Hdisj|].
      apply list_elem_of_singleton in Ha as ->. simpl. congruence.
  - repeat split; simpl; auto.
    + by rewrite fmap_seqno_update.
    + rewrite Forall_forall in *. intros x Hx.
      apply list_elem_of_fmap in Hx as (y & -> & Hy).
      destruct (decide _); simpl; auto.
    + intros a x Ha Hx. apply list_elem_of_fmap in Hx as (y & -> & Hy).
      destruct (decide _) as [Heq|]; simpl; [|by apply Hdisj].
      rewrite <- Heq. by apply Hdisj.
  - done.
Qed.

Lemma wf_apply o st : wf st → wf (apply o st).
Proof. destruct o; [apply wf_Read|apply wf_Ack]. Qed.

Lemma wf_run ops : ∀ st, wf st → wf (run ops st).
Proof.
  unfold run. induction ops as [|o ops IH]; intros st Hwf; simpl; [done|].
  apply IH. by apply wf_apply.
Qed.

Lemma reachable_wf ups ops : wf (run ops (NewBuffer ups)).
Proof. apply wf_run, wf_new. Qed.

Lemma Read_upstreamAcks st : upstreamAcks (Read st).2 = upstreamAcks st.
Proof.
  unfold Read. destruct (serveNacked _ _) as [[e l']|]; [done|].
  by destruct (upstream st) as [|[|]].
Qed.

(** C4 (amended).  In every state the buffer can reach, no entry has had
    its upstream ack callback invoked twice, and every invocation was with
    nil; Read invokes none.  An ack callback invokes the upstream ack, with
    nil, exactly when its cause is positive and its copy is the one of the
    entry that still awaits its outcome (every earlier copy was nacked);
    the caller then gets what the upstream ack returns and the entry is
    removed.  In every other case the callback returns nil. *)
Theorem upstream_ack_once ups ops :
  let st := run ops (NewBuffer ups) in
  NoDup (upstreamAcks st).*1
  ∧ (∀ a, a ∈ upstreamAcks st → a.2 = None)
  ∧ upstreamAcks (Read st).2 = upstreamAcks st
  ∧ ∀ h c,
      let live := ∃ e, e ∈ pending st ∧ seqno e = hseq h
                       ∧ waiting e = Some (hgroup h) in
      (live → positive c = true →
         ∃ e, e ∈ pending st ∧ seqno e = hseq h
              ∧ (Ack h c st).1 = ackFn e
              ∧ upstreamAcks (Ack h c st).2 = upstreamAcks st ++ [(hseq h, None)]
              ∧ ∀ e', e' ∈ pending (Ack h c st).2 → seqno e' ≠ hseq h)
      ∧ (¬ (live ∧ positive c = true) →
           (Ack h c st).1 = None
           ∧ upstreamAcks (Ack h c st).2 = upstreamAcks st).
Proof.
  intros st. destruct (reachable_wf ups ops) as (_ & _ & Hacks & Hnd & _).
  fold st in Hacks, Hnd. split; [done|]. split.
  { rewrite Forall_forall in Hacks. intros a Ha. by apply Hacks. }
  split; [apply Read_upstreamAcks|].
  intros h c live.
  destruct (Ack_cases h c st) as [(e & He & Hseq & Hw & Hpos & ->)
    |[(e & c' & He & Hseq & Hw & Hpos & _ & ->)|[Hnone ->]]]; simpl.
  - split.
    + intros _ _. exists e. rewrite Hseq. repeat split; auto.
      intros e' He'. apply list_elem_of_filter in He' as [Hne _]. congruence.
    + intros Hnot. exfalso. apply Hnot. split; [by exists e|done].
  - split.
    + intros _ Hp. congruence.
    + done.
  - split.
    + intros (e & He & Hlive) _. by destruct (Hnone e He).
    + done.
Qed.

Lemma upstream_ack_once_witness :
  (Ack (mkHandle 0 0) None (run [OpRead] (NewBuffer fiveReader))).1
  = Some (ErrNew "ack propagated")
  ∧ upstreamAcks (Ack (mkHandle 0 0) None (run [OpRead] (NewBuffer fiveReader))).2
    = [(0, None)].
Proof.
  destruct (proj1 (proj2 (proj2 (proj2 (upstream_ack_once fiveReader [OpRead])))
                     (mkHandle 0 0) None)) as (e & He & _ & Hret & Hacks & _).
  - eexists. split; [apply list_elem_of_here|]. split; reflexivity.
  - reflexivity.
  - apply list_elem_of_singleton in He. subst e. split; [exact Hret|exact Hacks].
Defined.

(** C4 as stated fails: after a read, a nack, the re-serve and its
    positive ack, the upstream ack has been invoked with nil although the
    first served copy was never positively acked. *)
Lemma upstream_ack_once_counterexample :
  ¬ (∀ s, (s, None) ∈ upstreamAcks (run scenarioRetry (NewBuffer scenarioReader)) →
       ∀ h, h ∈ served scenarioRetry (NewBuffer scenarioReader) → hseq h = s →
         positivelyAcked scenarioRetry h).
Proof.
  intros Hclaim.
  destruct (Hclaim 0 ltac:(vm_compute; apply list_elem_of_here) (mkHandle 0 0)
              ltac:(vm_compute; apply list_elem_of_here) eq_refl) as (c & Hin & Hpos).
  unfold scenarioRetry in Hin.
  repeat (apply elem_of_cons in Hin as [Hin|Hin]; [by simplify_eq|]).
  by apply elem_of_nil in Hin.
Qed.

Lemma NewSortGroup_lookup g (m : batch) i p :
  m !! i = Some p →
  ∃ p', NewSortGroup g m !! i = Some p' ∧ GetIndex g p' = Some i.
Proof.
  intros Hp. unfold NewSortGroup. rewrite list_lookup_imap, Hp. simpl.
  eexists. split; [done|]. unfold GetIndex. simpl.
  by destruct (decide (g = g)).
Qed.

Lemma NewSortGroup_length g (m : batch) : length (NewSortGroup g m) = length m.
Proof. apply length_imap. Qed.

Lemma failedParts_traced g (m b' : batch) (orig : nat → nat) : ∀ l : list nat,
  (∀ k, k ∈ l → b' !! k = NewSortGroup g m !! orig k ∧ orig k < length m) →
  mapM (λ i, p ← b' !! i; j ← GetIndex g p; m !! j) l
  = Some (omap (λ k, m !! orig k) l).
Proof.
  induction l as [|k l IH]; intros Hall; [done|].
  destruct (Hall k) as [Hk Hlt]; [apply elem_of_cons; by left|].
  destruct (lookup_lt_is_Some_2 m (orig k) Hlt) as [q Hq].
  destruct (NewSortGroup_lookup g m _ _ Hq) as (p' & Hp' & Hidx).
  simpl. rewrite Hk, Hp'. simpl. rewrite Hidx. simpl. rewrite Hq. simpl.
  rewrite IH; [done|]. intros k' Hk'. apply Hall. apply elem_of_cons. by right.
Qed.

Lemma filter_length_eq {A} (P : A → Prop) `{∀ x, Decision (P x)} (l : list A) :
  length (filter P l) = length l → filter P l = l.
Proof.
  induction l as [|x l IH]; [done|]. rewrite filter_cons.
  destruct (decide (P x)); simpl.
  - intros [= Hl]. f_equal. auto.
  - intros Hl. pose proof (length_filter P l). lia.
Qed.

Lemma omap_lookup_seq_app {A} (m : list A) : ∀ pre : list A,
  omap (λ i, (pre ++ m) !! i) (seq (length pre) (length m)) = m.
Proof.
  induction m as [|x m IH]; intros pre; [done|].
  simpl. rewrite list_lookup_middle by done. simpl. f_equal.
  specialize (IH (pre ++ [x])). rewrite <- app_assoc, length_app in IH. simpl in IH.
  by rewrite Nat.add_1_r in IH.
Qed.

Lemma omap_lookup_seq {A} (m : list A) :
  omap (λ i, m !! i) (seq 0 (length m)) = m.
Proof. apply (omap_lookup_seq_app m []). Qed.

Lemma retainedAfter_subseteq g m c : retainedAfter g m c ⊆ m.
Proof.
  destruct c as [e|be]; simpl; [done|].
  destruct (decide _); [done|]. unfold failedParts.
  destruct (mapM _ _) as [r|] eqn:Hr; simpl; [|done].
  apply mapM_Some_1 in Hr. intros y Hy.
  apply list_elem_of_lookup in Hy as [i Hi].
  destruct (Forall2_lookup_r _ _ _ _ _ Hr Hi) as (k & _ & Hf).
  destruct (source be !! k) as [p|]; simpl in Hf; [|done].
  destruct (GetIndex g p) as [j|]; simpl in Hf; [|done].
  by eapply list_elem_of_lookup_2.
Qed.

Lemma within_Read s r st : within s r st → within s r (Read st).2.
Proof.
  intros [Hlt Hin]. unfold Read.
  destruct (serveNacked _ _) as [[e l']|] eqn:Hs; simpl.
  - apply serveNacked_spec in Hs as (l1 & l2 & Hl & -> & _ & _).
    split; [done|]. intros e' He' Hseq. rewrite Hl in Hin.
    apply elem_of_app in He' as [He'|He']; [apply Hin; [set_solver|done]|].
    apply elem_of_cons in He' as [->|He']; simpl in *.
    + apply (Hin e); [set_solver|done].
    + apply Hin; [set_solver|done].
  - destruct (upstream st) as [|[err|b ret] rest]; simpl; [done|done|].
    split; simpl; [lia|]. intros e' He' Hseq.
    apply elem_of_app in He' as [He'|He']; [by apply Hin|].
    apply list_elem_of_singleton in He' as ->. simpl in Hseq. lia.
Qed.

Lemma within_Ack s r h c st : within s r st → within s r (Ack h c st).2.
Proof.
  intros [Hlt Hin].
  destruct (Ack_cases h c st) as [(e & He & _ & _ & _ & ->)
    |[(e & c' & He & _ & _ & _ & _ & ->)|[_ ->]]]; simpl; [| |done].
  - split; [done|]. intros e' He' Hseq.
    apply list_elem_of_filter in He' as [_ He']. by apply Hin.
  - split; [done|]. intros e' He' Hseq.
    apply list_elem_of_fmap in He' as (y & -> & Hy).
    destruct (decide _) as [Heq|]; simpl in *; [|by apply Hin].
    etrans; [apply retainedAfter_subseteq|]. by apply Hin.
Qed.

Lemma within_run s r ops : ∀ st, within s r st → within s r (run ops st).
Proof.
  unfold run. induction ops as [|o ops IH]; intros st Hw; simpl; [done|].
  apply IH. destruct o; [by apply within_Read|by apply within_Ack].
Qed.

Lemma within_served s r st b h :
  within s r st → (Read st).1 = ReadOk b h → hseq h = s →
  ∃ g m', b = NewSortGroup g m' ∧ m' ⊆ r.
Proof.
  intros [Hlt Hin]. unfold Read.
  destruct (serveNacked _ _) as [[e l']|] eqn:Hs; simpl.
  - apply serveNacked_spec in Hs as (l1 & l2 & Hl & _ & _ & _).
    intros [= <- <-] Hseq. simpl in Hseq. eexists _, _. split; [done|].
    apply Hin; [|done]. rewrite Hl. set_solver.
  - destruct (upstream st) as [|[err|b' ret] rest]; simpl; [done|done|].
    intros [= <- <-] Hseq. simpl in Hseq. lia.
Qed.

Lemma positive_Partial be : failedIndices be ≠ [] → positive (Some (Partial be)) = false.
Proof. intros Hne. simpl. by apply bool_decide_eq_false. Qed.

Lemma failedIndices_lt be k : k ∈ failedIndices be → k < length (source be).
Proof.
  unfold failedIndices. intros Hk. apply list_elem_of_filter in Hk as [_ Hk].
  apply elem_of_seq in Hk. lia.
Qed.

(** What Read serves is the tagged copy of an entry that now waits for the
    outcome of that copy. *)
Lemma Read_served st b h st' :
  Read st = (ReadOk b h, st') →
  ∃ e, e ∈ pending st' ∧ seqno e = hseq h ∧ waiting e = Some (hgroup h)
       ∧ b = NewSortGroup (hgroup h) (msg e).
Proof.
  unfold Read. destruct (serveNacked _ _) as [[e l']|] eqn:Hs.
  - apply serveNacked_spec in Hs as (l1 & l2 & _ & -> & _ & _).
    intros [= <- <- <-]. simpl.
    exists (mkEntry (seqno e) (msg e) (ackFn e) (Some (nextGroup st))).
    split; [set_solver|done].
  - destruct (upstream st) as [|[err|b' ret] rest]; [done|done|].
    intros [= <- <- <-]. simpl.
    exists (mkEntry (nextSeq st) b' ret (Some (nextGroup st))).
    split; [set_solver|done].
Qed.

Lemma untag_NewSortGroup g (m : batch) : untag <$> NewSortGroup g m = m.
Proof.
  unfold NewSortGroup. apply list_eq. intros i.
  rewrite list_lookup_fmap, list_lookup_imap.
  destruct (m !! i) as [[d e t]|]; done.
Qed.

Lemma sorted_seqno_unique (l : list entry) e e' :
  StronglySorted lt (seqno <$> l) → e ∈ l → e' ∈ l → seqno e = seqno e' → e = e'.
Proof.
  intros Hsorted He He' Heq.
  assert (Hnd : NoDup (seqno <$> l)).
  { clear -Hsorted. induction Hsorted as [|x l0 _ IH Hall]; [constructor|].
    apply NoDup_cons. split; [|done]. intros Hin.
    rewrite Forall_forall in Hall. specialize (Hall x Hin). lia. }
  apply list_elem_of_lookup in He as [i Hi]. apply list_elem_of_lookup in He' as [j Hj].
  assert (i = j) as ->; [|congruence].
  eapply NoDup_lookup; [exact Hnd| |]; rewrite list_lookup_fmap.
  - by rewrite Hi.
  - rewrite Hj. simpl. by rewrite Heq.
Qed.

Lemma copyOf_Some h st e :
  copyOf h st = Some e →
  e ∈ pending st ∧ seqno e = hseq h ∧ waiting e = Some (hgroup h).
Proof.
  unfold copyOf. destruct (list_find _ _) as [[i x]|] eqn:Hfind; [|done].
  intros [= <-]. apply list_find_Some in Hfind as (Hi & Hlive & _).
  apply liveCopy_true in Hlive as [? ?].
  split; [by eapply list_elem_of_lookup_2|done].
Qed.

Lemma copyOf_intro h st e :
  wf st → e ∈ pending st → seqno e = hseq h → waiting e = Some (hgroup h) →
  copyOf h st = Some e.
Proof.
  intros (Hsorted & _) He Hseq Hw. unfold copyOf.
  destruct (list_find (λ e0, liveCopy h e0 = true) (pending st)) as [[i x]|] eqn:Hfind.
  - apply list_find_Some in Hfind as (Hi & Hlive & _).
    apply liveCopy_true in Hlive as [Hx _]. simpl. f_equal.
    eapply sorted_seqno_unique; [exact Hsorted| |done|congruence].
    by eapply list_elem_of_lookup_2.
  - apply list_find_None in Hfind. rewrite Forall_forall in Hfind.
    exfalso. apply (Hfind e He). unfold liveCopy. by apply bool_decide_eq_true.
Qed.

Lemma Ack_nack h c st e :
  copyOf h st = Some e → positive (Some c) = false →
  Ack h (Some c) st
  = (None,
     mkBuffer
       ((λ e', if decide (seqno e' = seqno e)
               then mkEntry (seqno e) (retainedAfter (hgroup h) (msg e) c) (ackFn e) None
               else e') <$> pending st)
       (nextSeq st) (nextGroup st) (upstream st) (upstreamAcks st)).
Proof.
  unfold copyOf, Ack. destruct (list_find _ _) as [[i x]|]; [|done].
  intros [= ->] ->. done.
Qed.

Lemma filter_all {A} (P : A → Prop) `{∀ x, Decision (P x)} (l : list A) :
  Forall P l → filter P l = l.
Proof.
  induction 1 as [|x l Hx _ IH]; [done|]. by rewrite filter_cons_True, IH.
Qed.

Lemma filter_none {A} (P : A → Prop) `{∀ x, Decision (P x)} (l : list A) :
  Forall (λ x, ¬ P x) l → filter P l = [].
Proof.
  induction 1 as [|x l Hx _ IH]; [done|]. by rewrite filter_cons_False.
Qed.

Lemma nacked_update (e : entry) (m : batch) : ∀ l : list entry,
  StronglySorted lt (seqno <$> l) → e ∈ l → waiting e ≠ None →
  filter (λ x, waiting x = None)
    ((λ x, if decide (seqno x = seqno e)
           then mkEntry (seqno e) m (ackFn e) None else x) <$> l)
  = filter (λ x, seqno x < seqno e) (filter (λ x, waiting x = None) l)
    ++ mkEntry (seqno e) m (ackFn e) None
    :: filter (λ x, seqno e < seqno x) (filter (λ x, waiting x = None) l).
Proof.
  induction l as [|x l IH]; intros Hsorted He Hw; [by apply elem_of_nil in He|].
  simpl in Hsorted. apply StronglySorted_inv in Hsorted as [Hsorted Hall].
  rewrite Forall_fmap in Hall.
  rewrite fmap_cons.
  destruct (decide (seqno x = seqno e)) as [Heq|Hne].
  - assert (x = e) as ->.
    { apply elem_of_cons in He as [->|He]; [done|].
      rewrite Forall_forall in Hall. specialize (Hall e He). simpl in Hall. lia. }
    assert (Hafter : Forall (λ y, seqno e < seqno y) (filter (λ x, waiting x = None) l)).
    { rewrite Forall_forall in *. intros y Hy. apply list_elem_of_filter in Hy as [_ Hy].
      by apply Hall. }
    rewrite filter_cons_True by done.
    rewrite (filter_cons_False _ e) by done.
    rewrite (filter_none (λ x, seqno x < seqno e)).
    2:{ eapply Forall_impl; [exact Hafter|]. simpl. intros; lia. }
    rewrite (filter_all (λ x, seqno e < seqno x)) by done.
    simpl. f_equal. f_equal.
    apply list_eq. intros i. rewrite list_lookup_fmap.
    destruct (l !! i) as [y|] eqn:Hy; simpl; [|done].
    rewrite decide_False; [done|].
    rewrite Forall_forall in Hall. assert (y ∈ l) by (by eapply list_elem_of_lookup_2).
    specialize (Hall y H). simpl in Hall. lia.
  - assert (He' : e ∈ l).
    { apply elem_of_cons in He as [->|He]; [done|done]. }
    assert (Hlt : seqno x < seqno e).
    { rewrite Forall_forall in Hall. by apply (Hall e He'). }
    specialize (IH Hsorted He' Hw).
    rewrite !(filter_cons _ x).
    destruct (decide (waiting x = None)).
    + rewrite (filter_cons_True (λ y, seqno y < seqno e)) by done.
      rewrite (filter_cons_False (λ y, seqno e < seqno y)) by lia.
      simpl. by rewrite IH.
    + exact IH.
Qed.

Lemma nacked_after_nack h c st e :
  wf st → copyOf h st = Some e → positive (Some c) = false →
  nacked (Ack h (Some c) st).2
  = ahead (hseq h) st
    ++ mkEntry (hseq h) (retainedAfter (hgroup h) (msg e) c) (ackFn e) None
    :: behind (hseq h) st.
Proof.
  intros (Hsorted & _) Hcopy Hpos.
  rewrite (Ack_nack h c st e Hcopy Hpos). simpl.
  apply copyOf_Some in Hcopy as (He & Hseq & Hw).
  unfold nacked, ahead, behind. simpl. rewrite <- Hseq.
  apply nacked_update; [done|done|congruence].
Qed.

Lemma reads_nacked : ∀ pre post st,
  nacked st = pre ++ post →
  ∃ st',
    reads (length pre) st = (imap (λ i e, reserve (nextGroup st + i) e) pre, st')
    ∧ nacked st' = post
    ∧ upstream st' = upstream st
    ∧ nextGroup st' = nextGroup st + length pre
    ∧ upstreamAcks st' = upstreamAcks st.
Proof.
  induction pre as [|e pre IH]; intros post st Hn.
  - exists st. simpl. repeat split; try done; lia.
  - simpl in Hn. unfold nacked in Hn.
    destruct (serveNacked_filter (nextGroup st) _ _ _ Hn) as (l' & Hs & Hl').
    set (st1 := mkBuffer l' (nextSeq st) (S (nextGroup st)) (upstream st) (upstreamAcks st)).
    assert (Hread : Read st = (reserve (nextGroup st) e, st1)).
    { unfold Read. by rewrite Hs. }
    destruct (IH post st1 Hl') as (st' & Hreads & Hpost & Hup & Hg & Hacks).
    exists st'. cbn [reads length]. rewrite Hread, Hreads.
    split.
    { f_equal. simpl. rewrite Nat.add_0_r. f_equal.
      apply imap_ext. intros i x _. simpl. f_equal; lia. }
    repeat split; try done; simpl in Hg; lia.
Qed.

Lemma nack_within h c st e :
  wf st → copyOf h st = Some e → positive (Some c) = false →
  within (hseq h) (retainedAfter (hgroup h) (msg e) c) (Ack h (Some c) st).2.
Proof.
  intros (Hsorted & Hlt & _) Hcopy Hpos.
  rewrite (Ack_nack h c st e Hcopy Hpos). simpl.
  apply copyOf_Some in Hcopy as (He & Hseq & Hw).
  split; simpl.
  - rewrite <- Hseq. by apply (proj1 (Forall_forall _ _) Hlt).
  - intros e' He' Hs. apply list_elem_of_fmap in He' as (y & -> & Hy).
    destruct (decide _) as [|Hne]; simpl in *; [done|].
    exfalso. apply Hne. congruence.
Qed.

Lemma copyOf_apply h o st e :
  wf st → copyOf h st = Some e → (∀ c, o ≠ OpAck h c) →
  copyOf h (apply o st) = Some e.
Proof.
  intros Hwf Hcopy Hother.
  pose proof (copyOf_Some _ _ _ Hcopy) as (He & Hseq & Hw).
  apply copyOf_intro; [by apply wf_apply| |done|done].
  destruct Hwf as (Hsorted & _).
  destruct o as [|h' c']; simpl.
  - unfold Read. destruct (serveNacked _ _) as [[e0 l']|] eqn:Hs; simpl.
    + apply serveNacked_spec in Hs as (l1 & l2 & Hl & -> & Hw0 & _).
      rewrite Hl in He. apply elem_of_app in He as [He|He]; [set_solver|].
      apply elem_of_cons in He as [->|He]; [congruence|set_solver].
    + destruct (upstream st) as [|[err|b ret] rest]; simpl; [done|done|set_solver].
  - assert (Hneq : h' ≠ h) by (intros ->; by apply (Hother c')).
    assert (Hdiff : ∀ e0, e0 ∈ pending st → seqno e0 = hseq h' →
              waiting e0 = Some (hgroup h') → seqno e ≠ seqno e0).
    { intros e0 He0 Hs0 Hw0 Heq. apply Hneq.
      assert (e = e0) as -> by (by eapply sorted_seqno_unique).
      destruct h, h'; simpl in *; congruence. }
    destruct (Ack_cases h' c' st) as [(e0 & He0 & Hs0 & Hw0 & _ & ->)
      |[(e0 & c0 & He0 & Hs0 & Hw0 & _ & _ & ->)|[_ ->]]]; simpl; [| |done].
    + apply list_elem_of_filter. split; [by apply Hdiff|done].
    + apply list_elem_of_fmap. exists e. split; [|done].
      rewrite decide_False; [done|by apply Hdiff].
Qed.

Lemma copyOf_run h e : ∀ ops st,
  wf st → copyOf h st = Some e → (∀ c, OpAck h c ∉ ops) →
  copyOf h (run ops st) = Some e.
Proof.
  unfold run. induction ops as [|o ops IH]; intros st Hwf Hcopy Hno; simpl; [done|].
  apply IH.
  - by apply wf_apply.
  - apply copyOf_apply; [done|done|]. intros c ->. apply (Hno c). by left.
  - intros c Hin. apply (Hno c). by right.
Qed.

Lemma Read_copyOf st b h st1 :
  wf st → Read st = (ReadOk b h, st1) →
  ∃ e, copyOf h st1 = Some e ∧ b = NewSortGroup (hgroup h) (msg e).
Proof.
  intros Hwf Hread.
  destruct (Read_served _ _ _ _ Hread) as (e & He & Hseq & Hw & Hb).
  exists e. split; [|done].
  apply copyOf_intro; [|done..].
  replace st1 with (Read st).2 by (by rewrite Hread). by apply wf_Read.
Qed.


Lemma reachable_Read_wf ups ops b h st1 :
  Read (run ops (NewBuffer ups)) = (ReadOk b h, st1) → wf st1.
Proof.
  intros Hread. replace st1 with (Read (run ops (NewBuffer ups))).2 by (by rewrite Hread).
  apply wf_Read, reachable_wf.
Qed.



Lemma retained_in_order g (m : batch) be :
  source be = NewSortGroup g m →
  retainedAfter g m (Partial be) = omap (λ i, m !! i) (failedIndices be).
Proof.
  intros Hsrc. simpl. destruct (decide _) as [Hfull|Hpart].
  - unfold failedIndices in *.
    assert (Hfull' : length (filter (λ i, is_Some (failedAt be !! i))
                               (seq 0 (length (source be))))
                     = length (seq 0 (length (source be))))
      by (by rewrite length_seq).
    apply filter_length_eq in Hfull'.
    rewrite Hfull', Hsrc, NewSortGroup_length. symmetry. apply omap_lookup_seq.
  - unfold failedParts. rewrite Hsrc.
    rewrite (failedParts_traced g m _ (λ k, k)); [done|].
    intros k Hk. split; [done|]. apply failedIndices_lt in Hk.
    by rewrite Hsrc, NewSortGroup_length in Hk.
Qed.

Lemma untag_lookup g (m : batch) i : untag <$> NewSortGroup g m !! i = m !! i.
Proof. by rewrite <- list_lookup_fmap, untag_NewSortGroup. Qed.

(** The Reads after a nack: first the entries awaiting re-serving that
    were inserted before the nacked entry, then the nacked entry with what
    was retained of it; the wrapped reader is left alone. *)
Lemma nack_then_reads h c st e :
  wf st → copyOf h st = Some e → positive (Some c) = false →
  let st' := (Ack h (Some c) st).2 in
  ∃ st2 st3,
    reads (length (ahead (hseq h) st)) st'
    = (imap (λ i e, reserve (nextGroup st + i) e) (ahead (hseq h) st), st2)
    ∧ Read st2
      = (ReadOk (NewSortGroup (nextGroup st2) (retainedAfter (hgroup h) (msg e) c))
           (mkHandle (hseq h) (nextGroup st2)), st3)
    ∧ upstream st3 = upstream st.
Proof.
  intros Hwf Hcopy Hpos st'.
  pose proof (nacked_after_nack h c st e Hwf Hcopy Hpos) as Hn. fold st' in Hn.
  assert (Hst' : nextGroup st' = nextGroup st ∧ upstream st' = upstream st).
  { subst st'. by rewrite (Ack_nack h c st e Hcopy Hpos). }
  destruct Hst' as [Hg Hu].
  destruct (reads_nacked _ _ st' Hn) as (st2 & Hreads & Hrest & Hup & _).
  rewrite Hg in Hreads.
  destruct (reads_nacked [_] _ st2 Hrest) as (st3 & Hread & _ & Hup3 & _).
  cbn [reads length] in Hread. destruct (Read st2) as [r st2'] eqn:Hr.
  simpl in Hread. rewrite Nat.add_0_r in Hread. simplify_eq.
  exists st2, st3. split; [done|]. split; [done|]. congruence.
Qed.

(** C2 (amended).  A batch served by the buffer is nacked, at whatever
    later point, with a Batch-Error over the served batch whose failed
    index set F is not empty.  Then the Reads that follow re-serve first
    the entries inserted before it that await re-serving, and the Read
    after those returns exactly the parts at the indices of F, in
    ascending order of index; nothing is pulled from the wrapped reader
    meanwhile.  When no entry inserted earlier awaits re-serving, this is
    the very next Read.  Whatever happens afterwards, every batch served
    for this entry consists of parts at indices of F. *)
Theorem partial_nack_reserves_failed ups ops b h st1 ops' be :
  Read (run ops (NewBuffer ups)) = (ReadOk b h, st1) →
  (∀ c, OpAck h c ∉ ops') →
  source be = b →
  failedIndices be ≠ [] →
  let st := run ops' st1 in
  let st' := (Ack h (Some (Partial be)) st).2 in
  let failed := omap (λ i, untag <$> b !! i) (failedIndices be) in
  (∃ st2 st3,
     reads (length (ahead (hseq h) st)) st'
     = (imap (λ i e, reserve (nextGroup st + i) e) (ahead (hseq h) st), st2)
     ∧ Read st2
       = (ReadOk (NewSortGroup (nextGroup st2) failed)
            (mkHandle (hseq h) (nextGroup st2)), st3)
     ∧ upstream st3 = upstream st)
  ∧ (ahead (hseq h) st = [] →
     ∃ st3,
       Read st'
       = (ReadOk (NewSortGroup (nextGroup st) failed)
            (mkHandle (hseq h) (nextGroup st)), st3)
       ∧ upstream st3 = upstream st)
  ∧ (∀ ops'' b' h',
       (Read (run ops'' st')).1 = ReadOk b' h' →
       hseq h' = hseq h →
       untag <$> b' ⊆ failed).
Proof.
  intros Hread Hno Hsrc Hne st st' failed.
  pose proof (reachable_Read_wf _ _ _ _ _ Hread) as Hwf1.
  destruct (Read_copyOf _ _ _ _ (reachable_wf ups ops) Hread) as (e & Hcopy1 & ->).
  assert (Hwf : wf st) by (by apply wf_run).
  assert (Hcopy : copyOf h st = Some e) by (by apply copyOf_run).
  pose proof (positive_Partial _ Hne) as Hpos.
  assert (Hfailed : failed = retainedAfter (hgroup h) (msg e) (Partial be)).
  { rewrite (retained_in_order _ _ _ Hsrc). subst failed.
    apply list_omap_ext, Forall2_same_length_lookup. split; [done|].
    intros i x y Hx Hy. simplify_eq. apply untag_lookup. }
  rewrite Hfailed.
  destruct (nack_then_reads h (Partial be) st e Hwf Hcopy Hpos) as (st2 & st3 & Hreads & Hr & Hup).
  fold st' in Hreads.
  split; [by exists st2, st3|]. split.
  - intros Hahead. rewrite Hahead in Hreads. simpl in Hreads.
    injection Hreads as Hst2. rewrite <- Hst2 in Hr.
    assert (Hg : nextGroup st' = nextGroup st).
    { unfold st'. by rewrite (Ack_nack h _ st e Hcopy Hpos). }
    rewrite Hg in Hr. by exists st3.
  - intros ops'' b' h' Hb' Hh'.
    pose proof (nack_within h (Partial be) st e Hwf Hcopy Hpos) as Hwithin.
    fold st' in Hwithin.
    destruct (within_served (hseq h) _ _ b' h' (within_run _ _ ops'' _ Hwithin) Hb' Hh')
      as (g' & m' & -> & Hsub).
    by rewrite untag_NewSortGroup.
Qed.

Lemma partial_nack_reserves_failed_witness :
  ∃ st2 st3,
    reads 1 (run scenarioBothNacked (NewBuffer twoReader))
    = ([ReadOk (NewSortGroup 2 (QuickBatch ["msg 1"])) (mkHandle 0 2)], st2)
    ∧ Read st2
      = (ReadOk (NewSortGroup 3 (QuickBatch ["bar"; "buz"])) (mkHandle 1 3), st3)
    ∧ upstream st3 = [].
Proof.
  destruct (partial_nack_reserves_failed twoReader [OpRead] laterFive (mkHandle 1 1) _
              [OpAck (mkHandle 0 0) (Some (Whole (ErrNew "failed")))] laterError
              eq_refl)
    as [(st2 & st3 & Hreads & Hread & Hup) _].
  - intros c Hin. apply elem_of_cons in Hin as [Hin|Hin]; [discriminate|].
    by apply elem_of_nil in Hin.
  - reflexivity.
  - vm_compute. discriminate.
  - exists st2, st3. split; [exact Hreads|].
    assert (Hg : nextGroup st2 = 3).
    { apply (f_equal snd) in Hreads. simpl in Hreads. by subst st2. }
    rewrite Hg in Hread. split; [exact Hread|exact Hup].
Defined.

(** C2 as stated fails: two batches are read and both are nacked, the
    second with a Batch-Error over the served batch that marks the
    indices 1 and 3.  The next Read re-serves the first batch, which was
    inserted earlier, and not the parts bar and buz of the second. *)
Lemma partial_nack_reserves_failed_counterexample :
  (Read (run [OpRead] (NewBuffer twoReader))).1 = ReadOk laterFive (mkHandle 1 1)
  ∧ source laterError = laterFive
  ∧ failedIndices laterError = [1; 3]
  ∧ ∃ b h st,
      Read (run scenarioBothNacked (NewBuffer twoReader)) = (ReadOk b h, st)
      ∧ GetAllBytes b = ["msg 1"]
      ∧ GetAllBytes b ≠ ["bar"; "buz"].
Proof.
  split; [reflexivity|]. split; [reflexivity|]. split; [reflexivity|].
  eexists _, _, _. split; [reflexivity|]. split; [reflexivity|]. discriminate.
Qed.

Lemma omap_lookup_reorder {A} (b : list A) : ∀ (perm : list nat) k,
  Forall (λ i, i < length b) perm →
  omap (λ i, b !! i) perm !! k = perm !! k ≫= (λ i, b !! i).
Proof.
  induction perm as [|i perm IH]; intros k Hall; [done|].
  apply Forall_cons in Hall as [Hi Hall].
  destruct (lookup_lt_is_Some_2 b i Hi) as [x Hx].
  simpl. rewrite Hx. destruct k as [|k]; simpl; [done|]. by apply IH.
Qed.

Lemma omap_bind_seq_app {A B} (g : A → option B) (l : list A) : ∀ pre : list A,
  omap (λ k, (pre ++ l) !! k ≫= g) (seq (length pre) (length l)) = omap g l.
Proof.
  induction l as [|x l IH]; intros pre; [done|].
  simpl. rewrite list_lookup_middle by done. simpl.
  specialize (IH (pre ++ [x])). rewrite <- app_assoc, length_app in IH. simpl in IH.
  rewrite Nat.add_1_r in IH. destruct (g x); simpl; [f_equal|]; exact IH.
Qed.

Lemma omap_bind_seq {A B} (g : A → option B) (l : list A) :
  omap (λ k, l !! k ≫= g) (seq 0 (length l)) = omap g l.
Proof. apply (omap_bind_seq_app g l []). Qed.

Lemma reorder_in_range (b : batch) perm :
  perm ≡ₚ seq 0 (length b) → Forall (λ i, i < length b) perm.
Proof.
  intros Hperm. apply Forall_forall. intros i Hi. rewrite Hperm in Hi.
  apply elem_of_seq in Hi. lia.
Qed.

Lemma reorder_length (b : batch) perm :
  perm ≡ₚ seq 0 (length b) → length (omap (λ i, b !! i) perm) = length perm.
Proof.
  intros Hperm. pose proof (reorder_in_range b perm Hperm) as Hall.
  clear Hperm. induction Hall as [|i perm Hi _ IH]; [done|].
  destruct (lookup_lt_is_Some_2 b i Hi) as [x Hx]. simpl. rewrite Hx. simpl.
  f_equal. exact IH.
Qed.

(** What is retained after a nack with a Batch-Error over a re-ordering
    of the served batch. *)
Lemma retained_by_identity g (m : batch) be perm :
  perm ≡ₚ seq 0 (length m) →
  source be = omap (λ i, NewSortGroup g m !! i) perm →
  let identified := omap (λ k, perm !! k ≫= λ i, m !! i) (failedIndices be) in
  retainedAfter g m (Partial be) ≡ₚ identified
  ∧ (length (failedIndices be) ≠ length (source be) →
     retainedAfter g m (Partial be) = identified).
Proof.
  intros Hperm Hsrc identified.
  assert (Hperm' : perm ≡ₚ seq 0 (length (NewSortGroup g m)))
    by (by rewrite NewSortGroup_length).
  pose proof (reorder_in_range _ _ Hperm') as Hrange.
  pose proof (reorder_length _ _ Hperm') as Hlen. rewrite <- Hsrc in Hlen.
  assert (Htraced : failedParts g m be = Some identified).
  { unfold failedParts.
    rewrite (failedParts_traced g m _ (λ k, default 0 (perm !! k))).
    - f_equal. apply list_omap_ext, Forall2_same_length_lookup. split; [done|].
      intros j x y Hx Hy. simplify_eq.
      assert (Hk : x < length perm).
      { rewrite <- Hlen. apply failedIndices_lt. by eapply list_elem_of_lookup_2. }
      destruct (lookup_lt_is_Some_2 perm x Hk) as [i Hi]. by rewrite Hi.
    - intros k Hk. apply failedIndices_lt in Hk. rewrite Hlen in Hk.
      destruct (lookup_lt_is_Some_2 perm k Hk) as [i Hi].
      rewrite Hsrc, omap_lookup_reorder, Hi by done. simpl. split; [done|].
      rewrite Forall_forall in Hrange.
      rewrite <- (NewSortGroup_length g m). apply Hrange.
      by eapply list_elem_of_lookup_2. }
  split.
  - simpl. destruct (decide _) as [Hfull|_]; [|by rewrite Htraced].
    subst identified. unfold failedIndices in *.
    assert (Hfull' : length (filter (λ i, is_Some (failedAt be !! i))
                               (seq 0 (length (source be))))
                     = length (seq 0 (length (source be))))
      by (by rewrite length_seq).
    apply filter_length_eq in Hfull'. rewrite Hfull', Hlen, omap_bind_seq.
    rewrite Hperm. by rewrite omap_lookup_seq.
  - intros Hpart. simpl. destruct (decide _) as [|_]; [done|]. by rewrite Htraced.
Qed.

(** C3.  A batch served by the buffer is re-ordered by the consumer
    ([perm] gives, for each position of the re-ordered batch, the index of
    its part in the served batch) and nacked, at whatever later point, with
    a Batch-Error over the re-ordered batch whose failed index set is not
    empty.  Then the buffer re-serves, after the entries inserted earlier
    that await re-serving and without pulling anything from the wrapped
    reader, exactly the parts that the Sort-Group tokens at the failed
    positions identify, in the order of those positions when not every
    position is marked (when every position is marked, the whole batch);
    and whatever happens afterwards, every batch served for this entry
    consists of such parts.  For the original foo, bar, baz, buz, bev
    re-sorted to bar, buz, foo, bev, baz with failures at 1 and 2 the
    re-served batch is buz, foo. *)
Theorem reordered_nack_reserves_by_identity :
  (∀ ups ops b h st1 ops' be perm,
     Read (run ops (NewBuffer ups)) = (ReadOk b h, st1) →
     (∀ c, OpAck h c ∉ ops') →
     perm ≡ₚ seq 0 (length b) →
     source be = omap (λ i, b !! i) perm →
     failedIndices be ≠ [] →
     let st := run ops' st1 in
     let st' := (Ack h (Some (Partial be)) st).2 in
     let identified :=
       omap (λ k, perm !! k ≫= λ i, untag <$> b !! i) (failedIndices be) in
     ∃ reserved st2 st3,
       reads (length (ahead (hseq h) st)) st'
       = (imap (λ i e, reserve (nextGroup st + i) e) (ahead (hseq h) st), st2)
       ∧ Read st2
         = (ReadOk (NewSortGroup (nextGroup st2) reserved)
              (mkHandle (hseq h) (nextGroup st2)), st3)
       ∧ upstream st3 = upstream st
       ∧ reserved ≡ₚ identified
       ∧ (length (failedIndices be) ≠ length (source be) → reserved = identified)
       ∧ ∀ ops'' b' h',
           (Read (run ops'' st')).1 = ReadOk b' h' →
           hseq h' = hseq h →
           ∀ p, p ∈ untag <$> b' → p ∈ identified)
  ∧ (Read (NewBuffer fiveReader)).1 = ReadOk servedFive (mkHandle 0 0)
  ∧ GetAllBytes servedFive = ["foo"; "bar"; "baz"; "buz"; "bev"]
  ∧ GetAllBytes resorted = ["bar"; "buz"; "foo"; "bev"; "baz"]
  ∧ failedIndices unorderedError = [1; 2]
  ∧ ∃ b h st2,
      Read (Ack (mkHandle 0 0) (Some (Partial unorderedError))
              (Read (NewBuffer fiveReader)).2).2
      = (ReadOk b h, st2)
      ∧ GetAllBytes b = ["buz"; "foo"].
Proof.
  split.
  - intros ups ops b h st1 ops' be perm Hread Hno Hperm Hsrc Hne st st' identified.
    pose proof (reachable_Read_wf _ _ _ _ _ Hread) as Hwf1.
    destruct (Read_copyOf _ _ _ _ (reachable_wf ups ops) Hread) as (e & Hcopy1 & ->).
    assert (Hwf : wf st) by (by apply wf_run).
    assert (Hcopy : copyOf h st = Some e) by (by apply copyOf_run).
    pose proof (positive_Partial _ Hne) as Hpos.
    rewrite NewSortGroup_length in Hperm.
    destruct (retained_by_identity (hgroup h) (msg e) be perm Hperm Hsrc)
      as [Hset Hexact].
    assert (Hid : identified = omap (λ k, perm !! k ≫= λ i, msg e !! i) (failedIndices be)).
    { subst identified. apply list_omap_ext, Forall2_same_length_lookup. split; [done|].
      intros j x y Hx Hy. simplify_eq.
      destruct (perm !! x) as [i|]; simpl; [apply untag_lookup|done]. }
    rewrite Hid.
    destruct (nack_then_reads h (Partial be) st e Hwf Hcopy Hpos)
      as (st2 & st3 & Hreads & Hr & Hup).
    exists (retainedAfter (hgroup h) (msg e) (Partial be)), st2, st3.
    split; [done|]. split; [done|]. split; [done|]. split; [done|]. split; [done|].
    intros ops'' b' h' Hb' Hh' p Hp.
    pose proof (nack_within h (Partial be) st e Hwf Hcopy Hpos) as Hwithin.
    fold st' in Hwithin.
    destruct (within_served (hseq h) _ _ b' h' (within_run _ _ ops'' _ Hwithin) Hb' Hh')
      as (g' & m' & -> & Hsub).
    rewrite untag_NewSortGroup in Hp. rewrite <- Hset. by apply Hsub.
  - split; [reflexivity|]. split; [reflexivity|]. split; [reflexivity|].
    split; [reflexivity|]. eexists _, _, _. split; reflexivity.
Qed.

Lemma reordered_nack_reserves_by_identity_witness :
  ∃ st3,
    Read (Ack (mkHandle 0 0) (Some (Partial unorderedError))
            (Read (NewBuffer fiveReader)).2).2
    = (ReadOk (NewSortGroup 1 (QuickBatch ["buz"; "foo"])) (mkHandle 0 1), st3)
    ∧ upstream st3 = [].
Proof.
  destruct (proj1 reordered_nack_reserves_by_identity fiveReader [] servedFive
              (mkHandle 0 0) _ [] unorderedError resorting eq_refl)
    as (reserved & st2 & st3 & Hreads & Hread & Hup & _ & Hexact & _).
  - intros c Hin. by apply elem_of_nil in Hin.
  - apply (bool_decide_unpack _). vm_compute. exact I.
  - reflexivity.
  - vm_compute. discriminate.
  - exists st3. injection Hreads as <-.
    rewrite (Hexact ltac:(vm_compute; lia)) in Hread.
    split; [exact Hread|exact Hup].
Defined.
End AutoRetryFacts.

Module BranchProcessFacts.
Import Branch BranchRuns BranchFacts.

Lemma skipLoop_bounds sof i s :
  s ≤ length sof →
  s ≤ skipLoop (length sof) sof i s ≤ length sof.
Proof.
  intros Hs. pose proof (skipLoop_spec sof i (length sof) s ltac:(lia)) as H.
  simpl in H. destruct H as (H1 & H2 & _). split; [exact H1|by apply H2].
Qed.

Lemma alignLoop_order sof : ∀ rest i s done m,
  length done = i + s → s ≤ length sof →
  length rest + (length sof - s) ≤ m →
  ∃ R', alignLoop rest i s sof (done ++ replicate m None) = Some (done ++ R')
      ∧ length R' = m ∧ omap id R' = rest.
Proof.
  induction rest as [|p rest IH]; intros i s done m Hlen Hs Hm; simpl.
  - exists (replicate m None). split; [done|].
    split; [by rewrite length_replicate|apply omap_replicate_None].
  - pose proof (skipLoop_bounds sof i s Hs) as [Hge Hle].
    set (s' := skipLoop (length sof) sof i s) in *.
    rewrite length_app, length_replicate. simpl in Hm.
    destruct (decide (i + s' < length done + m)) as [_|Hno]; [|lia].
    assert (Hsplit : <[i + s' := Some p]> (done ++ replicate m None)
              = (done ++ replicate (s' - s) None ++ [Some p])
                  ++ replicate (m - (s' - s) - 1) None).
    { rewrite insert_app_r_alt by lia.
      replace (i + s' - length done) with (s' - s) by lia.
      rewrite <- !app_assoc. f_equal.
      replace m with ((s' - s) + S (m - (s' - s) - 1)) at 1 by lia.
      rewrite replicate_add. rewrite insert_app_r_alt by (rewrite length_replicate; lia).
      rewrite length_replicate. replace (s' - s - (s' - s)) with 0 by lia.
      simpl. reflexivity. }
    rewrite Hsplit.
    destruct (IH (S i) s' (done ++ replicate (s' - s) None ++ [Some p])
                (m - (s' - s) - 1)) as (R'' & Hrun & HlenR & Homap).
    + rewrite !length_app, length_replicate. simpl. lia.
    + exact Hle.
    + lia.
    + exists (replicate (s' - s) None ++ [Some p] ++ R'').
      split; [rewrite Hrun; by rewrite <- !app_assoc|].
      split; [rewrite !length_app, length_replicate; simpl in *; lia|].
      rewrite omap_app, omap_replicate_None. simpl. f_equal. exact Homap.
Qed.

Lemma alignBranchResult_cases n skipped failed result :
  let rLen := length (concat result) + (length skipped + length failed) in
  (rLen ≠ n
   ∧ alignBranchResult n skipped failed result = AlignErr (ErrAlign rLen n))
  ∨ (rLen = n
     ∧ ∃ aligned,
         alignBranchResult n skipped failed result = AlignOk aligned
         ∧ length aligned = n
         ∧ omap id aligned = concat result).
Proof.
  intros rLen. subst rLen.
  destruct (decide (length (concat result) + (length skipped + length failed) = n))
    as [Heq|Hne]; [right|left; split; [done|by apply alignBranchResult_mismatch]].
  split; [done|]. unfold alignBranchResult.
  assert (Hl : length (sortInts (skipped ++ failed)) = length skipped + length failed).
  { rewrite (Permutation_length (sortInts_perm _)). apply length_app. }
  rewrite Hl. destruct (decide _) as [?|_]; [lia|].
  destruct (decide (length skipped + length failed = 0)) as [Hz|Hnz].
  - exists (Some <$> concat result). split; [done|].
    split; [rewrite length_fmap; lia|apply omap_fmap_Some].
  - destruct (alignLoop_order (sortInts (skipped ++ failed)) (concat result) 0 0 [] n)
      as (R & Hrun & HlenR & Homap); [done|lia|rewrite Hl; lia|].
    simpl in Hrun. rewrite Hrun. by exists R.
Qed.

(** X1.  alignBranchResult never writes outside the slice it allocates,
    whatever the skipped and failed indices are: it returns the count
    error when the counts differ, and otherwise a list of the original
    length whose non-nil entries are the parts returned by the child
    processors, in their order. *)
Theorem alignBranchResult_never_panics n skipped failed result :
  let rLen := length (concat result) + (length skipped + length failed) in
  (rLen ≠ n
   ∧ alignBranchResult n skipped failed result = AlignErr (ErrAlign rLen n))
  ∨ (rLen = n
     ∧ ∃ aligned,
         alignBranchResult n skipped failed result = AlignOk aligned
         ∧ length aligned = n
         ∧ omap id aligned = concat result).
Proof. apply alignBranchResult_cases. Qed.


Lemma sorted_lt_snoc (l : list nat) i :
  StronglySorted lt l → (∀ x, x ∈ l → x < i) → StronglySorted lt (l ++ [i]).
Proof.
  intros Hs Hlt. apply StronglySorted_app_2; [|done|repeat constructor].
  intros x y Hx Hy. apply list_elem_of_singleton in Hy as ->. by apply Hlt.
Qed.

Lemma requestLoop_sorted rm ref : ∀ parts i acc,
  StronglySorted lt (skipped acc) → StronglySorted lt (failed acc) →
  (∀ x, x ∈ skipped acc ++ failed acc → x < i) →
  let rq := requestLoop rm i parts ref acc in
  StronglySorted lt (skipped rq) ∧ StronglySorted lt (failed rq).
Proof.
  induction parts as [|p parts IH]; intros i acc Hs Hf Hlt; simpl; [done|].
  assert (Hsk : StronglySorted lt (skipped acc ++ [i])).
  { apply sorted_lt_snoc; [done|]. intros x Hx. apply Hlt, elem_of_app. by left. }
  assert (Hfl : StronglySorted lt (failed acc ++ [i])).
  { apply sorted_lt_snoc; [done|]. intros x Hx. apply Hlt, elem_of_app. by right. }
  assert (Hlt1 : ∀ x, x ∈ (skipped acc ++ [i]) ++ failed acc → x < S i).
  { intros x Hx. rewrite !elem_of_app, list_elem_of_singleton in Hx.
    destruct Hx as [[Hx| ->]|Hx]; [|lia|];
      (assert (x < i) by (apply Hlt, elem_of_app; auto); lia). }
  assert (Hlt2 : ∀ x, x ∈ skipped acc ++ (failed acc ++ [i]) → x < S i).
  { intros x Hx. rewrite !elem_of_app, list_elem_of_singleton in Hx.
    destruct Hx as [Hx|[Hx| ->]]; [| |lia];
      (assert (x < i) by (apply Hlt, elem_of_app; auto); lia). }
  assert (Hlt3 : ∀ x, x ∈ skipped acc ++ failed acc → x < S i).
  { intros x Hx. specialize (Hlt x Hx). lia. }
  destruct p as [q|]; [destruct rm as [f|]; [destruct (f (SetNil q) i ref) as [e| |np]|]|];
    apply IH; simpl; done.
Qed.

(** X2.  The first loop of createResult sorts every index of the batch
    into exactly one class: forwarded to the children, skipped, or failed.
    The skipped and the failed indices are each recorded in ascending
    order, no index is in both, the failed ones are exactly those whose
    request mapping returned an error, and the three classes add up to the
    length of the batch. *)
Theorem createRequests_classifies rm (parts : list (option part)) ref :
  let rq := createRequests rm parts ref in
  StronglySorted lt (skipped rq)
  ∧ StronglySorted lt (failed rq)
  ∧ (∀ i, i ∈ skipped rq → i ∉ failed rq)
  ∧ (∀ i, i ∈ failed rq ↔
          ∃ p, parts !! i = Some p ∧ is_Some (requestFailure rm i p ref))
  ∧ length (newParts rq) + length (skipped rq) + length (failed rq) = length parts.
Proof.
  intros rq.
  destruct (createRequests_spec rm parts ref) as (Hnd & Hbound & Hlen & Hidx & Hsub & Hcov).
  fold rq in Hnd, Hbound, Hlen, Hidx, Hsub, Hcov.
  destruct (requestLoop_sorted rm ref parts 0 (mkRequests [] [] [] [])) as [Hs Hf];
    [constructor|constructor|by intros x Hx; apply elem_of_nil in Hx|].
  split; [exact Hs|]. split; [exact Hf|].
  split.
  { apply NoDup_app in Hnd as (_ & Hdisj & _). exact Hdisj. }
  split; [|lia].
  intros i. split.
  - intros Hi. rewrite <- Hidx in Hi.
    apply list_elem_of_fmap in Hi as (e & -> & He).
    destruct (Hsub e He) as (p & Hp & Hfail). exists p. split; [done|eauto].
  - intros (p & Hp & er & Hfail). rewrite <- Hidx.
    specialize (Hcov i p er Hp Hfail). by apply (list_elem_of_fmap_2 index) in Hcov.
Qed.

Lemma requestLoop_no_map ref : ∀ (l : batch) i acc,
  requestLoop None i (Some <$> l) ref acc
  = mkRequests (newParts acc ++ l) (skipped acc) (failed acc) (mapErrs acc).
Proof.
  induction l as [|p l IH]; intros i acc; simpl.
  - rewrite app_nil_r. by destruct acc.
  - rewrite IH. simpl. by rewrite <- app_assoc.
Qed.

(** X3.  Without a request mapping nothing is skipped and nothing fails:
    the child processors are given every part of the batch, in order, with
    its error slot cleared. *)
Theorem createRequests_without_request_map (msg : batch) :
  createRequests None ((λ p, Some (ErrorSet None p)) <$> msg) msg
  = mkRequests (ErrorSet None <$> msg) [] [] [].
Proof.
  unfold createRequests.
  replace ((λ p, Some (ErrorSet None p)) <$> msg) with (Some <$> (ErrorSet None <$> msg)).
  - by rewrite requestLoop_no_map.
  - rewrite <- list_fmap_compose. done.
Qed.

Lemma failedLoop_spec : ∀ aligned i,
  let out := (failedLoop i aligned).1 in
  let errs := (failedLoop i aligned).2 in
  length out = length aligned
  ∧ (∀ j, out !! j =
          (λ x, match x with
                | Some q => match errslot q with Some _ => None | None => Some q end
                | None => None
                end) <$> aligned !! j)
  ∧ (∀ e, e ∈ errs ↔
          ∃ j q f, aligned !! j = Some (Some q) ∧ errslot q = Some f
                   ∧ e = newBranchMapError (i + j) (ErrWrap "processors failed" f))
  ∧ StronglySorted lt (index <$> errs)
  ∧ (∀ e, e ∈ errs → i ≤ index e).
Proof.
  induction aligned as [|x aligned IH]; intros i; simpl.
  - split; [done|]. split; [done|]. split.
    { intros e. split; [by intros ?%elem_of_nil|].
      intros (j & q & f & Hj & _). by rewrite lookup_nil in Hj. }
    split; [constructor|]. by intros e ?%elem_of_nil.
  - specialize (IH (S i)). destruct (failedLoop (S i) aligned) as [rest' errs'] eqn:Hrec.
    simpl in IH. destruct IH as (IHlen & IHlook & IHerrs & IHsorted & IHge).
    assert (Hshift : ∀ e,
              (∃ j q f, aligned !! j = Some (Some q) ∧ errslot q = Some f
                        ∧ e = newBranchMapError (S i + j) (ErrWrap "processors failed" f))
              → ∃ j q f, (x :: aligned) !! j = Some (Some q) ∧ errslot q = Some f
                        ∧ e = newBranchMapError (i + j) (ErrWrap "processors failed" f)).
    { intros e (j & q & f & Hj & Hq & ->). exists (S j), q, f. simpl.
      repeat split; [done|done|]. f_equal. lia. }
    assert (Hunshift : ∀ e j q f, (x :: aligned) !! S j = Some (Some q) → errslot q = Some f →
              e = newBranchMapError (i + S j) (ErrWrap "processors failed" f) →
              e ∈ errs').
    { intros e j q f Hj Hq ->. apply IHerrs. exists j, q, f. simpl in Hj.
      repeat split; [done|done|]. f_equal. lia. }
    destruct x as [q|]; [destruct (errslot q) as [fail|] eqn:Hfail|]; simpl.
    + split; [by rewrite IHlen|]. split.
      { intros [|j]; simpl; [by rewrite Hfail|apply IHlook]. }
      split.
      { intros e. rewrite elem_of_cons. split.
        - intros [->|He].
          + exists 0, q, fail. simpl. rewrite Nat.add_0_r. done.
          + apply Hshift, IHerrs, He.
        - intros (j & q' & f & Hj & Hq & He). destruct j as [|j].
          + left. simpl in Hj. simplify_eq. by rewrite Nat.add_0_r.
          + right. by eapply Hunshift. }
      split.
      { constructor; [done|]. apply Forall_forall. intros y Hy.
        apply list_elem_of_fmap in Hy as (e & -> & He). specialize (IHge e He). lia. }
      intros e. rewrite elem_of_cons. intros [->|He]; simpl; [lia|].
      specialize (IHge e He). lia.
    + split; [by rewrite IHlen|]. split.
      { intros [|j]; simpl; [by rewrite Hfail|apply IHlook]. }
      split.
      { intros e. split.
        - intros He. apply Hshift, IHerrs, He.
        - intros (j & q' & f & Hj & Hq & He). destruct j as [|j].
          + simpl in Hj. simplify_eq.
          + by eapply Hunshift. }
      split; [done|]. intros e He. specialize (IHge e He). lia.
    + split; [by rewrite IHlen|]. split.
      { intros [|j]; simpl; [done|apply IHlook]. }
      split.
      { intros e. split.
        - intros He. apply Hshift, IHerrs, He.
        - intros (j & q' & f & Hj & Hq & He). destruct j as [|j].
          + simpl in Hj. simplify_eq.
          + by eapply Hunshift. }
      split; [done|]. intros e He. specialize (IHge e He). lia.
Qed.

Lemma overlayLoop_spec rm resultMsg : ∀ (payload : batch) results i,
  length payload = length results →
  let parts := (overlayLoop i rm payload results resultMsg).1 in
  let failed := (overlayLoop i rm payload results resultMsg).2 in
  length parts = length payload
  ∧ (∀ j p, payload !! j = Some p →
       parts !! j =
         Some (match results !! j with
               | Some (Some _) =>
                   match rm p (i + j) resultMsg with MapOk q => q | _ => p end
               | _ => p
               end))
  ∧ (∀ e, e ∈ failed ↔
          ∃ j p r er, payload !! j = Some p ∧ results !! j = Some (Some r)
                      ∧ rm p (i + j) resultMsg = MapFail er
                      ∧ e = newBranchMapError (i + j) (ErrWrap "result mapping failed" er))
  ∧ StronglySorted lt (index <$> failed)
  ∧ (∀ e, e ∈ failed → i ≤ index e).
Proof.
  induction payload as [|p payload IH]; intros results i Hlen.
  - destruct results; [|done]. simpl.
    split; [done|]. split; [by intros j p; rewrite lookup_nil|]. split.
    { intros e. split; [by intros ?%elem_of_nil|].
      intros (j & p & r & er & Hj & _). by rewrite lookup_nil in Hj. }
    split; [constructor|]. by intros e ?%elem_of_nil.
  - destruct results as [|r results]; [done|]. simpl in Hlen.
    specialize (IH results (S i) ltac:(lia)).
    simpl. destruct (overlayLoop (S i) rm payload results resultMsg) as [parts' failed'] eqn:Hrec.
    simpl in IH. destruct IH as (IHlen & IHlook & IHfailed & IHsorted & IHge).
    assert (Hshift : ∀ e, e ∈ failed' →
              ∃ j p0 r0 er, (p :: payload) !! j = Some p0 ∧ (r :: results) !! j = Some (Some r0)
                      ∧ rm p0 (i + j) resultMsg = MapFail er
                      ∧ e = newBranchMapError (i + j) (ErrWrap "result mapping failed" er)).
    { intros e (j & p0 & r0 & er & Hj & Hr & Hrm & ->)%IHfailed.
      exists (S j), p0, r0, er. simpl. replace (i + S j) with (S (i + j)) by lia. done. }
    assert (Hunshift : ∀ e j p0 r0 er,
              (p :: payload) !! S j = Some p0 → (r :: results) !! S j = Some (Some r0) →
              rm p0 (i + S j) resultMsg = MapFail er →
              e = newBranchMapError (i + S j) (ErrWrap "result mapping failed" er) →
              e ∈ failed').
    { intros e j p0 r0 er Hj Hr Hrm ->. apply IHfailed. exists j, p0, r0, er.
      simpl in Hj, Hr. replace (i + S j) with (S (i + j)) in * by lia. done. }
    assert (Hlook' : ∀ j p0, payload !! j = Some p0 →
              parts' !! j =
                Some (match results !! j with
                      | Some (Some _) =>
                          match rm p0 (i + S j) resultMsg with MapOk q => q | _ => p0 end
                      | _ => p0
                      end)).
    { intros j p0 Hj. rewrite (IHlook j p0 Hj).
      by replace (i + S j) with (S (i + j)) by lia. }
    destruct r as [r|]; [destruct (rm p i resultMsg) as [er| |q] eqn:Hrm|]; simpl.
    + split; [by rewrite IHlen|]. split.
      { intros [|j] p0 Hj; simpl in *; [|by apply Hlook'].
        simplify_eq. by rewrite Nat.add_0_r, Hrm. }
      split.
      { intros e. rewrite elem_of_cons. split.
        - intros [->|He]; [|by apply Hshift].
          exists 0, p, r, er. simpl. by rewrite Nat.add_0_r.
        - intros (j & p0 & r0 & er0 & Hj & Hr & Hrm0 & He). destruct j as [|j].
          + left. simpl in Hj, Hr. simplify_eq. rewrite Nat.add_0_r in *. congruence.
          + right. by eapply Hunshift. }
      split.
      { constructor; [done|]. apply Forall_forall. intros y Hy.
        apply list_elem_of_fmap in Hy as (e & -> & He). specialize (IHge e He). simpl. lia. }
      intros e. rewrite elem_of_cons. intros [->|He]; simpl; [lia|].
      specialize (IHge e He). lia.
    + split; [by rewrite IHlen|]. split.
      { intros [|j] p0 Hj; simpl in *; [|by apply Hlook'].
        simplify_eq. by rewrite Nat.add_0_r, Hrm. }
      split.
      { intros e. split; [by apply Hshift|].
        intros (j & p0 & r0 & er0 & Hj & Hr & Hrm0 & He). destruct j as [|j].
        - simpl in Hj, Hr. simplify_eq. rewrite Nat.add_0_r in *. congruence.
        - by eapply Hunshift. }
      split; [done|]. intros e He. specialize (IHge e He). lia.
    + split; [by rewrite IHlen|]. split.
      { intros [|j] p0 Hj; simpl in *; [|by apply Hlook'].
        simplify_eq. by rewrite Nat.add_0_r, Hrm. }
      split.
      { intros e. split; [by apply Hshift|].
        intros (j & p0 & r0 & er0 & Hj & Hr & Hrm0 & He). destruct j as [|j].
        - simpl in Hj, Hr. simplify_eq. rewrite Nat.add_0_r in *. congruence.
        - by eapply Hunshift. }
      split; [done|]. intros e He. specialize (IHge e He). lia.
    + split; [by rewrite IHlen|]. split.
      { intros [|j] p0 Hj; simpl in *; [|by apply Hlook'].
        by simplify_eq. }
      split.
      { intros e. split; [by apply Hshift|].
        intros (j & p0 & r0 & er0 & Hj & Hr & Hrm0 & He). destruct j as [|j].
        - simpl in Hj, Hr. simplify_eq.
        - by eapply Hunshift. }
      split; [done|]. intros e He. specialize (IHge e He). lia.
Qed.

Lemma createResult_cases rm children (parts : list (option part)) ref :
  let rq := createRequests rm parts ref in
  (∃ e, createResult rm children parts ref = Some (mapErrs rq, inl e))
  ∨ (∃ procResults aligned,
       executeChildren children (newParts rq) = inr procResults
       ∧ alignBranchResult (length parts) (skipped rq) (failed rq) procResults
         = AlignOk aligned
       ∧ length aligned = length parts
       ∧ omap id aligned = concat procResults
       ∧ (∀ x, x ∈ skipped rq ++ failed rq → aligned !! x = Some None)
       ∧ createResult rm children parts ref
         = Some (mapErrs rq ++ (failedLoop 0 aligned).2, inr (failedLoop 0 aligned).1)).
Proof.
  intros rq. unfold createResult. fold rq.
  destruct (createRequests_spec rm parts ref) as (Hnd & Hbound & Hlen & _).
  fold rq in Hnd, Hbound, Hlen.
  destruct (executeChildren children (newParts rq)) as [e|procResults] eqn:Hch;
    [left; eauto|].
  destruct (decide (length (concat procResults)
                    + (length (skipped rq) + length (failed rq)) = length parts))
    as [Heq|Hne].
  - right. destruct (alignBranchResult_aligned _ _ _ procResults Hnd Hbound Heq)
      as (aligned & Hal & Hl & Ho & Hn).
    exists procResults, aligned. rewrite Hal.
    destruct (failedLoop 0 aligned) as [out errs]. done.
  - left. rewrite alignBranchResult_mismatch by done. eauto.
Qed.

(** X4.  createResult never passes a failed part on: when it returns
    results, there are as many as parts came in, none of them carries an
    error, and the entries at the skipped and the failed indices are
    nil. *)
Theorem createResult_results_clean rm children (parts : list (option part)) ref
    errs results :
  createResult rm children parts ref = Some (errs, inr results) →
  length results = length parts
  ∧ (∀ q, Some q ∈ results → errslot q = None)
  ∧ (∀ i, i ∈ skipped (createRequests rm parts ref)
             ++ failed (createRequests rm parts ref) →
          results !! i = Some None).
Proof.
  intros Hres.
  destruct (createResult_cases rm children parts ref)
    as [[e He]|(procResults & aligned & _ & _ & Hl & _ & Hn & Hrun)];
    [congruence|].
  rewrite Hrun in Hres. simplify_eq.
  destruct (failedLoop_spec aligned 0) as (Hlen & Hlook & _).
  split; [by rewrite Hlen|]. split.
  - intros q Hq. apply list_elem_of_lookup in Hq as [j Hj].
    rewrite Hlook in Hj. destruct (aligned !! j) as [[r|]|]; simpl in Hj; [|done..].
    destruct (errslot r) eqn:Hr; by simplify_eq.
  - intros i Hi. rewrite Hlook, (Hn i Hi). done.
Qed.

Lemma createResult_results_clean_witness :
  ∃ errs results,
    createResult (Some failFirst) duplicate
      [Some (NewPart "a"); None] twoParts = Some (errs, inr results)
    ∧ length results = 2.
Proof.
  assert (Hrun : createResult (Some failFirst) duplicate
            [Some (NewPart "a"); None] twoParts
          = Some ([newBranchMapError 0 (ErrWrap "request mapping failed" (ErrNew "boom"))],
                  inr [None; None])) by reflexivity.
  eexists _, _. split; [exact Hrun|].
  exact (proj1 (createResult_results_clean _ _ _ _ _ _ Hrun)).
Defined.

Lemma overlayResult_spec resultMap (payload : batch) results :
  (length payload = length results →
   ∃ parts failed,
     overlayResult resultMap payload results = (parts, failed, None)
     ∧ length parts = length payload
     ∧ (∀ i p, payload !! i = Some p →
          parts !! i =
            Some (match resultMap, results !! i with
                  | Some rm, Some (Some _) =>
                      match rm p i results with MapOk q => q | _ => p end
                  | _, _ => p
                  end))
     ∧ StronglySorted lt (index <$> failed)
     ∧ (∀ e, e ∈ failed ↔
             ∃ rm p r er, resultMap = Some rm ∧ payload !! index e = Some p
                          ∧ results !! index e = Some (Some r)
                          ∧ rm p (index e) results = MapFail er
                          ∧ err e = ErrWrap "result mapping failed" er))
  ∧ (length payload ≠ length results →
     overlayResult resultMap payload results
     = (payload, [], Some (ErrDiverged (length results) (length payload)))).
Proof.
  unfold overlayResult. split; intros Hlen.
  - destruct (decide _) as [?|_]; [done|].
    destruct resultMap as [rm|].
    + destruct (overlayLoop_spec rm results payload results 0 Hlen)
        as (Hl & Hlook & Hfailed & Hsorted & _).
      destruct (overlayLoop 0 rm payload results results) as [parts failed].
      simpl in *. exists parts, failed. split; [done|]. split; [done|]. split; [exact Hlook|].
      split; [done|]. intros e. rewrite Hfailed. split.
      * intros (j & p & r & er & Hj & Hr & Hrm & ->). simpl. by exists rm, p, r, er.
      * intros (rm' & p & r & er & [= <-] & Hj & Hr & Hrm & Herr).
        exists (index e), p, r, er. simpl. destruct e; simpl in *. by subst.
    + exists payload, []. split; [done|]. split; [done|]. split; [done|].
      split; [constructor|]. intros e. split; [by intros ?%elem_of_nil|].
      by intros (rm & _ & _ & _ & ? & _).
  - by destruct (decide _).
Qed.

(** X5.  overlayResult, when the counts agree, returns a batch of the
    same length in which a part is replaced only where there is a result
    and the result mapping produced a new part; where the result is nil,
    the mapping failed or it deleted the part, the original part stays.
    The failures it reports are those of the result mapping, in ascending
    order of index.  When the counts differ it changes nothing and
    returns the count error. *)
Theorem overlayResult_pointwise resultMap (payload : batch) results :
  (length payload = length results →
   ∃ parts failed,
     overlayResult resultMap payload results = (parts, failed, None)
     ∧ length parts = length payload
     ∧ (∀ i p, payload !! i = Some p →
          parts !! i =
            Some (match resultMap, results !! i with
                  | Some rm, Some (Some _) =>
                      match rm p i results with MapOk q => q | _ => p end
                  | _, _ => p
                  end))
     ∧ StronglySorted lt (index <$> failed)
     ∧ (∀ e, e ∈ failed ↔
             ∃ rm p r er, resultMap = Some rm ∧ payload !! index e = Some p
                          ∧ results !! index e = Some (Some r)
                          ∧ rm p (index e) results = MapFail er
                          ∧ err e = ErrWrap "result mapping failed" er))
  ∧ (length payload ≠ length results →
     overlayResult resultMap payload results
     = (payload, [], Some (ErrDiverged (length results) (length payload)))).
Proof. apply overlayResult_spec. Qed.


Lemma overlayResult_pointwise_witness :
  ∃ parts failed,
    overlayResult (Some (λ p _ _, MapOk (ErrorSet None p))) twoParts [None; Some (NewPart "r")]
    = (parts, failed, None)
    ∧ parts !! 0 = Some (NewPart "a").
Proof.
  destruct (proj1 (overlayResult_pointwise (Some (λ p _ _, MapOk (ErrorSet None p)))
                     twoParts [None; Some (NewPart "r")]) eq_refl)
    as (parts & failed & Hrun & _ & Hlook & _).
  exists parts, failed. split; [exact Hrun|]. exact (Hlook 0 (NewPart "a") eq_refl).
Defined.

Lemma setMapErrs_fmap {A} (f : part → A) errs :
  (∀ e p, f (ErrorSet e p) = f p) →
  ∀ r, f <$> setMapErrs errs r = f <$> r.
Proof.
  intros Hf. unfold setMapErrs.
  induction errs as [|e errs IH]; intros r; simpl; [done|].
  rewrite IH. apply list_eq. intros i. rewrite !list_lookup_fmap.
  destruct (decide (i = index e)) as [->|Hne].
  - rewrite list_lookup_alter_eq. destruct (r !! index e); simpl; [|done].
    by rewrite Hf.
  - by rewrite list_lookup_alter_ne.
Qed.

Lemma ErrorSet_fmap {A} (f : part → A) e (msg : batch) :
  (∀ e p, f (ErrorSet e p) = f p) → f <$> (ErrorSet e <$> msg) = f <$> msg.
Proof.
  intros Hf. rewrite <- list_fmap_compose. apply list_fmap_ext. intros _ p _. apply Hf.
Qed.

Lemma overlay_lengths (msg : batch) aligned errs :
  length aligned = length msg →
  length (setMapErrs errs msg) = length (failedLoop 0 aligned).1.
Proof.
  intros Hl. rewrite setMapErrs_length.
  destruct (failedLoop_spec aligned 0) as (Hlen & _). simpl in Hlen. lia.
Qed.

Lemma processMessage_length rm resm children (msg : batch) :
  ∃ result,
    ProcessMessage rm resm children msg = Some [result]
    ∧ length result = length msg.
Proof.
  unfold ProcessMessage.
  destruct (createResult_cases rm children ((λ p, Some (ErrorSet None p)) <$> msg) msg)
    as [[e He]|(procResults & aligned & _ & _ & Hl & _ & _ & Hrun)].
  - rewrite He. eexists. split; [done|]. by rewrite setMapErrs_length, length_fmap.
  - rewrite Hrun. rewrite length_fmap in Hl.
    set (errs := mapErrs _ ++ _).
    destruct (proj1 (overlayResult_spec resm (setMapErrs errs msg) (failedLoop 0 aligned).1)
                (overlay_lengths msg aligned errs Hl))
      as (parts & failed & Hov & Hlen & _).
    rewrite Hov. eexists. split; [done|].
    by rewrite setMapErrs_length, Hlen, setMapErrs_length.
Qed.

(** X6.  ProcessMessage always returns exactly one batch, of the length
    of the batch it was given, whatever the mappings and the child
    processors do: no part is dropped or added and no index is out of
    range. *)
Theorem ProcessMessage_one_batch rm resm children (msg : batch) :
  ∃ result,
    ProcessMessage rm resm children msg = Some [result]
    ∧ length result = length msg.
Proof. apply processMessage_length. Qed.


(** X7.  Without a result mapping the branch leaves the contents of the
    batch as they are: the payloads and the tokens of the returned parts
    are those of the parts that came in; only error slots can differ. *)
Theorem ProcessMessage_without_result_map rm children (msg : batch) :
  ∃ result,
    ProcessMessage rm None children msg = Some [result]
    ∧ data <$> result = data <$> msg
    ∧ tags <$> result = tags <$> msg.
Proof.
  unfold ProcessMessage.
  destruct (createResult_cases rm children ((λ p, Some (ErrorSet None p)) <$> msg) msg)
    as [[e He]|(procResults & aligned & _ & _ & Hl & _ & _ & Hrun)].
  - rewrite He. eexists. split; [done|].
    by rewrite !setMapErrs_fmap, !ErrorSet_fmap.
  - rewrite Hrun. rewrite length_fmap in Hl.
    set (errs := mapErrs _ ++ _).
    unfold overlayResult.
    destruct (decide _) as [Hne|_].
    { exfalso. apply Hne. by apply overlay_lengths. }
    eexists. split; [done|]. simpl.
    by rewrite !setMapErrs_fmap.
Qed.

Lemma general_error_lookup rm (msg : batch) e i p :
  let rq := createRequests rm ((λ p, Some (ErrorSet None p)) <$> msg) msg in
  msg !! i = Some p →
  setMapErrs (mapErrs rq) (ErrorSet (Some e) <$> msg) !! i
  = Some (ErrorSet
            (Some (default e (requestFailure rm i (Some (ErrorSet None p)) msg))) p).
Proof.
  intros rq Hp.
  pose proof (createRequests_spec rm ((λ p, Some (ErrorSet None p)) <$> msg) msg)
    as (Hnd & Hbound & Hlen & Hidx & Hsub & Hcov).
  fold rq in Hnd, Hbound, Hlen, Hidx, Hsub, Hcov.
  assert (Hparts : ((λ p, Some (ErrorSet None p)) <$> msg) !! i
                   = Some (Some (ErrorSet None p))).
  { by rewrite list_lookup_fmap, Hp. }
  assert (Hndidx : NoDup (index <$> mapErrs rq)).
  { rewrite Hidx. by apply NoDup_app in Hnd as (_ & _ & ?). }
  destruct (requestFailure rm i (Some (ErrorSet None p)) msg) as [er|] eqn:Hf.
  - pose proof (Hcov i _ er Hparts Hf) as Hin.
    rewrite (setMapErrs_lookup_hit _ i er) by done.
    by rewrite list_lookup_fmap, Hp.
  - rewrite setMapErrs_lookup_other; [by rewrite list_lookup_fmap, Hp|].
    intros e' He' Hi. destruct (Hsub e' He') as (q & Hq & Hfq).
    rewrite Hi in Hq, Hfq. rewrite Hparts in Hq. simplify_eq.
Qed.

(** X8.  When the child processors fail, or return no batch at all, the
    branch returns the batch it was given with that error in the error
    slot of every part, except the parts whose request mapping failed,
    which carry their own error.  The child processors are not run, and
    cannot fail, when no part is forwarded to them. *)
Theorem ProcessMessage_children_failed rm resm children (msg : batch) e :
  let rq := createRequests rm ((λ p, Some (ErrorSet None p)) <$> msg) msg in
  executeChildren children (newParts rq) = inl e →
  newParts rq ≠ []
  ∧ (e = ErrNew "child processors resulted in zero messages"
     ∨ ∃ res, (children (newParts rq)).2 = Some res
              ∧ e = ErrWrap "child processors failed" res)
  ∧ ∃ result,
      ProcessMessage rm resm children msg = Some [result]
      ∧ ∀ i p, msg !! i = Some p →
          result !! i =
            Some (ErrorSet
                    (Some (default e
                             (requestFailure rm i (Some (ErrorSet None p)) msg))) p).
Proof.
  intros rq Hch. split; [|split].
  - intros Hnil. rewrite Hnil in Hch. done.
  - unfold executeChildren in Hch. destruct (newParts rq) as [|np nps]; [done|].
    destruct (children (np :: nps)) as [procResults res]. simpl.
    destruct (decide (length procResults = 0)); [left; congruence|].
    destruct res as [r|]; simpl in Hch; [|done]. right. exists r. split; congruence.
  - exists (setMapErrs (mapErrs rq) (ErrorSet (Some e) <$> msg)). split.
    + unfold ProcessMessage, createResult. fold rq. by rewrite Hch.
    + intros i p Hp. by apply general_error_lookup.
Qed.

Lemma ProcessMessage_children_failed_witness :
  ∃ result,
    ProcessMessage (Some failFirst) None failing twoParts = Some [result]
    ∧ result !! 1
      = Some (ErrorSet (Some (ErrWrap "child processors failed" (ErrNew "down")))
                (NewPart "b")).
Proof.
  destruct (ProcessMessage_children_failed (Some failFirst) None failing twoParts
              (ErrWrap "child processors failed" (ErrNew "down")) eq_refl)
    as (_ & _ & result & Hrun & Hat).
  exists result. split; [exact Hrun|]. exact (Hat 1 (NewPart "b") eq_refl).
Defined.

Lemma sorted_lt_NoDup (l : list nat) : StronglySorted lt l → NoDup l.
Proof.
  induction 1 as [|x l Hs IH Hall]; constructor; [|done].
  intros Hx. rewrite Forall_forall in Hall. specialize (Hall x Hx). lia.
Qed.

Lemma processAligned_lookup rm resm children (msg : batch) procResults aligned :
  let rq := createRequests rm ((λ p, Some (ErrorSet None p)) <$> msg) msg in
  executeChildren children (newParts rq) = inr procResults →
  alignBranchResult (length msg) (skipped rq) (failed rq) procResults = AlignOk aligned →
  ∃ result,
    ProcessMessage rm resm children msg = Some [result]
    ∧ ∀ i p, msg !! i = Some p →
        result !! i =
          Some match aligned !! i with
               | Some (Some r) =>
                   match errslot r with
                   | Some fail => ErrorSet (Some (ErrWrap "processors failed" fail)) p
                   | None =>
                       match resm with
                       | Some f =>
                           match f p i (failedLoop 0 aligned).1 with
                           | MapOk q => q
                           | MapFail er =>
                               ErrorSet (Some (ErrWrap "result mapping failed" er)) p
                           | MapDeleted => p
                           end
                       | None => p
                       end
                   end
               | _ =>
                   match requestFailure rm i (Some (ErrorSet None p)) msg with
                   | Some er => ErrorSet (Some er) p
                   | None => p
                   end
               end.
Proof.
  intros rq Hch Hal.
  pose proof (createRequests_spec rm ((λ p, Some (ErrorSet None p)) <$> msg) msg)
    as (Hnd & Hbound & Hlen & Hidx & Hsub & Hcov).
  fold rq in Hnd, Hbound, Hlen, Hidx, Hsub, Hcov.
  rewrite length_fmap in Hbound, Hlen.
  assert (Hcount : length (concat procResults)
                   + (length (skipped rq) + length (failed rq)) = length msg).
  { destruct (decide (length (concat procResults)
                      + (length (skipped rq) + length (failed rq)) = length msg))
      as [?|Hne]; [done|].
    rewrite alignBranchResult_mismatch in Hal by done. discriminate. }
  destruct (alignBranchResult_aligned _ _ _ procResults Hnd Hbound Hcount)
    as (aligned' & Hal' & Hl & _ & Hnil).
  rewrite Hal in Hal'. injection Hal' as <-.
  destruct (failedLoop_spec aligned 0) as (Holen & Holook & Herrs & Hesorted & _).
  set (out := (failedLoop 0 aligned).1) in *.
  set (errs := (failedLoop 0 aligned).2) in *.
  set (payload := setMapErrs (mapErrs rq ++ errs) msg).
  assert (Hplen : length payload = length out).
  { unfold payload. rewrite setMapErrs_length. lia. }
  destruct (proj1 (overlayResult_spec resm payload out) Hplen)
    as (parts & failed & Hov & Hpartslen & Hparts & Hfsorted & Hfailed).
  exists (setMapErrs failed parts). split.
  { unfold ProcessMessage, createResult. fold rq. rewrite Hch, length_fmap, Hal.
    fold out errs. rewrite (surjective_pairing (failedLoop 0 aligned)).
    fold out errs. fold payload. by rewrite Hov. }
  intros i p Hp.
  assert (Hin : ((λ p, Some (ErrorSet None p)) <$> msg) !! i
                = Some (Some (ErrorSet None p))).
  { by rewrite list_lookup_fmap, Hp. }
  assert (Hilt : i < length aligned).
  { rewrite Hl. by eapply lookup_lt_Some. }
  assert (Hndall : NoDup (index <$> (mapErrs rq ++ errs))).
  { rewrite fmap_app. apply NoDup_app. split; [|split].
    - rewrite Hidx. by apply NoDup_app in Hnd as (_ & _ & ?).
    - intros x Hx Hx'. rewrite Hidx in Hx.
      apply list_elem_of_fmap in Hx' as (e & -> & He).
      apply Herrs in He as (j & q & f & Hj & _ & ->). simpl in Hx.
      rewrite (Hnil j) in Hj; [done|]. apply elem_of_app. by right.
    - by apply sorted_lt_NoDup. }
  assert (Hndf : NoDup (index <$> failed)) by by apply sorted_lt_NoDup.
  assert (Herrs_none : ∀ q, aligned !! i = Some q →
            (∀ r, q = Some r → errslot r = None) →
            ∀ e, e ∈ errs → index e ≠ i).
  { intros q Hq Hclean e (j & r & f & Hj & Hr & ->)%Herrs Hi. simpl in Hi. subst j.
    rewrite Hq in Hj. simplify_eq. specialize (Hclean r eq_refl). congruence. }
  assert (Hreq_none : requestFailure rm i (Some (ErrorSet None p)) msg = None →
            ∀ e, e ∈ mapErrs rq → index e ≠ i).
  { intros Hf e He Hi. destruct (Hsub e He) as (q & Hq & Hfq).
    rewrite Hi in Hq, Hfq. rewrite Hin in Hq. simplify_eq. }
  assert (Hreq_aligned : ∀ r, aligned !! i = Some (Some r) →
            ∀ e, e ∈ mapErrs rq → index e ≠ i).
  { intros r Hr e He Hi. rewrite Hnil in Hr; [done|].
    apply elem_of_app. right. rewrite <- Hidx, <- Hi. by apply list_elem_of_fmap_2. }
  assert (Hno_overlay : out !! i = Some None → ∀ e, e ∈ failed → index e ≠ i).
  { intros Ho e (f & p' & r & er & _ & _ & Hr & _)%Hfailed Hi.
    rewrite Hi, Ho in Hr. done. }
  destruct (aligned !! i) as [[r|]|] eqn:Hai;
    [destruct (errslot r) as [fail|] eqn:Hfail| |by apply lookup_ge_None in Hai; lia].
  - (* the result carries an error *)
    assert (Ho : out !! i = Some None) by (by rewrite Holook, Hai; simpl; rewrite Hfail).
    assert (Hpi : payload !! i
                  = Some (ErrorSet (Some (ErrWrap "processors failed" fail)) p)).
    { unfold payload. rewrite (setMapErrs_lookup_hit _ i (ErrWrap "processors failed" fail));
        [by rewrite Hp|done|].
      apply elem_of_app. right. apply Herrs. by exists i, r, fail. }
    rewrite setMapErrs_lookup_other by auto.
    rewrite (Hparts i _ Hpi), Ho. by destruct resm.
  - (* a clean result *)
    assert (Ho : out !! i = Some (Some r)) by (by rewrite Holook, Hai; simpl; rewrite Hfail).
    assert (Hpi : payload !! i = Some p).
    { unfold payload. rewrite setMapErrs_lookup_other; [done|].
      intros e [He|He]%elem_of_app; [by eapply Hreq_aligned|].
      eapply Herrs_none; [done| |done]. by intros ? [= <-]. }
    destruct resm as [f|].
    + destruct (f p i out) as [er| |q] eqn:Hf.
      * rewrite (setMapErrs_lookup_hit _ i (ErrWrap "result mapping failed" er)); [|done|].
        -- by rewrite (Hparts i p Hpi), Ho, Hf.
        -- apply Hfailed. by exists f, p, r, er.
      * rewrite setMapErrs_lookup_other; [by rewrite (Hparts i p Hpi), Ho, Hf|].
        intros e (f' & p' & r' & er & [= <-] & Hp' & _ & Hr' & _)%Hfailed Hi.
        rewrite Hi in Hp', Hr'. congruence.
      * rewrite setMapErrs_lookup_other; [by rewrite (Hparts i p Hpi), Ho, Hf|].
        intros e (f' & p' & r' & er & [= <-] & Hp' & _ & Hr' & _)%Hfailed Hi.
        rewrite Hi in Hp', Hr'. congruence.
    + rewrite setMapErrs_lookup_other; [by rewrite (Hparts i p Hpi)|].
      by intros e (f' & _ & _ & _ & ? & _)%Hfailed.
  - (* no result: skipped or failed *)
    assert (Ho : out !! i = Some None) by (by rewrite Holook, Hai).
    assert (Hpi : payload !! i
                  = Some match requestFailure rm i (Some (ErrorSet None p)) msg with
                         | Some er => ErrorSet (Some er) p
                         | None => p
                         end).
    { unfold payload.
      destruct (requestFailure rm i (Some (ErrorSet None p)) msg) as [er|] eqn:Hf.
      - rewrite (setMapErrs_lookup_hit _ i er); [by rewrite Hp|done|].
        apply elem_of_app. left. by eapply Hcov.
      - rewrite setMapErrs_lookup_other; [done|].
        intros e [He|He]%elem_of_app; [by eapply Hreq_none|].
        eapply Herrs_none; [done| |done]. done. }
    rewrite setMapErrs_lookup_other by auto.
    rewrite (Hparts i _ Hpi), Ho. by destruct resm.
Qed.

(** X9.  The result of the branch, part by part, when the child results
    line up with the batch.  A part whose result carries an error is
    flagged with "processors failed" and is not mapped; a part with a clean
    result is replaced by what the result mapping makes of it, keeps its
    content with a "result mapping failed" error when the mapping fails,
    and is left as it is when the mapping deletes it or there is none;
    a part without a result keeps its content, with its request mapping
    error if that is why it has none. *)
Theorem ProcessMessage_aligned rm resm children (msg : batch) procResults aligned :
  let rq := createRequests rm ((λ p, Some (ErrorSet None p)) <$> msg) msg in
  executeChildren children (newParts rq) = inr procResults →
  alignBranchResult (length msg) (skipped rq) (failed rq) procResults = AlignOk aligned →
  ∃ result,
    ProcessMessage rm resm children msg = Some [result]
    ∧ ∀ i p, msg !! i = Some p →
        result !! i =
          Some match aligned !! i with
               | Some (Some r) =>
                   match errslot r with
                   | Some fail => ErrorSet (Some (ErrWrap "processors failed" fail)) p
                   | None =>
                       match resm with
                       | Some f =>
                           match f p i (failedLoop 0 aligned).1 with
                           | MapOk q => q
                           | MapFail er =>
                               ErrorSet (Some (ErrWrap "result mapping failed" er)) p
                           | MapDeleted => p
                           end
                       | None => p
                       end
                   end
               | _ =>
                   match requestFailure rm i (Some (ErrorSet None p)) msg with
                   | Some er => ErrorSet (Some er) p
                   | None => p
                   end
               end.
Proof. apply processAligned_lookup. Qed.


Lemma ProcessMessage_aligned_witness :
  ∃ result,
    ProcessMessage (Some failFirst) (Some appendResult) passThrough twoParts
    = Some [result]
    ∧ result !! 1 = Some (NewPart "bb").
Proof.
  destruct (ProcessMessage_aligned (Some failFirst) (Some appendResult) passThrough
              twoParts [[NewPart "b"]] [None; Some (NewPart "b")] eq_refl eq_refl)
    as (result & Hrun & Hat).
  exists result. split; [exact Hrun|]. exact (Hat 1 (NewPart "b") eq_refl).
Defined.

Lemma mapErrs_lookup rm (msg : batch) i p :
  let rq := createRequests rm ((λ p, Some (ErrorSet None p)) <$> msg) msg in
  msg !! i = Some p →
  setMapErrs (mapErrs rq) msg !! i
  = Some match requestFailure rm i (Some (ErrorSet None p)) msg with
         | Some er => ErrorSet (Some er) p
         | None => p
         end.
Proof.
  intros rq Hp.
  pose proof (createRequests_spec rm ((λ p, Some (ErrorSet None p)) <$> msg) msg)
    as (Hnd & Hbound & Hlen & Hidx & Hsub & Hcov).
  fold rq in Hnd, Hbound, Hlen, Hidx, Hsub, Hcov.
  assert (Hparts : ((λ p, Some (ErrorSet None p)) <$> msg) !! i
                   = Some (Some (ErrorSet None p))).
  { by rewrite list_lookup_fmap, Hp. }
  assert (Hndidx : NoDup (index <$> mapErrs rq)).
  { rewrite Hidx. by apply NoDup_app in Hnd as (_ & _ & ?). }
  destruct (requestFailure rm i (Some (ErrorSet None p)) msg) as [er|] eqn:Hf.
  - pose proof (Hcov i _ er Hparts Hf) as Hin.
    rewrite (setMapErrs_lookup_hit _ i er) by done. by rewrite Hp.
  - rewrite setMapErrs_lookup_other; [done|].
    intros e' He' Hi. destruct (Hsub e' He') as (q & Hq & Hfq).
    rewrite Hi in Hq, Hfq. rewrite Hparts in Hq. simplify_eq.
Qed.

Lemma omap_id_nil_lookup {A} (l : list (option A)) i x :
  omap id l = [] → l !! i = Some (Some x) → False.
Proof.
  revert i. induction l as [|y l IH]; intros i Hnil Hi; [by rewrite lookup_nil in Hi|].
  destruct y as [y|]; simpl in Hnil; [done|].
  destruct i as [|i]; simpl in Hi; [done|]. by eapply IH.
Qed.

(** X10.  When no part is forwarded (every part is skipped or fails its
    request mapping), the child processors are not run and have no
    influence: the branch returns the batch it was given, with the
    request mapping errors on the parts that failed. *)
Theorem ProcessMessage_nothing_forwarded rm resm children (msg : batch) :
  let rq := createRequests rm ((λ p, Some (ErrorSet None p)) <$> msg) msg in
  newParts rq = [] →
  ProcessMessage rm resm children msg = Some [setMapErrs (mapErrs rq) msg].
Proof.
  intros rq Hnone.
  assert (Hch : executeChildren children (newParts rq) = inr []) by by rewrite Hnone.
  destruct (alignBranchResult_cases (length msg) (skipped rq) (failed rq) [])
    as [[Hne _]|(_ & aligned & Hal & Hl & Ho)].
  { exfalso. apply Hne.
    pose proof (createRequests_spec rm ((λ p, Some (ErrorSet None p)) <$> msg) msg)
      as (_ & _ & Hlen & _).
    fold rq in Hlen. rewrite length_fmap, Hnone in Hlen. simpl in *. lia. }
  destruct (processAligned_lookup rm resm children msg [] aligned Hch Hal)
    as (result & Hrun & Hat).
  rewrite Hrun. do 2 f_equal.
  destruct (processMessage_length rm resm children msg) as (result' & Hrun' & Hlen').
  rewrite Hrun in Hrun'. injection Hrun' as <-.
  apply list_eq. intros i. unfold rq.
  destruct (msg !! i) as [p|] eqn:Hp.
  - rewrite (Hat i p Hp), (mapErrs_lookup rm msg i p Hp).
    destruct (aligned !! i) as [[r|]|] eqn:Hai; [|done..].
    exfalso. by eapply (omap_id_nil_lookup aligned).
  - apply lookup_ge_None in Hp.
    rewrite (proj2 (lookup_ge_None _ _)) by lia.
    symmetry. apply lookup_ge_None. rewrite setMapErrs_length. lia.
Qed.

Lemma ProcessMessage_nothing_forwarded_witness :
  ProcessMessage (Some deleteAll) (Some appendResult) failing twoParts
  = Some [twoParts].
Proof.
  exact (ProcessMessage_nothing_forwarded (Some deleteAll) (Some appendResult) failing
           twoParts eq_refl).
Defined.
End BranchProcessFacts.

Module WriterLoopFacts.
Import Branch AsyncWriter AsyncWriterLifecycle AsyncWriterFacts.

Lemma incrs_app evs1 evs2 : incrs (evs1 ++ evs2) = incrs evs1 ++ incrs evs2.
Proof. apply omap_app. Qed.

Lemma count_app c evs1 evs2 : count c (evs1 ++ evs2) = count c evs1 + count c evs2.
Proof. unfold count. by rewrite incrs_app, filter_app, length_app. Qed.

Lemma lostWrites_app evs1 evs2 :
  lostWrites (evs1 ++ evs2) = lostWrites evs1 + lostWrites evs2.
Proof. unfold lostWrites. by rewrite writes_app, filter_app, length_app. Qed.

Lemma processTransaction_Done w tracer ts st st1 c :
  processTransaction w tracer ts st = Done (st1, c) →
  ∃ evs res,
    trace st1 = trace st ++ evs
    ∧ ((c = Continue ∧ acks evs = [(tsid ts, res)]
        ∧ res ≠ Some ErrNotConnected ∧ res ≠ Some ErrTypeClosed)
       ∨ (c = Exit ∧ acks evs = [] ∧ res = Some ErrTypeClosed)).
Proof.
  unfold processTransaction. intros Hrun.
  pose proof (injectSpans_logs w (Payload ts) (CreateChildSpans tracer (Payload ts)))
    as [Hlacks _].
  destruct (injectSpans w (Payload ts) (CreateChildSpans tracer (Payload ts)))
    as [payload logs]. simpl in Hlacks.
  destruct (writeWithReconnect payload (emit (EvLog "trace" None :: logs) st))
    as [|[st2 res]] eqn:Hw; [done|].
  apply writeWithReconnect_Done in Hw as (evs & Htr & Hphase).
  destruct Hphase as (Hack & k & Hphase).
  simpl in Htr. injection Hrun as Hrun.
  assert (Hnc : res ≠ Some ErrNotConnected).
  { destruct Hphase as [[_ ?]|[_ ->]]; done. }
  unfold completeTransaction in Hrun.
  destruct res as [e|].
  - destruct (decide (e = ErrTypeClosed)) as [->|Hne].
    + simplify_eq. exists ((EvLog "trace" None :: logs) ++ evs), (Some ErrTypeClosed).
      split; [by rewrite Htr, <- app_assoc|]. right.
      split; [done|]. split; [|done]. rewrite acks_app, Hack. simpl. by rewrite Hlacks.
    + assert (Hst : st1 = emit [if decide (typeStr w ≠ "reject")
                                then EvLog "error" (Some e) else EvLog "debug" (Some e);
                                EvFinish (length (CreateChildSpans tracer (Payload ts)));
                                EvAck (tsid ts) (Some e)] st2 ∧ c = Continue).
      { destruct e; simplify_eq; done. }
      destruct Hst as [-> ->].
      eexists _, (Some e). split.
      { simpl. rewrite Htr, <- !app_assoc. reflexivity. }
      left. split; [done|]. split; [|split; [done|congruence]].
      rewrite !acks_app, Hack. simpl. rewrite Hlacks. simpl.
      by destruct (decide (typeStr w ≠ "reject")).
  - simplify_eq. eexists _, None. split.
    { simpl. rewrite Htr, <- !app_assoc. reflexivity. }
    left. split; [done|]. split; [|done].
    rewrite !acks_app, Hack. simpl. by rewrite Hlacks.
Qed.

(** X12.  The at-leisure shutdown signal ends a worker like a closed
    channel: what is in the channel after it is neither written nor
    acknowledged. *)
Theorem writerLoop_stops_at_close w tracer pre post st :
  writerLoop w tracer (pre ++ CloseAtLeisure :: post) st = writerLoop w tracer pre st.
Proof.
  revert st. induction pre as [|ev pre IH]; intros st; simpl; [done|].
  destruct ev as [ts|]; [|done].
  destruct (processTransaction w tracer ts st) as [|[st1 [|]]]; [done| |done].
  apply IH.
Qed.

Lemma filter_replicate_eq (c : string) n :
  length (filter (λ x, x = c) (replicate n c)) = n.
Proof.
  induction n as [|n IHn]; [done|].
  change (replicate (S n) c) with (c :: replicate n c).
  rewrite filter_cons_True by done. simpl. by rewrite IHn.
Qed.

Lemma initConnectionLoop_outcome : ∀ cs evs ok rest evs',
  initConnectionLoop cs evs = Done (ok, rest, evs') →
  ∃ retried last new,
    cs = retried ++ last :: rest
    ∧ Forall (λ r, is_Some (cerr r) ∧ countedFailure r = true ∧ ctxDone r = false) retried
    ∧ (ok = true ↔ cerr last = None)
    ∧ (ok = false → countedFailure last = false ∨ ctxDone last = true)
    ∧ evs' = evs ++ new
    ∧ connects new = cerr <$> (retried ++ [last])
    ∧ writes new = [] ∧ acks new = []
    ∧ incrs new
      = replicate (length retried + (if countedFailure last then 1 else 0))
          "output_connection_failed".
Proof.
  induction cs as [|r cs IH]; intros evs ok rest evs' Hrun; simpl in Hrun; [done|].
  unfold countedFailure.
  destruct (cerr r) as [e|] eqn:He.
  - destruct (closing r || bool_decide (e = ErrTypeClosed)) eqn:Hstop.
    + simplify_eq. exists [], r, [EvConnect (Some e)].
      unfold countedFailure. rewrite He, Hstop. simpl.
      repeat split; try done; try congruence; try (by rewrite He); intros _; by left.
    + destruct (ctxDone r) eqn:Hctx.
      * simplify_eq.
        exists [], r, [EvConnect (Some e); EvLog "error" (Some e);
                       EvIncr "output_connection_failed"].
        unfold countedFailure. rewrite He, Hstop. simpl.
        repeat split; try done; try congruence; try (by rewrite He); intros _; by right.
      * apply IH in Hrun
          as (retried & last & new & -> & Hall & Hok & Hno & -> & Hc & Hw & Ha & Hi).
        exists (r :: retried), last,
          ([EvConnect (Some e); EvLog "error" (Some e);
            EvIncr "output_connection_failed"] ++ new).
        split; [done|]. split.
        { constructor; [|done]. unfold countedFailure. rewrite He, Hstop. eauto. }
        split; [done|]. split; [done|]. split; [by rewrite <- app_assoc|].
        rewrite connects_app, writes_app, acks_app, incrs_app, Hc, Hw, Ha, Hi.
        simpl. by rewrite He.
  - simplify_eq. exists [], r, [EvConnect None].
    unfold countedFailure. rewrite He. simpl.
    repeat split; try done; try congruence; by rewrite He.
Qed.

(** X13.  initConnection keeps connecting until the sink accepts or the
    driver gives up: every answer before the last is a failure that is
    logged and counted in output_connection_failed; it returns true
    exactly when the last answer is a success; it returns false only when
    the driver is closing, the sink returned ErrTypeClosed (neither is
    counted as a failed connection), or the wait for the next attempt was
    cancelled.  It neither writes nor acknowledges, nor touches the
    connected flag. *)
Theorem initConnection_outcome st st1 ok :
  initConnection st = Done (st1, ok) →
  ∃ retried last evs,
    sinkConnects st = retried ++ last :: sinkConnects st1
    ∧ Forall (λ r, is_Some (cerr r) ∧ countedFailure r = true ∧ ctxDone r = false) retried
    ∧ (ok = true ↔ cerr last = None)
    ∧ (ok = false → countedFailure last = false ∨ ctxDone last = true)
    ∧ trace st1 = trace st ++ evs
    ∧ connects evs = cerr <$> (retried ++ [last])
    ∧ writes evs = [] ∧ acks evs = []
    ∧ count "output_connection_failed" evs
      = length retried + (if countedFailure last then 1 else 0)
    ∧ isConnected st1 = isConnected st
    ∧ sinkWrites st1 = sinkWrites st.
Proof.
  unfold initConnection. intros Hrun.
  destruct (initConnectionLoop (sinkConnects st) []) as [|[[ok' rest] evs]] eqn:Hloop;
    [done|].
  simplify_eq. apply initConnectionLoop_outcome in Hloop
    as (retried & last & new & Hcs & Hall & Hok & Hno & -> & Hc & Hw & Ha & Hi).
  exists retried, last, new. simpl. repeat split; try done; try tauto.
  unfold count. rewrite Hi. apply filter_replicate_eq.
Qed.

Lemma initConnection_outcome_witness :
  ∃ st1 (retried : list connectResp) (last : connectResp),
    initConnection
      (demoState [] [mkConnectResp (Some (ErrNew "refused")) false false;
                     mkConnectResp (Some ErrTypeClosed) false false;
                     mkConnectResp None false false] [])
    = Done (st1, false)
    ∧ [mkConnectResp (Some (ErrNew "refused")) false false;
       mkConnectResp (Some ErrTypeClosed) false false;
       mkConnectResp None false false]
      = retried ++ last :: sinkConnects st1
    ∧ count "output_connection_failed" (trace st1)
      = length retried + (if countedFailure last then 1 else 0).
Proof.
  eexists.
  destruct (initConnection_outcome
              (demoState [] [mkConnectResp (Some (ErrNew "refused")) false false;
                             mkConnectResp (Some ErrTypeClosed) false false;
                             mkConnectResp None false false] []) _ false eq_refl)
    as (retried & last & evs & Hcs & _ & _ & _ & Htr & _ & _ & _ & Hcount & _).
  exists retried, last. split; [reflexivity|]. split; [exact Hcs|].
  rewrite Htr. exact Hcount.
Defined.

Lemma count_replicate_other c c' k evs :
  incrs evs = replicate k c' → c' ≠ c → count c evs = 0.
Proof.
  intros Hi Hne. unfold count. rewrite Hi. clear Hi.
  induction k as [|k IH]; [done|].
  change (replicate (S k) c') with (c' :: replicate k c').
  by rewrite filter_cons_False.
Qed.

Lemma lostWrites_write msg r :
  lostWrites [EvWrite msg r] = if decide (r = Some ErrNotConnected) then 1 else 0.
Proof.
  unfold lostWrites. change (writes [EvWrite msg r]) with [(msg, r)].
  destruct (decide (r = Some ErrNotConnected)) as [Hr|Hr].
  - by rewrite filter_cons_True.
  - by rewrite filter_cons_False.
Qed.

Lemma lostWrites_incr c : lostWrites [EvIncr c] = 0.
Proof. done. Qed.

Lemma initConnection_quiet st st1 ok :
  initConnection st = Done (st1, ok) →
  ∃ evs,
    trace st1 = trace st ++ evs
    ∧ writes evs = [] ∧ acks evs = []
    ∧ (∀ c, c ≠ "output_connection_failed" → count c evs = 0)
    ∧ (ok = true ↔ last (connects evs) = Some None)
    ∧ connects evs ≠ []
    ∧ isConnected st1 = isConnected st
    ∧ sinkWrites st1 = sinkWrites st.
Proof.
  unfold initConnection. intros Hrun.
  destruct (initConnectionLoop (sinkConnects st) []) as [|[[ok' rest] evs]] eqn:Hloop;
    [done|].
  simplify_eq. apply initConnectionLoop_outcome in Hloop
    as (retried & last & new & Hcs & Hall & Hok & Hno & -> & Hc & Hw & Ha & Hi).
  exists new. simpl. split; [done|]. split; [done|]. split; [done|].
  split.
  { intros c Hc'. eapply count_replicate_other; [exact Hi|done]. }
  rewrite Hc, fmap_app. simpl. rewrite last_snoc.
  split; [|split; [|done]].
  - rewrite Hok. split; [by intros ->|by intros [= ->]].
  - by destruct (cerr <$> retried).
Qed.

Lemma reconnectFor_metrics msg : ∀ fuel st st1 res,
  reconnectFor fuel msg st = Done (st1, res) →
  ∃ evs,
    trace st1 = trace st ++ evs
    ∧ res ≠ Some ErrNotConnected
    ∧ count "output_error" evs = lostWrites evs
    ∧ count "output_connection_lost" evs = 0
    ∧ connects evs ≠ []
    ∧ ((count "output_connection_up" evs = 1
        ∧ last (connects evs) = Some None
        ∧ isConnected st1 = true)
       ∨ (count "output_connection_up" evs = 0
          ∧ res = Some ErrTypeClosed
          ∧ last (connects evs) ≠ Some None
          ∧ isConnected st1 = isConnected st)).
Proof.
  induction fuel as [|fuel IH]; intros st st1 res Hrun; simpl in Hrun; [done|].
  destruct (initConnection st) as [|[sti ok]] eqn:Hinit; [done|].
  apply initConnection_quiet in Hinit
    as (evi & Htri & Hwi & _ & Hci & Hoki & Hnei & Hflag & _).
  destruct ok.
  - destruct (latencyMeasuringWrite msg sti) as [|[st2 r]] eqn:Hw; [done|].
    apply latencyMeasuringWrite_Done in Hw as (Htr2 & _ & _ & Hflag2).
    destruct (decide (r ≠ Some ErrNotConnected)) as [Hr|Hr].
    + simplify_eq. exists (evi ++ [EvWrite msg res] ++ [EvIncr "output_connection_up"]).
      split; [simpl; by rewrite Htr2, Htri, <- !app_assoc|].
      split; [done|].
      rewrite !count_app, !lostWrites_app, !connects_app, !Hci by done.
      rewrite lostWrites_write, lostWrites_incr, decide_False by done.
      unfold lostWrites at 1. rewrite Hwi. simpl.
      split; [done|].
      split; [done|]. split; [by destruct (connects evi)|].
      left. split; [done|]. split; [|done].
      rewrite app_nil_r. by apply Hoki.
    + apply dec_ne_NotConnected in Hr as ->.
      apply IH in Hrun as (evr & Htrr & Hres & Herr & Hlost & Hner & Hcases).
      exists (evi ++ [EvWrite msg (Some ErrNotConnected)] ++ [EvIncr "output_error"] ++ evr).
      split; [rewrite Htrr; simpl; by rewrite Htr2, Htri, <- !app_assoc|].
      split; [done|].
      rewrite !count_app, !lostWrites_app, !connects_app, !Hci by done.
      rewrite lostWrites_write, lostWrites_incr, decide_True by done.
      unfold lostWrites at 1. rewrite Hwi. simpl.
      split; [by rewrite Herr|].
      split; [done|]. split; [by destruct (connects evi)|].
      assert (Hlast : last (connects evi ++ connects evr) = last (connects evr)).
      { rewrite last_app. destruct (last (connects evr)) eqn:Hl; [done|].
        apply last_None in Hl. done. }
      rewrite Hlast. simpl in *.
      destruct Hcases as [(Hup & Hl & Hf)|(Hup & -> & Hl & Hf)].
      * left. by rewrite Hup.
      * right. rewrite Hup. repeat split; try done. by rewrite Hf, Hflag2.
  - simplify_eq. exists evi. split; [done|]. split; [done|].
    rewrite !Hci by done. unfold lostWrites. rewrite Hwi.
    split; [done|]. split; [done|]. split; [done|].
    right. repeat split; try done.
    intros Hl. apply Hoki in Hl. done.
Qed.

(** X14.  connectLoop ends in one of three ways, and never returns
    ErrNotConnected.  Either a peer had restored the connection and the
    re-attempted write went through: nothing is connected or counted.  Or
    the worker reconnected: output_connection_lost and
    output_connection_up are each counted once, the last connect
    succeeded, and the writer is marked connected.  Or it gave up with
    ErrTypeClosed: output_connection_lost is counted once,
    output_connection_up is not, and the last connect did not succeed. *)
Theorem connectLoop_outcomes msg st st1 res :
  connectLoop msg st = Done (st1, res) →
  res ≠ Some ErrNotConnected
  ∧ ∃ evs,
      trace st1 = trace st ++ evs
      ∧ ((connects evs = []
          ∧ count "output_connection_lost" evs = 0
          ∧ count "output_connection_up" evs = 0
          ∧ isConnected st1 = true)
         ∨ (count "output_connection_lost" evs = 1
            ∧ count "output_connection_up" evs = 1
            ∧ last (connects evs) = Some None
            ∧ isConnected st1 = true)
         ∨ (count "output_connection_lost" evs = 1
            ∧ count "output_connection_up" evs = 0
            ∧ res = Some ErrTypeClosed
            ∧ last (connects evs) ≠ Some None)).
Proof.
  unfold connectLoop. intros Hrun.
  destruct (loadConnected (storeConnected false st)) as [connected sta] eqn:Hload.
  assert (Hsta : trace sta = trace st ∧ isConnected sta = connected).
  { unfold loadConnected in Hload. simpl in Hload.
    destruct (peers st); simplify_eq; done. }
  destruct Hsta as [Htra Hfa].
  unfold connectBody in Hrun.
  assert (Hre : ∀ stb pre, trace stb = trace st ++ pre → connects pre = [] →
            count "output_connection_lost" pre = 0 →
            count "output_connection_up" pre = 0 →
            reconnectFor
              (S (length (sinkWrites (emit [EvIncr "output_connection_lost"] stb)))) msg
              (emit [EvIncr "output_connection_lost"] stb) = Done (st1, res) →
            res ≠ Some ErrNotConnected
            ∧ ∃ evs, trace st1 = trace st ++ evs
                ∧ ((connects evs = []
                    ∧ count "output_connection_lost" evs = 0
                    ∧ count "output_connection_up" evs = 0
                    ∧ isConnected st1 = true)
                   ∨ (count "output_connection_lost" evs = 1
                      ∧ count "output_connection_up" evs = 1
                      ∧ last (connects evs) = Some None
                      ∧ isConnected st1 = true)
                   ∨ (count "output_connection_lost" evs = 1
                      ∧ count "output_connection_up" evs = 0
                      ∧ res = Some ErrTypeClosed
                      ∧ last (connects evs) ≠ Some None))).
  { intros stb pre Htrb Hcpre Hlpre Hupre Hrec.
    apply reconnectFor_metrics in Hrec
      as (evr & Htrr & Hres & _ & Hlost & Hner & Hcases).
    split; [done|].
    exists (pre ++ [EvIncr "output_connection_lost"] ++ evr).
    split; [rewrite Htrr; simpl; by rewrite Htrb, <- !app_assoc|].
    rewrite !count_app, !connects_app, Hcpre, Hlpre, Hupre, Hlost. simpl.
    destruct Hcases as [(Hup & Hl & Hf)|(Hup & -> & Hl & Hf)].
    - right. left. by rewrite Hup.
    - right. right. by rewrite Hup. }
  destruct connected.
  - destruct (latencyMeasuringWrite msg sta) as [|[st2 r]] eqn:Hw; [done|].
    apply latencyMeasuringWrite_Done in Hw as (Htr2 & _ & _ & Hflag2).
    destruct (decide (r ≠ Some ErrNotConnected)) as [Hr|Hr].
    + simplify_eq. split; [done|]. exists [EvWrite msg res].
      split; [by rewrite Htr2, Htra|]. left. repeat split; try done. congruence.
    + apply dec_ne_NotConnected in Hr as ->.
      apply (Hre _ [EvWrite msg (Some ErrNotConnected); EvIncr "output_error"]) in Hrun;
        [done| |done..].
      simpl. by rewrite Htr2, Htra, <- app_assoc.
  - apply (Hre _ []) in Hrun; [done| |done..]. by rewrite app_nil_r.
Qed.

Lemma connectLoop_outcomes_witness :
  ∃ st1 evs,
    connectLoop [Some (NewPart "foo")]
      (demoState [Some ErrNotConnected; None]
         [mkConnectResp (Some (ErrNew "refused")) false false;
          mkConnectResp None false false;
          mkConnectResp None false false] [])
    = Done (st1, None)
    ∧ trace st1 = [] ++ evs
    ∧ ((connects evs = []
        ∧ count "output_connection_lost" evs = 0
        ∧ count "output_connection_up" evs = 0
        ∧ isConnected st1 = true)
       ∨ (count "output_connection_lost" evs = 1
          ∧ count "output_connection_up" evs = 1
          ∧ last (connects evs) = Some None
          ∧ isConnected st1 = true)
       ∨ (count "output_connection_lost" evs = 1
          ∧ count "output_connection_up" evs = 0
          ∧ None = Some ErrTypeClosed
          ∧ last (connects evs) ≠ Some None)).
Proof.
  eexists.
  destruct (connectLoop_outcomes [Some (NewPart "foo")]
              (demoState [Some ErrNotConnected; None]
                 [mkConnectResp (Some (ErrNew "refused")) false false;
                  mkConnectResp None false false;
                  mkConnectResp None false false] []) _ None eq_refl)
    as (_ & evs & Htr & Hcases).
  exists evs. split; [reflexivity|]. split; [exact Htr|exact Hcases].
Defined.

Lemma connectLoop_errors msg st st1 res :
  connectLoop msg st = Done (st1, res) →
  ∃ evs, trace st1 = trace st ++ evs
         ∧ count "output_error" evs = lostWrites evs.
Proof.
  unfold connectLoop. intros Hrun.
  destruct (loadConnected (storeConnected false st)) as [connected sta] eqn:Hload.
  assert (Htra : trace sta = trace st).
  { unfold loadConnected in Hload. simpl in Hload.
    destruct (peers st); simplify_eq; done. }
  unfold connectBody in Hrun.
  assert (Hre : ∀ stb pre, trace stb = trace st ++ pre →
            count "output_error" pre = lostWrites pre →
            reconnectFor
              (S (length (sinkWrites (emit [EvIncr "output_connection_lost"] stb)))) msg
              (emit [EvIncr "output_connection_lost"] stb) = Done (st1, res) →
            ∃ evs, trace st1 = trace st ++ evs
                   ∧ count "output_error" evs = lostWrites evs).
  { intros stb pre Htrb Hpre Hrec.
    apply reconnectFor_metrics in Hrec as (evr & Htrr & _ & Herr & _).
    exists (pre ++ [EvIncr "output_connection_lost"] ++ evr).
    split; [rewrite Htrr; simpl; by rewrite Htrb, <- !app_assoc|].
    rewrite !count_app, !lostWrites_app, Hpre, Herr. done. }
  destruct connected.
  - destruct (latencyMeasuringWrite msg sta) as [|[st2 r]] eqn:Hw; [done|].
    apply latencyMeasuringWrite_Done in Hw as (Htr2 & _).
    destruct (decide (r ≠ Some ErrNotConnected)) as [Hr|Hr].
    + simplify_eq. exists [EvWrite msg res]. split; [by rewrite Htr2, Htra|].
      by rewrite lostWrites_write, decide_False.
    + apply dec_ne_NotConnected in Hr as ->.
      apply (Hre _ [EvWrite msg (Some ErrNotConnected); EvIncr "output_error"]) in Hrun;
        [done| |done].
      simpl. by rewrite Htr2, Htra, <- app_assoc.
  - apply (Hre _ []) in Hrun; [done| |done]. by rewrite app_nil_r.
Qed.

(** X15.  What output_error counts during the write of one transaction.
    A first write that fails with an error other than ErrNotConnected is
    counted once.  When the first write returns ErrNotConnected it is not
    counted; each later write that returns ErrNotConnected is; and the
    write that ends the reconnection is not counted, whatever it
    returns. *)
Theorem output_error_count msg st st1 res :
  writeWithReconnect msg st = Done (st1, res) →
  ∃ evs,
    trace st1 = trace st ++ evs
    ∧ count "output_error" evs
      = match lostWrites evs with
        | 0 => match res with Some _ => 1 | None => 0 end
        | S k => k
        end.
Proof.
  unfold writeWithReconnect. intros Hrun.
  destruct (latencyMeasuringWrite msg st) as [|[sta r]] eqn:Hw; [done|].
  apply latencyMeasuringWrite_Done in Hw as (Htra & _).
  destruct r as [e|].
  - destruct (decide (e = ErrNotConnected)) as [->|Hne].
    + apply connectLoop_errors in Hrun as (evs & Htr & Hcount).
      exists ([EvWrite msg (Some ErrNotConnected)] ++ evs).
      split; [by rewrite Htr, Htra, <- app_assoc|].
      rewrite count_app, lostWrites_app, lostWrites_write, decide_True by done.
      simpl. exact Hcount.
    + assert (Hst : st1 = emit [EvIncr "output_error"] sta ∧ res = Some e).
      { destruct e; simplify_eq; done. }
      destruct Hst as [-> ->].
      exists ([EvWrite msg (Some e)] ++ [EvIncr "output_error"]).
      split; [simpl; by rewrite Htra, <- app_assoc|].
      rewrite count_app, lostWrites_app, lostWrites_write, decide_False by congruence.
      done.
  - simplify_eq. exists [EvWrite msg None]. split; [done|].
    by rewrite lostWrites_write, decide_False.
Qed.

Lemma output_error_count_witness :
  ∃ st1 evs,
    writeWithReconnect [Some (NewPart "foo")]
      (demoState [Some ErrNotConnected; Some ErrNotConnected; Some (ErrNew "rejected")]
         [mkConnectResp None false false; mkConnectResp None false false] [])
    = Done (st1, Some (ErrNew "rejected"))
    ∧ trace st1 = [] ++ evs
    ∧ count "output_error" evs
      = match lostWrites evs with
        | 0 => 1
        | S k => k
        end.
Proof.
  eexists.
  destruct (output_error_count [Some (NewPart "foo")]
              (demoState [Some ErrNotConnected; Some ErrNotConnected;
                          Some (ErrNew "rejected")]
                 [mkConnectResp None false false; mkConnectResp None false false] [])
              _ (Some (ErrNew "rejected")) eq_refl)
    as (evs & Htr & Hcount).
  exists evs. split; [reflexivity|]. split; [exact Htr|exact Hcount].
Defined.

Lemma writerLoop_trace w tracer : ∀ chan st st',
  writerLoop w tracer chan st = Done st' →
  ∃ evs, trace st' = trace st ++ evs.
Proof.
  induction chan as [|ev chan IH]; intros st st' Hrun; simpl in Hrun.
  - simplify_eq. exists []. by rewrite app_nil_r.
  - destruct ev as [ts|]; [|simplify_eq; exists []; by rewrite app_nil_r].
    destruct (processTransaction w tracer ts st) as [|[st1 c]] eqn:Hp; [done|].
    apply processTransaction_Done in Hp as (evs & res & Htr & _).
    destruct c.
    + apply IH in Hrun as (evs' & Htr'). exists (evs ++ evs').
      by rewrite Htr', Htr, <- app_assoc.
    + simplify_eq. by exists evs.
Qed.

(** X16.  loop, with at most one worker: the sink is connected before
    anything is written or acknowledged, the first successful connect
    being counted in output_connection_up; if the initial connection is
    given up, nothing is ever written or acknowledged; and when loop
    returns, the writer is marked as not connected. *)
Theorem loop_connects_first w tracer chan st st' :
  maxInflight w ≤ 1 →
  loop w tracer chan st = Some (Done st') →
  isConnected st' = false
  ∧ ∃ before after,
      trace st' = trace st ++ before ++ after
      ∧ writes before = [] ∧ acks before = []
      ∧ connects before ≠ []
      ∧ ((last (connects before) = Some None
          ∧ head after = Some (EvIncr "output_connection_up"))
         ∨ (last (connects before) ≠ Some None ∧ after = [])).
Proof.
  unfold loop. intros Hmax Hrun.
  destruct (initConnection st) as [|[st1 ok]] eqn:Hinit; [done|].
  apply initConnection_quiet in Hinit
    as (evi & Htri & Hwi & Hai & _ & Hoki & Hnei & _).
  destruct ok.
  - assert (Hlast : last (connects evi) = Some None) by by apply Hoki.
    destruct (maxInflight w) as [|[|n]]; [| |lia].
    + simplify_eq. split; [done|].
      exists evi, [EvIncr "output_connection_up"]. simpl.
      split; [by rewrite Htri, <- app_assoc|]. repeat split; try done. by left.
    + destruct (writerLoop w tracer chan _) as [|st3] eqn:Hw; [done|].
      apply writerLoop_trace in Hw as (evs & Htr). simpl in Htr.
      simplify_eq. split; [done|].
      exists evi, ([EvIncr "output_connection_up"] ++ evs). simpl.
      split; [by rewrite Htr, Htri, <- !app_assoc|]. repeat split; try done. by left.
  - simplify_eq. split; [done|]. exists evi, []. simpl.
    split; [by rewrite app_nil_r|]. repeat split; try done. right.
    split; [|done]. intros Hl. apply Hoki in Hl. done.
Qed.

Lemma loop_connects_first_witness :
  ∃ st',
    loop singleConfig demoTracer [Recv demoTransaction]
      (demoState [None] [mkConnectResp None false false] [])
    = Some (Done st')
    ∧ isConnected st' = false.
Proof.
  eexists. split; [reflexivity|].
  exact (proj1 (loop_connects_first singleConfig demoTracer [Recv demoTransaction]
                  (demoState [None] [mkConnectResp None false false] []) _
                  ltac:(simpl; lia) eq_refl)).
Defined.

(** X17.  Consume starts the driver once.  On a new writer it stores
    the channel, starts loop and returns nil; on a writer that already has
    a channel it returns ErrAlreadyStarted, starts no second loop and
    keeps the channel it has, whatever the writer was before. *)
Theorem Consume_once ts1 ts2 ws cs a :
  Consume ts1 (NewAsyncWriter ws cs)
  = (mkAsyncWriter (Some ts1) (shared (NewAsyncWriter ws cs)), true, None)
  ∧ Connected (Consume ts1 (NewAsyncWriter ws cs)).1.1 = false
  ∧ is_Some (transactions (Consume ts1 a).1.1)
  ∧ Consume ts2 (Consume ts1 a).1.1
    = ((Consume ts1 a).1.1, false, Some ErrAlreadyStarted).
Proof.
  split; [done|]. split; [done|].
  unfold Consume. destruct (transactions a) as [ts|] eqn:Ha; simpl.
  - rewrite Ha. split; [by eexists|done].
  - split; [by eexists|done].
Qed.
Lemma injectLoop_connects im : ∀ msg spans i,
  connects (injectLoop im i msg spans).2 = [].
Proof.
  induction msg as [|p msg IH]; intros spans i; simpl; [done|].
  destruct spans as [|s spans]; [done|]. specialize (IH spans (S i)).
  destruct (injectLoop im (S i) msg spans) as [parts lg]. simpl in *.
  destruct (im p i [NewPart s]); simpl; done.
Qed.

Lemma injectSpans_connects w msg spans : connects (injectSpans w msg spans).2 = [].
Proof.
  unfold injectSpans. destruct (injectTracingMap w) as [im|]; [|done].
  destruct (decide _); [done|]. apply injectLoop_connects.
Qed.

Lemma last_app_ne {A} (l1 l2 : list A) : l2 ≠ [] → last (l1 ++ l2) = last l2.
Proof.
  intros Hne. rewrite last_app. destruct (last l2) eqn:Hl; [done|].
  by apply last_None in Hl.
Qed.

(** How the [for] loop of connectLoop ends: with the result of a write
    that followed a successful connect, or with ErrTypeClosed after a
    connect that did not succeed. *)
Lemma reconnectFor_end msg : ∀ fuel st st1 res,
  reconnectFor fuel msg st = Done (st1, res) →
  ∃ evs k,
    trace st1 = trace st ++ evs
    ∧ acks evs = [] ∧ connects evs ≠ []
    ∧ ((writes evs = replicate k (msg, Some ErrNotConnected) ++ [(msg, res)]
        ∧ res ≠ Some ErrNotConnected)
       ∨ (writes evs = replicate k (msg, Some ErrNotConnected)
          ∧ res = Some ErrTypeClosed
          ∧ last (connects evs) ≠ Some None)).
Proof.
  induction fuel as [|fuel IH]; intros st st1 res Hrun; simpl in Hrun; [done|].
  destruct (initConnection st) as [|[sti ok]] eqn:Hinit; [done|].
  apply initConnection_quiet in Hinit
    as (evi & Htri & Hwi & Hai & _ & Hoki & Hnei & _).
  destruct ok.
  - destruct (latencyMeasuringWrite msg sti) as [|[st2 r]] eqn:Hw; [done|].
    apply latencyMeasuringWrite_Done in Hw as (Htr2 & _).
    destruct (decide (r ≠ Some ErrNotConnected)) as [Hr|Hr].
    + simplify_eq.
      exists (evi ++ [EvWrite msg res] ++ [EvIncr "output_connection_up"]), 0.
      split; [simpl; by rewrite Htr2, Htri, <- !app_assoc|].
      rewrite !acks_app, !connects_app, !writes_app, Hai, Hwi. simpl.
      split; [done|]. split; [by rewrite app_nil_r|]. by left.
    + apply dec_ne_NotConnected in Hr as ->.
      apply IH in Hrun as (evr & k & Htrr & Har & Hner & Hcases).
      exists (evi ++ [EvWrite msg (Some ErrNotConnected)] ++ [EvIncr "output_error"] ++ evr),
        (S k).
      split; [rewrite Htrr; simpl; by rewrite Htr2, Htri, <- !app_assoc|].
      rewrite !acks_app, !connects_app, !writes_app, Hai, Hwi, Har. simpl.
      split; [done|]. split; [by destruct (connects evi)|].
      destruct Hcases as [[-> Hres]|(-> & -> & Hl)]; [by left|right].
      split; [done|]. split; [done|]. by rewrite last_app_ne.
  - simplify_eq. exists evi, 0. split; [done|]. split; [done|]. split; [done|].
    right. rewrite Hwi. split; [done|]. split; [done|].
    intros Hl. apply Hoki in Hl. done.
Qed.

Lemma connectLoop_end msg st st1 res :
  connectLoop msg st = Done (st1, res) →
  ∃ evs k,
    trace st1 = trace st ++ evs
    ∧ acks evs = []
    ∧ ((writes evs = replicate k (msg, Some ErrNotConnected) ++ [(msg, res)]
        ∧ res ≠ Some ErrNotConnected)
       ∨ (writes evs = replicate k (msg, Some ErrNotConnected)
          ∧ res = Some ErrTypeClosed
          ∧ connects evs ≠ []
          ∧ last (connects evs) ≠ Some None)).
Proof.
  unfold connectLoop. intros Hrun.
  destruct (loadConnected (storeConnected false st)) as [connected sta] eqn:Hload.
  assert (Htra : trace sta = trace st).
  { unfold loadConnected in Hload. simpl in Hload.
    destruct (peers st); simplify_eq; done. }
  unfold connectBody in Hrun.
  destruct connected.
  - destruct (latencyMeasuringWrite msg sta) as [|[st2 r]] eqn:Hw; [done|].
    apply latencyMeasuringWrite_Done in Hw as (Htr2 & _).
    destruct (decide (r ≠ Some ErrNotConnected)) as [Hr|Hr].
    + simplify_eq. exists [EvWrite msg res], 0.
      split; [by rewrite Htr2, Htra|]. split; [done|]. by left.
    + apply dec_ne_NotConnected in Hr as ->.
      apply reconnectFor_end in Hrun as (evr & k & Htrr & Har & Hner & Hcases).
      exists ([EvWrite msg (Some ErrNotConnected); EvIncr "output_error";
               EvIncr "output_connection_lost"] ++ evr), (S k).
      split; [rewrite Htrr; simpl; by rewrite Htr2, Htra, <- !app_assoc|].
      rewrite !acks_app, !connects_app, !writes_app, Har. simpl.
      split; [done|].
      destruct Hcases as [[-> Hres]|(-> & -> & Hl)]; [by left|by right].
  - apply reconnectFor_end in Hrun as (evr & k & Htrr & Har & Hner & Hcases).
    exists ([EvIncr "output_connection_lost"] ++ evr), k.
    split; [rewrite Htrr; simpl; by rewrite Htra, <- !app_assoc|].
    rewrite !acks_app, !connects_app, !writes_app, Har. simpl.
    split; [done|].
    destruct Hcases as [[-> Hres]|(-> & -> & Hl)]; [by left|by right].
Qed.

(** The write of a transaction with its reconnections: every write before
    the last returned ErrNotConnected; the last write gives the result,
    or the result is the ErrTypeClosed of a reconnection that was given
    up after at least one write. *)
Lemma writeWithReconnect_end msg st st1 res :
  writeWithReconnect msg st = Done (st1, res) →
  ∃ evs k,
    trace st1 = trace st ++ evs
    ∧ acks evs = []
    ∧ ((writes evs = replicate k (msg, Some ErrNotConnected) ++ [(msg, res)]
        ∧ res ≠ Some ErrNotConnected)
       ∨ (writes evs = replicate (S k) (msg, Some ErrNotConnected)
          ∧ res = Some ErrTypeClosed
          ∧ connects evs ≠ []
          ∧ last (connects evs) ≠ Some None)).
Proof.
  unfold writeWithReconnect. intros Hrun.
  destruct (latencyMeasuringWrite msg st) as [|[sta r]] eqn:Hw; [done|].
  apply latencyMeasuringWrite_Done in Hw as (Htra & _).
  destruct r as [e|].
  - destruct (decide (e = ErrNotConnected)) as [->|Hne].
    + apply connectLoop_end in Hrun as (evs & k & Htr & Ha & Hcases).
      destruct Hcases as [[Hwr Hres]|(Hwr & -> & Hl)].
      * exists ([EvWrite msg (Some ErrNotConnected)] ++ evs), (S k).
        split; [by rewrite Htr, Htra, <- app_assoc|].
        rewrite !acks_app, !writes_app, Ha, Hwr. split; [done|]. by left.
      * exists ([EvWrite msg (Some ErrNotConnected)] ++ evs), k.
        split; [by rewrite Htr, Htra, <- app_assoc|].
        rewrite !acks_app, !connects_app, !writes_app, Ha, Hwr. split; [done|]. by right.
    + assert (Hst : st1 = emit [EvIncr "output_error"] sta ∧ res = Some e).
      { destruct e; simplify_eq; done. }
      destruct Hst as [-> ->].
      exists ([EvWrite msg (Some e)] ++ [EvIncr "output_error"]), 0.
      split; [simpl; by rewrite Htra, <- app_assoc|]. split; [done|].
      left. split; [done|congruence].
  - simplify_eq. exists [EvWrite msg None], 0. split; [done|]. split; [done|]. by left.
Qed.

(** One iteration of writerLoop: what it writes, and that the
    acknowledgement, when there is one, is its last event. *)
Lemma processTransaction_segment w tracer ts st st1 c :
  processTransaction w tracer ts st = Done (st1, c) →
  let payload := (injectSpans w (Payload ts) (CreateChildSpans tracer (Payload ts))).1 in
  ∃ evs res k,
    trace st1 = trace st ++ evs
    ∧ ((c = Continue
        ∧ writes evs = replicate k (payload, Some ErrNotConnected) ++ [(payload, res)]
        ∧ acks evs = [(tsid ts, res)]
        ∧ last evs = Some (EvAck (tsid ts) res)
        ∧ res ≠ Some ErrNotConnected ∧ res ≠ Some ErrTypeClosed)
       ∨ (c = Exit ∧ acks evs = []
          ∧ (writes evs
             = replicate k (payload, Some ErrNotConnected) ++ [(payload, Some ErrTypeClosed)]
             ∨ (writes evs = replicate (S k) (payload, Some ErrNotConnected)
                ∧ connects evs ≠ []
                ∧ last (connects evs) ≠ Some None)))).
Proof.
  unfold processTransaction. intros Hrun.
  pose proof (injectSpans_logs w (Payload ts) (CreateChildSpans tracer (Payload ts)))
    as [Hlacks Hlwrites].
  pose proof (injectSpans_connects w (Payload ts) (CreateChildSpans tracer (Payload ts)))
    as Hlconn.
  destruct (injectSpans w (Payload ts) (CreateChildSpans tracer (Payload ts)))
    as [payload logs]. simpl in Hlacks, Hlwrites, Hlconn. simpl.
  destruct (writeWithReconnect payload (emit (EvLog "trace" None :: logs) st))
    as [|[st2 res]] eqn:Hw; [done|].
  apply writeWithReconnect_end in Hw as (evs & k & Htr & Hack & Hphase).
  simpl in Htr. injection Hrun as Hrun.
  assert (Hnc : res ≠ Some ErrNotConnected).
  { destruct Hphase as [[_ ?]|(_ & -> & _)]; done. }
  assert (Hpre : ∀ l, writes ((EvLog "trace" None :: logs) ++ l) = writes l
                      ∧ acks ((EvLog "trace" None :: logs) ++ l) = acks l
                      ∧ connects ((EvLog "trace" None :: logs) ++ l) = connects l).
  { intros l. rewrite writes_app, acks_app, connects_app. simpl.
    by rewrite Hlwrites, Hlacks, Hlconn. }
  unfold completeTransaction in Hrun.
  destruct res as [e|].
  - destruct (decide (e = ErrTypeClosed)) as [->|Hne].
    + simplify_eq.
      exists ((EvLog "trace" None :: logs) ++ evs), (Some ErrTypeClosed), k.
      split; [by rewrite Htr, <- app_assoc|]. right.
      destruct (Hpre evs) as (-> & -> & ->).
      split; [done|]. split; [done|].
      destruct Hphase as [[-> _]|(-> & _ & Hne & Hl)]; [by left|by right].
    + assert (Hst : st1 = emit [if decide (typeStr w ≠ "reject")
                                then EvLog "error" (Some e) else EvLog "debug" (Some e);
                                EvFinish (length (CreateChildSpans tracer (Payload ts)));
                                EvAck (tsid ts) (Some e)] st2 ∧ c = Continue).
      { destruct e; simplify_eq; done. }
      destruct Hst as [-> ->].
      destruct Hphase as [[Hwr _]|(_ & [= ->] & _)]; [|done].
      eexists ((EvLog "trace" None :: logs) ++ evs ++ [_; _; _]), (Some e), k. split.
      { simpl. rewrite Htr, <- !app_assoc. reflexivity. }
      left. split; [done|].
      destruct (Hpre (evs ++ [if decide (typeStr w ≠ "reject")
                              then EvLog "error" (Some e) else EvLog "debug" (Some e);
                              EvFinish (length (CreateChildSpans tracer (Payload ts)));
                              EvAck (tsid ts) (Some e)])) as (-> & -> & _).
      rewrite writes_app, acks_app, Hwr, Hack.
      split; [by destruct (decide (typeStr w ≠ "reject")); simpl; rewrite app_nil_r|].
      split; [by destruct (decide (typeStr w ≠ "reject"))|].
      split; [|split; [done|congruence]].
      rewrite app_assoc.
      change [?a; ?b; ?c] with ([a; b] ++ [c]).
      by rewrite app_assoc, last_snoc.
  - simplify_eq.
    destruct Hphase as [[Hwr _]|(_ & [=] & _)].
    eexists ((EvLog "trace" None :: logs) ++ evs ++ [_; _; _; _; _; _]), None, k. split.
    { simpl. rewrite Htr, <- !app_assoc. reflexivity. }
    left. split; [done|].
    destruct (Hpre (evs ++ [EvIncr "output_batch_sent"; EvIncr "output_sent";
                            EvTiming "output_latency_ns"; EvLog "trace" None;
                            EvFinish (length (CreateChildSpans tracer (Payload ts)));
                            EvAck (tsid ts) None])) as (-> & -> & _).
    rewrite writes_app, acks_app, Hwr, Hack. simpl. rewrite app_nil_r.
    split; [done|]. split; [done|]. split; [|done].
    rewrite app_comm_cons, app_assoc.
    change [?a; ?b; ?c; ?d; ?e; ?f] with ([a; b; c; d; e] ++ [f]).
    by rewrite app_assoc, last_snoc.
Qed.

(** X11.  A worker handles the transactions of its channel in order and
    stops at the closed channel, at the at-leisure shutdown signal, or at
    the first transaction whose write ends with ErrTypeClosed.  For each
    transaction before that point the trace has one segment: its payload
    is written until a write returns something else than ErrNotConnected,
    and the segment ends with the one acknowledgement of the transaction,
    which carries the result of that last write and is never
    ErrNotConnected or ErrTypeClosed.  The transaction it stops at is
    written at least once and not acknowledged: either its last write
    returned ErrTypeClosed, or all its writes returned ErrNotConnected and
    the last connect did not succeed.  Nothing after the stopping point
    is written or acknowledged. *)
Theorem writerLoop_acks_in_order w tracer chan st st' :
  writerLoop w tracer chan st = Done st' →
  let payload ts :=
    (injectSpans w (Payload ts) (CreateChildSpans tracer (Payload ts))).1 in
  ∃ acked rest segs final,
    chan = (Recv <$> acked) ++ rest
    ∧ trace st' = trace st ++ concat segs ++ final
    ∧ Forall2 (λ ts seg, ∃ res k,
         writes seg
         = replicate k (payload ts, Some ErrNotConnected) ++ [(payload ts, res)]
         ∧ acks seg = [(tsid ts, res)]
         ∧ last seg = Some (EvAck (tsid ts) res)
         ∧ res ≠ Some ErrNotConnected ∧ res ≠ Some ErrTypeClosed) acked segs
    ∧ ((rest = [] ∧ final = [])
       ∨ ((∃ post, rest = CloseAtLeisure :: post) ∧ final = [])
       ∨ (∃ ts post k,
            rest = Recv ts :: post
            ∧ acks final = []
            ∧ (writes final
               = replicate k (payload ts, Some ErrNotConnected)
                 ++ [(payload ts, Some ErrTypeClosed)]
               ∨ (writes final = replicate (S k) (payload ts, Some ErrNotConnected)
                  ∧ connects final ≠ []
                  ∧ last (connects final) ≠ Some None)))).
Proof.
  intros Hrun payload. revert st Hrun.
  induction chan as [|ev chan IH]; intros st Hrun; simpl in Hrun.
  - simplify_eq. exists [], [], [], []. split; [done|].
    split; [by rewrite app_nil_r|]. split; [constructor|]. by left.
  - destruct ev as [ts|].
    + destruct (processTransaction w tracer ts st) as [|[st1 c]] eqn:Hp; [done|].
      apply processTransaction_segment in Hp
        as (evs & res & k & Htr
            & [(-> & Hwr & Hack & Hlast & Hnc & Htc)|(-> & Hack & Hwr)]).
      * apply IH in Hrun as (acked & rest & segs & final & -> & Htr' & Hsegs & Hstop).
        exists (ts :: acked), rest, (evs :: segs), final.
        split; [done|].
        split; [simpl; by rewrite Htr', Htr, <- !app_assoc|].
        split; [|done]. constructor; [|done]. by exists res, k.
      * simplify_eq. exists [], (Recv ts :: chan), [], evs.
        split; [done|]. split; [done|]. split; [constructor|].
        right. right. by exists ts, chan, k.
    + simplify_eq. exists [], (CloseAtLeisure :: chan), [], [].
      split; [done|]. split; [by rewrite app_nil_r|]. split; [constructor|].
      right. left. split; [by eexists|done].
Qed.

Lemma writerLoop_acks_in_order_witness :
  ∃ st' acked rest segs final,
    writerLoop demoConfig demoTracer
      [Recv demoTransaction; Recv demoTransaction2; CloseAtLeisure; Recv demoTransaction]
      (demoState [None; Some (ErrNew "rejected"); None] [] [])
    = Done st'
    ∧ [Recv demoTransaction; Recv demoTransaction2; CloseAtLeisure; Recv demoTransaction]
      = (Recv <$> acked) ++ rest
    ∧ trace st' = [] ++ concat segs ++ final
    ∧ acks (trace st') = [(7, None); (8, Some (ErrNew "rejected"))].
Proof.
  eexists.
  destruct (writerLoop_acks_in_order demoConfig demoTracer
              [Recv demoTransaction; Recv demoTransaction2; CloseAtLeisure;
               Recv demoTransaction]
              (demoState [None; Some (ErrNew "rejected"); None] [] []) _ eq_refl)
    as (acked & rest & segs & final & Hchan & Htr & Hsegs & Hstop).
  exists acked, rest, segs, final.
  split; [reflexivity|]. split; [exact Hchan|]. split; [exact Htr|reflexivity].
Defined.
End WriterLoopFacts.

Module BTLSFacts.
Import BTLS.

Lemma ltb_length_empty (s : string) : (0 <? String.length s) = false ↔ s = "".
Proof.
  destruct s; simpl; split; try done.
Qed.

Lemma loadCertificates_spec lib : ∀ confs t0 r,
  loadCertificates lib confs t0 = inr r →
  (confs = [] ∧ r = t0)
  ∨ (confs ≠ []
     ∧ ∃ certs,
         Forall2 (λ conf cert, Load lib conf = inr cert) confs certs
         ∧ r = Some (tls.mkConfig (tls.MinVersion (initConf t0))
                       (tls.RootCAs (initConf t0))
                       (tls.Certificates (initConf t0) ++ certs)
                       (tls.Renegotiation (initConf t0))
                       (tls.InsecureSkipVerify (initConf t0)))).
Proof.
  induction confs as [|conf confs IH]; intros t0 r Hrun; simpl in Hrun.
  - left. by simplify_eq.
  - right. split; [done|].
    destruct (Load lib conf) as [e|cert] eqn:Hload; [done|].
    apply IH in Hrun as [[-> ->]|(_ & certs & Hall & ->)].
    + exists [cert]. split; [by repeat constructor|done].
    + exists (cert :: certs). split; [by constructor|]. simpl.
      by rewrite <- app_assoc.
Qed.

Lemma loadCertificates_error lib : ∀ confs t0 e,
  loadCertificates lib confs t0 = inl e →
  ∃ i conf, confs !! i = Some conf ∧ Load lib conf = inl e
            ∧ ∀ j c, j < i → confs !! j = Some c → ∃ cert, Load lib c = inr cert.
Proof.
  induction confs as [|conf confs IH]; intros t0 e Hrun; simpl in Hrun; [done|].
  destruct (Load lib conf) as [e'|cert] eqn:Hload.
  - simplify_eq. exists 0, conf. split; [done|]. split; [done|]. intros j c Hj. lia.
  - apply IH in Hrun as (i & c & Hi & Hc & Hbefore).
    exists (S i), c. split; [done|]. split; [done|].
    intros [|j] c' Hj Hc'; simpl in Hc'; [simplify_eq; eauto|].
    apply (Hbefore j); [lia|done].
Qed.

(** X18.  Get returns a nil configuration exactly when no field of the
    Config is set: no root certificates, no client certificate, neither
    renegotiation nor skip_cert_verify. *)
Theorem Get_nil_iff lib (c : Config) :
  Get lib c = inr None
  ↔ RootCAs c = "" ∧ RootCAsFile c = "" ∧ ClientCertificates c = []
    ∧ EnableRenegotiation c = false ∧ InsecureSkipVerify c = false.
Proof.
  unfold Get. split.
  - intros Hget.
    destruct (0 <? String.length (RootCAs c)) eqn:Hr;
      destruct (0 <? String.length (RootCAsFile c)) eqn:Hf; simpl in Hget; [done| | |].
    + destruct (loadCertificates lib (ClientCertificates c) _) as [e|t3] eqn:Hl; [done|].
      apply loadCertificates_spec in Hl as [[_ ->]|(_ & certs & _ & ->)];
        destruct (EnableRenegotiation c), (InsecureSkipVerify c); simplify_eq.
    + destruct (ReadFile lib (RootCAsFile c)) as [e|caCert]; [done|].
      destruct (loadCertificates lib (ClientCertificates c) _) as [e|t3] eqn:Hl; [done|].
      apply loadCertificates_spec in Hl as [[_ ->]|(_ & certs & _ & ->)];
        destruct (EnableRenegotiation c), (InsecureSkipVerify c); simplify_eq.
    + apply ltb_length_empty in Hr, Hf.
      destruct (loadCertificates lib (ClientCertificates c) None) as [e|t3] eqn:Hl; [done|].
      apply loadCertificates_spec in Hl as [[Hnil ->]|(_ & certs & _ & ->)];
        destruct (EnableRenegotiation c), (InsecureSkipVerify c); simplify_eq; done.
  - intros (Hr & Hf & Hc & Hre & Hsk). by rewrite Hr, Hf, Hc, Hre, Hsk.
Qed.

(** X19.  A configuration returned by Get requires TLS 1.2 at least and
    mirrors the Config: one certificate per client_certs entry, in order,
    each the one Load returns for its entry; the renegotiation and
    skip-verify flags as configured; and a root pool made of the inline
    root_cas or of the contents of root_cas_file, when one of them is
    given. *)
Theorem Get_config_shape lib (c : Config) t :
  Get lib c = inr (Some t) →
  tls.MinVersion t = tls.VersionTLS12
  ∧ Forall2 (λ conf cert, Load lib conf = inr cert)
      (ClientCertificates c) (tls.Certificates t)
  ∧ tls.Renegotiation t = EnableRenegotiation c
  ∧ tls.InsecureSkipVerify t = InsecureSkipVerify c
  ∧ tls.RootCAs t
    = if decide (RootCAs c ≠ "") then Some [RootCAs c]
      else if decide (RootCAsFile c ≠ "")
           then match ReadFile lib (RootCAsFile c) with
                | inr caCert => Some [caCert]
                | inl _ => None
                end
           else None.
Proof.
  unfold Get. intros Hget.
  assert (Hne : ∀ s, (0 <? String.length s) = true → s ≠ "").
  { intros s Hs ->. done. }
  destruct (0 <? String.length (RootCAs c)) eqn:Hr;
    destruct (0 <? String.length (RootCAsFile c)) eqn:Hf; simpl in Hget; [done| | |].
  - apply Hne in Hr. apply ltb_length_empty in Hf.
    rewrite decide_True by done.
    destruct (loadCertificates lib (ClientCertificates c) _) as [e|t3] eqn:Hl; [done|].
    apply loadCertificates_spec in Hl as [[Hnil ->]|(_ & certs & Hall & ->)];
      [rewrite Hnil|];
      destruct (EnableRenegotiation c), (InsecureSkipVerify c); simplify_eq; simpl;
      repeat split; done.
  - apply Hne in Hf. apply ltb_length_empty in Hr.
    rewrite decide_False, decide_True by (done || (intros ?; done)).
    destruct (ReadFile lib (RootCAsFile c)) as [e|caCert]; [done|].
    destruct (loadCertificates lib (ClientCertificates c) _) as [e|t3] eqn:Hl; [done|].
    apply loadCertificates_spec in Hl as [[Hnil ->]|(_ & certs & Hall & ->)];
      [rewrite Hnil|];
      destruct (EnableRenegotiation c), (InsecureSkipVerify c); simplify_eq; simpl;
      repeat split; done.
  - apply ltb_length_empty in Hr, Hf.
    rewrite !decide_False by (intros ?; done).
    destruct (loadCertificates lib (ClientCertificates c) None) as [e|t3] eqn:Hl; [done|].
    apply loadCertificates_spec in Hl as [[Hnil ->]|(_ & certs & Hall & ->)];
      [rewrite Hnil|];
      destruct (EnableRenegotiation c), (InsecureSkipVerify c); simplify_eq; simpl;
      repeat split; done.
Qed.

Lemma Get_config_shape_witness :
  ∃ t,
    Get demoLibrary demoTLS = inr (Some t)
    ∧ tls.MinVersion t = tls.VersionTLS12
    ∧ tls.Certificates t
      = [tls.mkCertificate "CERT" "KEY"; tls.mkCertificate "INLINE-CERT" "INLINE-KEY"]
    ∧ tls.RootCAs t = Some ["CA"].
Proof.
  eexists. split; [reflexivity|].
  destruct (Get_config_shape demoLibrary demoTLS _ eq_refl) as (Hv & _ & _ & _ & Hroot).
  split; [exact Hv|]. split; [reflexivity|exact Hroot].
Defined.

(** X20.  The error of Get is one of three: both root_cas and
    root_cas_file are given; root_cas_file cannot be read; or a client
    certificate cannot be loaded, in which case the error is that of the
    first entry of client_certs that fails. *)
Theorem Get_errors lib (c : Config) e :
  Get lib c = inl e →
  (RootCAs c ≠ "" ∧ RootCAsFile c ≠ ""
   ∧ e = ErrNew "only one field between root_cas and root_cas_file can be specified")
  ∨ (RootCAs c = "" ∧ RootCAsFile c ≠ "" ∧ ReadFile lib (RootCAsFile c) = inl e)
  ∨ (∃ i conf,
       ClientCertificates c !! i = Some conf ∧ Load lib conf = inl e
       ∧ ∀ j conf', j < i → ClientCertificates c !! j = Some conf' →
           ∃ cert, Load lib conf' = inr cert).
Proof.
  unfold Get. intros Hget.
  assert (Hne : ∀ s, (0 <? String.length s) = true → s ≠ "").
  { intros s Hs ->. done. }
  destruct (0 <? String.length (RootCAs c)) eqn:Hr;
    destruct (0 <? String.length (RootCAsFile c)) eqn:Hf; simpl in Hget.
  - left. apply Hne in Hr, Hf. by simplify_eq.
  - right. right.
    destruct (loadCertificates lib (ClientCertificates c) _) as [e'|t3] eqn:Hl; [|done].
    simplify_eq. by eapply loadCertificates_error.
  - apply ltb_length_empty in Hr. apply Hne in Hf.
    destruct (ReadFile lib (RootCAsFile c)) as [e'|caCert] eqn:Hread.
    + right. left. by simplify_eq.
    + right. right.
      destruct (loadCertificates lib (ClientCertificates c) _) as [e'|t3] eqn:Hl; [|done].
      simplify_eq. by eapply loadCertificates_error.
  - right. right.
    destruct (loadCertificates lib (ClientCertificates c) _) as [e'|t3] eqn:Hl; [|done].
    simplify_eq. by eapply loadCertificates_error.
Qed.

Lemma Get_errors_witness :
  Get demoLibrary
    (mkConfig true "" "" false
       [mkClientCertConfig "cert.pem" "key.pem" "" "" "";
        mkClientCertConfig "cert.pem" "" "" "" ""] false)
  = inl (ErrNew "missing key_file field in client certificate config")
  ∧ ∃ i conf,
      [mkClientCertConfig "cert.pem" "key.pem" "" "" "";
       mkClientCertConfig "cert.pem" "" "" "" ""] !! i = Some conf
      ∧ Load demoLibrary conf
        = inl (ErrNew "missing key_file field in client certificate config").
Proof.
  split; [reflexivity|].
  destruct (Get_errors demoLibrary
              (mkConfig true "" "" false
                 [mkClientCertConfig "cert.pem" "key.pem" "" "" "";
                  mkClientCertConfig "cert.pem" "" "" "" ""] false)
              (ErrNew "missing key_file field in client certificate config") eq_refl)
    as [(Hr & _)|[(_ & Hf & _)|(i & conf & Hi & Hload & _)]].
  - by destruct Hr.
  - by destruct Hf.
  - exists i, conf. split; [exact Hi|exact Hload].
Defined.

(** X21.  Load only ever produces a certificate from a complete pair:
    either both cert_file and key_file are given, and then the inline
    cert and key are ignored, or neither file is given and both the inline
    cert and key are.  With an unencrypted key the password is not looked
    at. *)
Theorem Load_complete_pair lib (c : ClientCertConfig) cert :
  Load lib c = inr cert →
  (CertFile c ≠ "" ∧ KeyFile c ≠ ""
   ∧ ∀ inlineCert inlineKey,
       Load lib (mkClientCertConfig (CertFile c) (KeyFile c) inlineCert inlineKey
                   (Password c)) = inr cert)
  ∨ (CertFile c = "" ∧ KeyFile c = "" ∧ Cert c ≠ "" ∧ Key c ≠ ""
     ∧ (IsEncryptedPEMBlock lib (pemDecode lib (Key c)) = false →
        ∀ password,
          Load lib (mkClientCertConfig "" "" (Cert c) (Key c) password) = inr cert)).
Proof.
  unfold Load. intros Hload.
  destruct (decide (CertFile c ≠ "" ∨ KeyFile c ≠ "")) as [Hfiles|Hnone].
  - destruct (decide (CertFile c = "")) as [?|Hcf]; [done|].
    destruct (decide (KeyFile c = "")) as [?|Hkf]; [done|].
    left. split; [done|]. split; [done|]. intros inlineCert inlineKey. simpl.
    rewrite decide_True by auto. by rewrite !decide_False.
  - assert (Hcf : CertFile c = "").
    { destruct (decide (CertFile c = "")); [done|]. exfalso. apply Hnone. by left. }
    assert (Hkf : KeyFile c = "").
    { destruct (decide (KeyFile c = "")); [done|]. exfalso. apply Hnone. by right. }
    destruct (decide (Cert c = "")) as [?|Hc]; [done|].
    destruct (decide (Key c = "")) as [?|Hk]; [done|].
    right. repeat split; try done. intros Hplain password. simpl.
    destruct (decide (("" : string) ≠ "" ∨ ("" : string) ≠ "")) as [[?|?]|_];
      [done..|].
    rewrite !decide_False by done.
    unfold loadKeyPair in *. by rewrite Hplain in *.
Qed.

Lemma Load_complete_pair_witness :
  Load demoLibrary (mkClientCertConfig "cert.pem" "key.pem" "ignored" "" "")
  = inr (tls.mkCertificate "CERT" "KEY")
  ∧ Load demoLibrary (mkClientCertConfig "cert.pem" "key.pem" "" "other" "")
    = inr (tls.mkCertificate "CERT" "KEY").
Proof.
  split; [reflexivity|].
  destruct (Load_complete_pair demoLibrary
              (mkClientCertConfig "cert.pem" "key.pem" "ignored" "" "")
              (tls.mkCertificate "CERT" "KEY") eq_refl)
    as [(_ & _ & Hany)|(Hcf & _)]; [exact (Hany "" "other")|done].
Defined.
End BTLSFacts.

Module WebsocketFacts.
Import AsyncWriter Websocket.

Lemma WriteMessage_Done c bytes net net' res :
  WriteMessage c bytes net = Done (net', res) →
  dialAnswers net' = dialAnswers net ∧ dialled net' = dialled net
  ∧ closed net' = closed net
  ∧ sent net' = sent net ++ (if res is None then [(c, bytes)] else []).
Proof.
  unfold WriteMessage. destruct (writeAnswers net) as [|[e|] rest]; intros; simplify_eq;
    simpl; by rewrite ?app_nil_r.
Qed.

Lemma writeParts_Done c : ∀ msg net net' res,
  writeParts c msg net = Done (net', res) →
  dialAnswers net' = dialAnswers net ∧ dialled net' = dialled net
  ∧ closed net' = closed net
  ∧ ∃ k, k ≤ length msg
         ∧ sent net' = sent net ++ ((λ p, (c, data p)) <$> take k msg)
         ∧ (res = None → k = length msg)
         ∧ (res ≠ None → k < length msg).
Proof.
  induction msg as [|p msg IH]; intros net net' res Hrun; simpl in Hrun.
  - simplify_eq. repeat split; try done. exists 0. simpl. rewrite app_nil_r.
    repeat split; try done.
  - destruct (WriteMessage c (data p) net) as [|[net1 r]] eqn:Hw; [done|].
    apply WriteMessage_Done in Hw as (Hd & Hdl & Hc & Hs).
    destruct r as [e|].
    + simplify_eq. repeat split; try done. exists 0. simpl. rewrite Hs.
      repeat split; try done; lia.
    + apply IH in Hrun as (Hd' & Hdl' & Hc' & k & Hk & Hs' & Hok & Hfail).
      repeat split; try congruence. exists (S k). simpl.
      split; [lia|]. split; [by rewrite Hs', Hs, <- app_assoc|].
      split; [intros ?; f_equal; auto|intros ?; apply Hfail in H; lia].
Qed.

(** X22.  A failed write disconnects the writer.  WriteWithContext never
    returns websocket.ErrCloseSent (it returns ErrNotConnected instead);
    after any error the client is dropped, and every further write
    returns ErrNotConnected without touching the network, until the writer
    is connected again. *)
Theorem write_failure_disconnects msg w net w1 net1 e :
  WriteWithContext msg w net = Done (w1, net1, Some e) →
  e ≠ ErrCloseSent
  ∧ client w1 = None
  ∧ ∀ msg', WriteWithContext msg' w1 net1 = Done (w1, net1, Some ErrNotConnected).
Proof.
  unfold WriteWithContext. intros Hrun.
  destruct (client w) as [c|] eqn:Hc.
  - destruct (writeParts c msg net) as [|[net' [e'|]]]; [done| |by simplify_eq].
    simplify_eq. split.
    { destruct (decide (e' = ErrCloseSent)); [done|done]. }
    done.
  - simplify_eq. split; [done|]. split; [done|]. intros msg'. by rewrite Hc.
Qed.

Lemma write_failure_disconnects_witness :
  ∃ w1 net1,
    WriteWithContext (QuickBatch ["foo"; "bar"; "baz"]) demoWriter demoNetwork
    = Done (w1, net1, Some ErrNotConnected)
    ∧ sent net1 = [(0, "foo")]
    ∧ WriteWithContext (QuickBatch ["bar"]) w1 net1 = Done (w1, net1, Some ErrNotConnected).
Proof.
  eexists _, _. split; [reflexivity|]. split; [reflexivity|].
  exact (proj2 (proj2 (write_failure_disconnects (QuickBatch ["foo"; "bar"; "baz"])
                         demoWriter demoNetwork _ _ ErrNotConnected eq_refl))
           (QuickBatch ["bar"])).
Defined.

(** X23.  What a write sends.  On a connected writer the payloads of the
    parts go out in order on the writer's connection, and nothing else
    does; when the write returns nil all of them were sent and the writer
    stays connected, otherwise only the parts before the one that
    failed.  A write never dials and never closes a connection. *)
Theorem write_sends_in_order msg w net w1 net1 res c :
  client w = Some c →
  WriteWithContext msg w net = Done (w1, net1, res) →
  dialled net1 = dialled net ∧ closed net1 = closed net
  ∧ ∃ k, sent net1 = sent net ++ ((λ p, (c, data p)) <$> take k msg)
         ∧ (res = None → k = length msg ∧ w1 = w)
         ∧ (res ≠ None → k < length msg).
Proof.
  unfold WriteWithContext. intros Hc Hrun. rewrite Hc in Hrun.
  destruct (writeParts c msg net) as [|[net' r]] eqn:Hw; [done|].
  apply writeParts_Done in Hw as (_ & Hdl & Hcl & k & Hk & Hs & Hok & Hfail).
  destruct r as [e|]; simplify_eq.
  - split; [done|]. split; [done|]. exists k. split; [done|].
    split; [done|]. intros _. by apply Hfail.
  - split; [done|]. split; [done|]. exists k. split; [done|].
    split; [|done]. intros _. split; [by apply Hok|done].
Qed.

Lemma write_sends_in_order_witness :
  ∃ w1 net1,
    WriteWithContext (QuickBatch ["foo"]) demoWriter demoNetwork = Done (w1, net1, None)
    ∧ dialled net1 = dialled demoNetwork ∧ closed net1 = closed demoNetwork.
Proof.
  eexists _, _. split; [reflexivity|].
  destruct (write_sends_in_order (QuickBatch ["foo"]) demoWriter demoNetwork _ _ None 0
              eq_refl eq_refl) as (Hd & Hc & _).
  split; [exact Hd|exact Hc].
Defined.

Lemma readLoop_Done c : ∀ reads net net',
  readLoop c reads net = Done net' →
  (∃ k e, reads !! k = Some (Some e) ∧ Forall (λ r, r = None) (take k reads))
  ∧ net' = mkNetwork (dialAnswers net) (writeAnswers net) (dialled net) (sent net)
             (closed net ++ [c]).
Proof.
  induction reads as [|[e|] reads IH]; intros net net' Hrun; simpl in Hrun; [done| |].
  - simplify_eq. split; [|done]. exists 0, e. split; [done|]. constructor.
  - apply IH in Hrun as [(k & e & Hk & Hall) ->]. split; [|done].
    exists (S k), e. split; [done|]. simpl. by constructor.
Qed.

Lemma readLoop_waits c net : ∀ reads,
  Forall (λ r, r = None) reads → readLoop c reads net = Blocked.
Proof.
  induction reads as [|r reads IH]; intros Hall; [done|].
  apply Forall_cons in Hall as [-> Hall]. simpl. by apply IH.
Qed.

(** X24.  ConnectWithContext.  When it returns nil the writer has a
    client, and connecting again changes nothing, does not dial and starts
    no goroutine; a writer without a client dialled exactly once, with the
    TLS client configuration if and only if TLS is enabled, and started
    the reading goroutine on the new connection, which is the writer's
    client.  When it returns an error the writer is unchanged, still has
    no client, and no goroutine was started.  The call itself sends and
    closes nothing.  The goroutine it started waits as long as the reads
    succeed; when a read fails it closes its connection, once, and ends:
    it touches nothing else, and the writer keeps the closed connection as
    its client. *)
Theorem connect_outcomes urlParse Sign w net w1 net1 started res :
  ConnectWithContext urlParse Sign w net = Done (w1, net1, started, res) →
  sent net1 = sent net ∧ closed net1 = closed net
  ∧ (res = None →
       is_Some (client w1)
       ∧ ConnectWithContext urlParse Sign w1 net1 = Done (w1, net1, None, None)
       ∧ (client w = None →
            dialled net1
            = dialled net ++ [if BTLS.Enabled (TLS (conf w))
                              then TLSDialer (tlsConf w) else DefaultDialer]
            ∧ started = Some (length (dialled net))
            ∧ client w1 = started)
       ∧ (client w ≠ None → started = None ∧ w1 = w ∧ net1 = net))
  ∧ (res ≠ None → w1 = w ∧ client w = None ∧ started = None)
  ∧ (∀ c reads net2,
       started = Some c →
       client w1 = Some c
       ∧ (Forall (λ r, r = None) reads → readLoop c reads net2 = Blocked)
       ∧ ∀ net3, readLoop c reads net2 = Done net3 →
           (∃ k e, reads !! k = Some (Some e) ∧ Forall (λ r, r = None) (take k reads))
           ∧ closed net3 = closed net2 ++ [c]
           ∧ sent net3 = sent net2 ∧ dialled net3 = dialled net2
           ∧ dialAnswers net3 = dialAnswers net2
           ∧ writeAnswers net3 = writeAnswers net2).
Proof.
  unfold ConnectWithContext. intros Hrun.
  assert (Hreader : ∀ c reads net2,
            (Forall (λ r, r = None) reads → readLoop c reads net2 = Blocked)
            ∧ ∀ net3, readLoop c reads net2 = Done net3 →
                (∃ k e, reads !! k = Some (Some e)
                        ∧ Forall (λ r, r = None) (take k reads))
                ∧ closed net3 = closed net2 ++ [c]
                ∧ sent net3 = sent net2 ∧ dialled net3 = dialled net2
                ∧ dialAnswers net3 = dialAnswers net2
                ∧ writeAnswers net3 = writeAnswers net2).
  { intros c reads net2. split; [apply readLoop_waits|].
    intros net3 Hloop. apply readLoop_Done in Hloop as [Hk ->]. done. }
  destruct (client w) as [c|] eqn:Hc.
  - simplify_eq. rewrite Hc.
    split; [done|]. split; [done|]. split; [|split; [done|]].
    + intros _. split; [by eexists|]. split; [done|]. split; [done|]. done.
    + intros c' reads net2 [=].
  - destruct (urlParse (URL (conf w))) as [e|].
    { simplify_eq. split; [done|]. split; [done|]. split; [done|].
      split; [done|]. intros c' reads net2 [=]. }
    destruct (Sign (URL (conf w))) as [e|].
    { simplify_eq. split; [done|]. split; [done|]. split; [done|].
      split; [done|]. intros c' reads net2 [=]. }
    unfold Dial in Hrun.
    destruct (dialAnswers net) as [|[e|] rest]; [done| |]; simplify_eq; simpl.
    + split; [done|]. split; [done|]. split; [done|].
      split; [done|]. intros c' reads net2 [=].
    + split; [done|]. split; [done|]. split; [|split; [done|]].
      * intros _. split; [by eexists|]. split; [done|]. split; [done|]. done.
      * intros c' reads net2 [= <-]. split; [done|]. apply Hreader.
Qed.

Lemma connect_outcomes_witness :
  ∃ w1 net1 net3,
    ConnectWithContext (λ _, None) (λ _, None)
      (mkWebsocketWriter (mkWebsocketConfig "ws://localhost" BTLS.NewConfig) None None)
      (mkNetwork [None] [] [] [] [])
    = Done (w1, net1, Some 0, None)
    ∧ is_Some (client w1)
    ∧ dialled net1 = [DefaultDialer]
    ∧ readLoop 0 [None; Some (ErrNew "unexpected EOF")] net1 = Done net3
    ∧ closed net3 = [0]
    ∧ client w1 = Some 0.
Proof.
  eexists _, _, _. split; [reflexivity|].
  destruct (connect_outcomes (λ _, None) (λ _, None)
              (mkWebsocketWriter (mkWebsocketConfig "ws://localhost" BTLS.NewConfig)
                 None None)
              (mkNetwork [None] [] [] [] []) _ _ (Some 0) None eq_refl)
    as (_ & _ & Hok & _ & Hreader).
  destruct (Hok eq_refl) as (Hclient & _ & Hdial & _).
  destruct (Hdial eq_refl) as (Hdialled & _ & _).
  destruct (Hreader 0 [None; Some (ErrNew "unexpected EOF")]
              (mkNetwork [] [] [DefaultDialer] [] []) eq_refl)
    as (Hkeeps & _ & Hcloses).
  destruct (Hcloses _ eq_refl) as (_ & Hclosed & _).
  split; [exact Hclient|]. split; [exact Hdialled|].
  split; [reflexivity|]. split; [exact Hclosed|exact Hkeeps].
Defined.

(** X25.  CloseAsync closes the connection of a connected writer, once:
    a second CloseAsync does nothing, and after it every write returns
    ErrNotConnected without touching the network. *)
Theorem close_disconnects w net msg :
  client (CloseAsync w net).1 = None
  ∧ sent (CloseAsync w net).2 = sent net
  ∧ closed (CloseAsync w net).2
    = closed net ++ (if client w is Some c then [c] else [])
  ∧ CloseAsync (CloseAsync w net).1 (CloseAsync w net).2 = CloseAsync w net
  ∧ WriteWithContext msg (CloseAsync w net).1 (CloseAsync w net).2
    = Done ((CloseAsync w net).1, (CloseAsync w net).2, Some ErrNotConnected).
Proof.
  unfold CloseAsync, WriteWithContext. destruct (client w) as [c|] eqn:Hc; simpl.
  - done.
  - rewrite Hc, app_nil_r. done.
Qed.

(** X26.  newWebsocketWriter.  The TLS settings are read only when TLS is
    enabled: with TLS disabled the writer is created whatever they are,
    with no TLS configuration; with TLS enabled the writer gets what
    Config.Get returns, and an error of Get is the error of the
    constructor.  A new writer has no client, so a write before the first
    connect returns ErrNotConnected and touches nothing. *)
Theorem newWebsocketWriter_outcomes lib (cnf : WebsocketConfig) :
  (∀ w, newWebsocketWriter lib cnf = inr w →
     conf w = cnf ∧ client w = None
     ∧ (BTLS.Enabled (TLS cnf) = true → BTLS.Get lib (TLS cnf) = inr (tlsConf w))
     ∧ ∀ msg net, WriteWithContext msg w net = Done (w, net, Some ErrNotConnected))
  ∧ (∀ e, newWebsocketWriter lib cnf = inl e →
       BTLS.Enabled (TLS cnf) = true ∧ BTLS.Get lib (TLS cnf) = inl e)
  ∧ (BTLS.Enabled (TLS cnf) = false →
       newWebsocketWriter lib cnf = inr (mkWebsocketWriter cnf None None)).
Proof.
  unfold newWebsocketWriter.
  destruct (BTLS.Enabled (TLS cnf)) eqn:Hen.
  - destruct (BTLS.Get lib (TLS cnf)) as [e|t] eqn:Hget.
    + split; [done|]. split; [|done]. intros e' [= <-]. done.
    + split; [|done]. intros w [= <-]. done.
  - split; [|done]. intros w [= <-]. done.
Qed.
End WebsocketFacts.

Module TracingFacts.
Import Tracing SpanReader.

Lemma PartsWithChildSpans_spec prov op : ∀ parts,
  let newParts := (PartsWithChildSpans prov op parts).1 in
  let spans := (PartsWithChildSpans prov op parts).2 in
  length newParts = length parts
  ∧ (∀ i, newParts !! i
          = (λ x, (λ p, WithContext prov (CreateChildSpan prov op p) p) <$> x)
              <$> parts !! i)
  ∧ spans = CreateChildSpan prov op <$> omap id parts
  ∧ pctx <$> omap id newParts = spans.
Proof.
  induction parts as [|x parts IH]; simpl; [done|].
  destruct (PartsWithChildSpans prov op parts) as [newParts spans].
  simpl in IH. destruct IH as (Hlen & Hlook & Hspans & Hctx).
  destruct x as [p|]; simpl.
  - split; [by rewrite Hlen|]. split; [by intros [|i]; simpl|].
    split; [by rewrite Hspans|]. simpl. by f_equal.
  - split; [by rewrite Hlen|]. split; [by intros [|i]; simpl|]. done.
Qed.

Lemma PartsWithChildSpans_Some prov op (msg : list (tpart prov)) :
  (PartsWithChildSpans prov op (Some <$> msg)).1
  = Some <$> ((λ p, WithContext prov (CreateChildSpan prov op p) p) <$> msg).
Proof.
  induction msg as [|p msg IH]; [done|].
  rewrite !fmap_cons. cbn [PartsWithChildSpans].
  destruct (PartsWithChildSpans prov op (Some <$> msg)) as [newParts spans].
  simpl in *. by subst newParts.
Qed.

Lemma omap_id_fmap_Some {A} (l : list A) : omap id (Some <$> l) = l.
Proof. induction l as [|x l IH]; simpl; [done|]. f_equal. exact IH. Qed.

(** X27.  PartsWithChildSpans keeps the shape of its input: the new
    slice has the length of the old one, is nil exactly where the old one
    is, and each new part has the content of the old part and carries the
    child span created for it; the spans returned are those of the non-nil
    parts, in order.  WithChildSpans therefore returns a batch of the same
    length with the same contents, and the same spans as
    CreateChildSpans. *)
Theorem child_spans_keep_shape prov op (parts : list (option (tpart prov)))
    (msg : list (tpart prov)) :
  (length (PartsWithChildSpans prov op parts).1 = length parts
   ∧ (∀ i, (PartsWithChildSpans prov op parts).1 !! i = Some None
           ↔ parts !! i = Some None)
   ∧ (∀ i p, parts !! i = Some (Some p) →
        (PartsWithChildSpans prov op parts).1 !! i
        = Some (Some (mkTpart (body p) (CreateChildSpan prov op p))))
   ∧ (PartsWithChildSpans prov op parts).2
     = CreateChildSpan prov op <$> omap id parts)
  ∧ (WithChildSpans prov op msg).2 = CreateChildSpans prov op msg
  ∧ body <$> (WithChildSpans prov op msg).1 = body <$> msg
  ∧ pctx <$> (WithChildSpans prov op msg).1 = CreateChildSpans prov op msg.
Proof.
  destruct (PartsWithChildSpans_spec prov op parts) as (Hlen & Hlook & Hspans & _).
  split; [split; [done|split; [|split; [|done]]]|].
  - intros i. rewrite Hlook. destruct (parts !! i) as [[p|]|]; simpl; split; done.
  - intros i p Hp. by rewrite Hlook, Hp.
  - unfold WithChildSpans, CreateChildSpans.
    pose proof (PartsWithChildSpans_spec prov op (Some <$> msg)) as (_ & _ & Hs & _).
    pose proof (PartsWithChildSpans_Some prov op msg) as Hnew.
    destruct (PartsWithChildSpans prov op (Some <$> msg)) as [newParts spans].
    simpl in *. subst newParts. rewrite !omap_id_fmap_Some in *.
    split; [done|]. rewrite <- !list_fmap_compose. split; [|done].
    by apply list_fmap_ext.
Qed.

(** X28.  InitSpan never changes the content of a part and leaves a part
    that already carries a recording span as it is.  With a provider whose
    spans record, InitSpans is idempotent: initialising a second time,
    under whatever operation name, changes nothing. *)
Theorem InitSpans_idempotent prov op op' (msg : list (tpart prov)) :
  (∀ ctx name, IsRecording prov (Start prov ctx name) = true) →
  body <$> InitSpans prov op msg = body <$> msg
  ∧ (∀ p, p ∈ InitSpans prov op msg → IsRecording prov (pctx p) = true)
  ∧ InitSpans prov op' (InitSpans prov op msg) = InitSpans prov op msg.
Proof.
  intros Hrec. unfold InitSpans.
  assert (Hone : ∀ p, IsRecording prov (pctx (InitSpan prov op p)) = true).
  { intros p. unfold InitSpan, GetSpan.
    destruct (IsRecording prov (pctx p)) eqn:Hp; simpl; [done|apply Hrec]. }
  split; [|split].
  - rewrite <- list_fmap_compose. apply list_fmap_ext. intros _ p _. simpl.
    unfold InitSpan. by destruct (GetSpan prov p).
  - intros p (q & -> & _)%list_elem_of_fmap. apply Hone.
  - rewrite <- list_fmap_compose. apply list_fmap_ext. intros _ p _. simpl.
    unfold InitSpan at 1. unfold GetSpan. by rewrite Hone.
Qed.

Lemma InitSpans_idempotent_witness :
  InitSpans demoProvider "again" (InitSpans demoProvider "input" demoParts)
  = [@mkTpart demoProvider (NewPart "a") ["input"];
     @mkTpart demoProvider (NewPart "b") ["up"]].
Proof.
  rewrite (proj2 (proj2 (InitSpans_idempotent demoProvider "input" "again" demoParts
                           (λ _ _, eq_refl)))).
  reflexivity.
Defined.

Lemma logKVLoop_pairs : ∀ (ps : list (string * string)) pre tl fuel attrs,
  length tl ≤ 1 →
  2 * length ps + length tl ≤ fuel →
  logKVLoop fuel (length pre) (pre ++ (ps ≫= λ kv, [kv.1; kv.2]) ++ tl) attrs
  = attrs ++ ps.
Proof.
  induction ps as [|[k v] ps IH]; intros pre tl fuel attrs Htl Hfuel.
  - simpl. rewrite app_nil_r. destruct fuel as [|fuel]; simpl; [done|].
    rewrite length_app. destruct (decide _) as [?|_]; [lia|done].
  - destruct fuel as [|fuel]; [simpl in Hfuel; lia|]. simpl.
    rewrite !length_app. simpl.
    destruct (decide _) as [_|?]; [|lia].
    rewrite lookup_app_r by lia. rewrite Nat.sub_diag. simpl.
    rewrite lookup_app_r by lia.
    replace (length pre + 1 - length pre) with 1 by lia. simpl.
    specialize (IH (pre ++ [k; v]) tl fuel (attrs ++ [(k, v)]) Htl
                  ltac:(simpl in Hfuel; lia)).
    rewrite length_app in IH. simpl in IH.
    rewrite <- app_assoc in IH. simpl in IH.
    etrans; [exact IH|]. by rewrite <- app_assoc.
Qed.

Lemma length_flatten_pairs (ps : list (string * string)) :
  length (ps ≫= λ kv, [kv.1; kv.2]) = 2 * length ps.
Proof.
  induction ps as [|[k v] ps IH]; [done|].
  rewrite bind_cons, length_app, IH. simpl. lia.
Qed.

(** X29.  Span.LogKV pairs its arguments off as key, value: given the
    keys and values of some pairs in sequence it attaches exactly those
    pairs, in order; a key left over at the end, without a value, is
    dropped. *)
Theorem LogKV_pairs name (ps : list (string * string)) k :
  LogKV name (ps ≫= λ kv, [kv.1; kv.2]) = (name, ps)
  ∧ LogKV name ((ps ≫= λ kv, [kv.1; kv.2]) ++ [k]) = (name, ps).
Proof.
  unfold LogKV. split; f_equal.
  - pose proof (logKVLoop_pairs ps [] [] (length (ps ≫= λ kv, [kv.1; kv.2])) []) as H.
    simpl in H. rewrite app_nil_r in H. apply H; [lia|].
    rewrite length_flatten_pairs. lia.
  - pose proof (logKVLoop_pairs ps [] [k]
                  (length ((ps ≫= λ kv, [kv.1; kv.2]) ++ [k])) []) as H.
    simpl in H. apply H; [lia|]. rewrite length_app, length_flatten_pairs. simpl. lia.
Qed.

End TracingFacts.
